(* ===================================================================== *)
(*  Monte Carlo Tree Search for two-player games: a shallow embedding     *)
(*  of tic_tac_toe.py and MCTS.py, with the properties of the engine      *)
(*  and of the example game proved over it.                               *)
(*                                                                        *)
(*  Modelling conventions                                                 *)
(*   - Python exceptions are values of [exn]; a call that may raise       *)
(*     returns a [result].                                                *)
(*   - Python floats are modelled by exact rationals (Q); np.sqrt,        *)
(*     np.log and the single precision store of the score array are       *)
(*     parameters of the engine section. The store returns a [score]:     *)
(*     a rational or an infinity, so that it can overflow.                *)
(*   - a board is a value (a list of rows) for the engine and for the     *)
(*     rules of the game; [TicTacToeObjects] has the rows as objects,     *)
(*     where two rows of a board can be one object.                       *)
(*   - MCTSNode objects live in an arena (a list indexed by node id);     *)
(*     the [parent] and [children_nodes] fields hold node ids.            *)
(*   - numpy's global random state is a stream of raw draws               *)
(*     [draw : nat -> nat] read at a position that every call to          *)
(*     np.random.choice advances by one.                                  *)
(* ===================================================================== *)

From Stdlib Require Import ZArith QArith Qabs Qround Qpower Bool Lia Lqa String
  Ascii DecimalString Sorted.
From stdpp Require Import base list.

Local Open Scope Z_scope.

(* --------------------------------------------------------------------- *)
(*  Exceptions and results                                                *)
(* --------------------------------------------------------------------- *)

Inductive exn : Type :=
| ValueError (msg : string)
| AssertionError (msg : string)
| ZeroDivisionError
| IndexError
| OutOfFuel    (* a game loop that did not finish within the given fuel *)
| Stuck.       (* a dangling node id; excluded by [run_never_stuck] *)

Inductive result (A : Type) : Type :=
| Ok (a : A)
| Raise (e : exn).
Arguments Ok {A} a.
Arguments Raise {A} e.

Definition rbind {A B} (r : result A) (k : A -> result B) : result B :=
  match r with
  | Ok a => k a
  | Raise e => Raise e
  end.

Declare Scope result_scope.
Delimit Scope result_scope with result.
Notation "x <- e ;; k" := (rbind e (fun x => k))
  (at level 100, e at next level, right associativity) : result_scope.

(* str(n) for a Python int *)
Definition str (z : Z) : string := NilZero.string_of_int (Z.to_int z).

(* all(...) over a generator: stops at the first false element, so the
   elements after it are not evaluated and cannot raise *)
Fixpoint py_all (l : list (result bool)) : result bool :=
  match l with
  | [] => Ok true
  | x :: t => rbind x (fun b => if b then py_all t else Ok false)
  end.

(* --------------------------------------------------------------------- *)
(*  tic_tac_toe.py                                                        *)
(* --------------------------------------------------------------------- *)

Module TicTacToe.
Local Open Scope result_scope.

(* a state is a list of rows, each a list of ints *)
Definition board : Type := list (list Z).

(* the objects that hold boards; a reference is an index *)
Definition store : Type := list board.

(* state[row][col] for non-negative row and col *)
Definition cell (state : board) (row col : nat) : result Z :=
  match state !! row with
  | None => Raise IndexError
  | Some r =>
      match r !! col with
      | None => Raise IndexError
      | Some v => Ok v
      end
  end.

(* state[row][col] = v on an existing cell *)
Definition set_cell (state : board) (row col : nat) (v : Z) : board :=
  match state !! row with
  | None => state
  | Some r => <[row := <[col := v]> r]> state
  end.

Definition range3 : list nat := [0%nat; 1%nat; 2%nat].

Fixpoint scan_cols (state : board) (row : nat) (cols : list nat)
    (possible_actions : list Z) : result (list Z) :=
  match cols with
  | [] => Ok possible_actions
  | col :: cols' =>
      v <- cell state row col ;;
      scan_cols state row cols'
        (if v =? 0 then possible_actions ++ [Z.of_nat row * 3 + Z.of_nat col]
         else possible_actions)
  end.

Fixpoint scan_rows (state : board) (rows : list nat)
    (possible_actions : list Z) : result (list Z) :=
  match rows with
  | [] => Ok possible_actions
  | row :: rows' =>
      acc <- scan_cols state row range3 possible_actions ;;
      scan_rows state rows' acc
  end.

Definition get_possible_actions (player_idx : Z) (state : board)
    : result (list Z) :=
  scan_rows state range3 [].

Definition get_initial_state : board :=
  [[0; 0; 0]; [0; 0; 0]; [0; 0; 0]].

Definition row_wins (player_marker : Z) (row : list Z) : bool :=
  forallb (fun c => c =? player_marker) row.

Definition marked (state : board) (player_marker : Z) (rc : nat * nat)
    : result bool :=
  v <- cell state (fst rc) (snd rc) ;; Ok (v =? player_marker).

Fixpoint any_column (state : board) (player_marker : Z) (cols : list nat)
    : result bool :=
  match cols with
  | [] => Ok false
  | col :: cols' =>
      b <- py_all (map (fun row => marked state player_marker (row, col)) range3) ;;
      if b then Ok true else any_column state player_marker cols'
  end.

Definition _check_victory (state : board) (player_marker : Z) : result bool :=
  if existsb (row_wins player_marker) state then Ok true
  else
    c <- any_column state player_marker range3 ;;
    if c then Ok true
    else
      d <- py_all (map (fun i => marked state player_marker (i, i)) range3) ;;
      if d then Ok true
      else
        a <- py_all (map (fun i => marked state player_marker (i, (2 - i)%nat)) range3) ;;
        if a then Ok true else Ok false.

Definition _is_draw (state : board) : bool :=
  forallb (fun row => forallb (fun c => negb (c =? 0)) row) state.

(* make_transition on the object store: [state] is a reference to the
   caller's board; the result carries the store as the call leaves it.
   copy.deepcopy allocates a new object, and the assignment
   new_state[row][col] = ... writes to that new object. *)
Definition make_transition_in (player_idx action_idx : Z) (st : store)
    (state : nat) : store * result (nat * Z * bool) :=
  match st !! state with
  | None => (st, Raise Stuck)
  | Some b =>
      let row := action_idx / 3 in
      let col := action_idx mod 3 in
      if negb ((0 <=? action_idx) && (action_idx <=? 8)) then
        (st, Raise (ValueError ("Invalid action index: " ++ str action_idx
                                 ++ ". Must be between 0 and 8.")%string))
      else
        match cell b (Z.to_nat row) (Z.to_nat col) with
        | Raise e => (st, Raise e)
        | Ok v =>
            if negb (v =? 0) then
              (st, Raise (ValueError ("Invalid action: Cell (" ++ str row ++ ", "
                                       ++ str col ++ ") is already occupied.")%string))
            else
              let new_state := length st in
              let st1 := st ++ [b] in
              let st2 := alter (fun nb => set_cell nb (Z.to_nat row) (Z.to_nat col)
                                            (player_idx + 1)) new_state st1 in
              match st2 !! new_state with
              | None => (st2, Raise Stuck)
              | Some nb =>
                  (st2,
                   won <- _check_victory nb (player_idx + 1) ;;
                   if won then
                     Ok (new_state, if player_idx =? 0 then 1 else -1, true)
                   else if _is_draw nb then Ok (new_state, 0, true)
                   else Ok (new_state, 0, false))
              end
        end
  end.

(* the same call seen as a function on board values *)
Definition make_transition (player_idx action_idx : Z) (state : board)
    : result (board * Z * bool) :=
  match make_transition_in player_idx action_idx [state] 0 with
  | (st', Ok (r, reward, done)) =>
      match st' !! r with
      | Some nb => Ok (nb, reward, done)
      | None => Raise Stuck
      end
  | (_, Raise e) => Raise e
  end.

(* the cell an action index points at *)
Definition target (b : board) (action_idx : Z) : result Z :=
  cell b (Z.to_nat (action_idx / 3)) (Z.to_nat (action_idx mod 3)).

Definition out_of_range_msg (action_idx : Z) : string :=
  ("Invalid action index: " ++ str action_idx ++ ". Must be between 0 and 8.")%string.

Definition occupied_msg (action_idx : Z) : string :=
  ("Invalid action: Cell (" ++ str (action_idx / 3) ++ ", "
     ++ str (action_idx mod 3) ++ ") is already occupied.")%string.

(* a 3x3 grid *)
Definition well_formed (state : board) : Prop :=
  length state = 3%nat /\ Forall (fun r => length r = 3%nat) state.

End TicTacToe.

(* --------------------------------------------------------------------- *)
(*  abstract_game.py                                                      *)
(* --------------------------------------------------------------------- *)

(* The game interface. Rewards are numbers seen from player 0. The
   transition is the deterministic case of the interface. *)
Class TwoPlayerGame (State : Type) : Type := {
  get_initial_state : State;
  get_possible_actions : Z -> State -> result (list Z);
  make_transition : Z -> Z -> State -> result (State * Q * bool)
}.

#[export] Instance TicTacToe_game : TwoPlayerGame TicTacToe.board := {
  get_initial_state := TicTacToe.get_initial_state;
  get_possible_actions := TicTacToe.get_possible_actions;
  make_transition player_idx action_idx state :=
    rbind (TicTacToe.make_transition player_idx action_idx state)
      (fun '(new_state, reward, done) => Ok (new_state, inject_Z reward, done))
}.

(* --------------------------------------------------------------------- *)
(*  MCTS.py: numbers                                                      *)
(* --------------------------------------------------------------------- *)

Definition Qnat (n : nat) : Q := inject_Z (Z.of_nat n).

(* a / n for a Python float a and a Python int n *)
Definition py_div (a : Q) (n : nat) : result Q :=
  if (n =? 0)%nat then Raise ZeroDivisionError else Ok (a / Qnat n)%Q.

(* an entry of the float32 score array: -np.inf, a finite value or
   np.inf; np.nan needs an infinite operand, which a rational is not *)
Inductive score : Type :=
| NegInf
| Fin (q : Q)
| PosInf.

(* a <= b on entries of the array *)
Definition score_leb (a b : score) : bool :=
  match a, b with
  | NegInf, _ => true
  | _, PosInf => true
  | Fin x, Fin y => Qle_bool x y
  | _, _ => false
  end.

(* a == b on entries of the array *)
Definition score_eqb (a b : score) : bool :=
  match a, b with
  | NegInf, NegInf => true
  | Fin x, Fin y => Qeq_bool x y
  | PosInf, PosInf => true
  | _, _ => false
  end.

Definition score_min (a b : score) : score :=
  if score_leb a b then a else b.

(* action_scores.min() *)
Definition array_min (l : list score) : result score :=
  match l with
  | [] => Raise (ValueError
            "zero-size array to reduction operation minimum which has no identity")
  | x :: t => Ok (fold_left score_min t x)
  end.

(* np.where(action_scores == m)[0]: the positions that hold m, in order *)
Fixpoint where_eq (l : list score) (m : score) (i : nat) : list nat :=
  match l with
  | [] => []
  | x :: t => if score_eqb x m then i :: where_eq t m (S i) else where_eq t m (S i)
  end.

(* scores.argmin() scanning t from position i, with the best so far *)
Fixpoint argmin_from (t : list Q) (i best_idx : nat) (best : Q) : nat :=
  match t with
  | [] => best_idx
  | x :: t' =>
      if Qle_bool best x then argmin_from t' (S i) best_idx best
      else argmin_from t' (S i) i x
  end.

(* scores.argmin(): the first position of the least entry *)
Definition argmin (l : list Q) : result nat :=
  match l with
  | [] => Raise (ValueError "attempt to get argmin of an empty sequence")
  | x :: t => Ok (argmin_from t 1 0 x)
  end.

(* [f(x) for x in l]: the first element that raises ends the loop *)
Fixpoint comprehension {A B} (f : A -> result B) (l : list A) : result (list B) :=
  match l with
  | [] => Ok []
  | x :: t =>
      rbind (f x) (fun y => rbind (comprehension f t) (fun ys => Ok (y :: ys)))
  end.

(* --------------------------------------------------------------------- *)
(*  MCTS.py: nodes and the arena                                          *)
(* --------------------------------------------------------------------- *)

Record MCTSNode (State : Type) : Type := mkNode {
  state : State;
  player_to_move : Z;
  accumulated_value : Q;
  n_visits : nat;
  actions : list Z;
  children_nodes : list nat;
  parent : option nat;
  terminal : bool;
  terminal_reward : Q
}.
Arguments mkNode {State}.
Arguments state {State}.
Arguments player_to_move {State}.
Arguments accumulated_value {State}.
Arguments n_visits {State}.
Arguments actions {State}.
Arguments children_nodes {State}.
Arguments parent {State}.
Arguments terminal {State}.
Arguments terminal_reward {State}.

(* MCTSNode(state=..., player_to_move=..., parent=..., terminal=...,
   terminal_reward=...) with the dataclass defaults for the rest *)
Definition new_MCTSNode {State} (s : State) (p : Z) (par : option nat)
    (term : bool) (tr : Q) : MCTSNode State :=
  mkNode s p 0%Q 0%nat [] [] par term tr.

(* the tree under construction and the position in the random stream *)
Record world (State : Type) : Type := mkWorld {
  heap : list (MCTSNode State);
  rng : nat
}.
Arguments mkWorld {State}.
Arguments heap {State}.
Arguments rng {State}.

(* computations that read and write the world and may raise *)
Definition M (State A : Type) : Type := world State -> result (A * world State).

Definition ret {State A} (a : A) : M State A := fun w => Ok (a, w).

Definition bind {State A B} (m : M State A) (k : A -> M State B) : M State B :=
  fun w =>
    match m w with
    | Ok (a, w') => k a w'
    | Raise e => Raise e
    end.

Definition raise {State A} (e : exn) : M State A := fun _ => Raise e.

Definition lift {State A} (r : result A) : M State A :=
  fun w =>
    match r with
    | Ok a => Ok (a, w)
    | Raise e => Raise e
    end.

Declare Scope mcts_scope.
Delimit Scope mcts_scope with mcts.
Notation "x <~ e ;; k" := (bind e (fun x => k))
  (at level 100, e at next level, right associativity) : mcts_scope.

Definition get_node {State} (i : nat) : M State (MCTSNode State) :=
  fun w =>
    match heap w !! i with
    | Some n => Ok (n, w)
    | None => Raise Stuck
    end.

Definition set_node {State} (i : nat) (n : MCTSNode State) : M State unit :=
  fun w => Ok (tt, mkWorld (<[i := n]> (heap w)) (rng w)).

(* a new object gets the next free id *)
Definition alloc {State} (n : MCTSNode State) : M State nat :=
  fun w => Ok (length (heap w), mkWorld (heap w ++ [n]) (rng w)).

Definition heap_size {State} : M State nat :=
  fun w => Ok (length (heap w), w).

(* --------------------------------------------------------------------- *)
(*  MCTS.py: TwoPlayerMCTS                                                *)
(* --------------------------------------------------------------------- *)

Inductive warning : Type :=
| UserWarning (msg : string).

(* np.isclose(a, b) with numpy's default tolerances *)
Definition np_isclose (a b : Q) : bool :=
  Qle_bool (Qabs (a - b)) ((1 # 100000000) + (1 # 100000) * Qabs b)%Q.

(* the fields that __init__ stores *)
Record TwoPlayerMCTS (State : Type) : Type := mkEngine {
  game : TwoPlayerGame State;
  exploration_coef : Q
}.
Arguments mkEngine {State}.
Arguments game {State}.
Arguments exploration_coef {State}.

(* __init__: the warnings emitted, and the engine or the exception *)
Definition init {State} (g : TwoPlayerGame State) (c : Q)
    : list warning * result (TwoPlayerMCTS State) :=
  if negb (Qle_bool 0 c) then
    ([], Raise (ValueError "exploration_coef must be greater than 0"))
  else if np_isclose c 0 then
    ([UserWarning "exploration_coef is set to 0"], Ok (mkEngine g c))
  else
    ([], Ok (mkEngine g c)).

Definition change_player_idx (player_idx : Z) : Z := 1 - player_idx.

(* the message of the assertion in rollout *)
Definition no_action_msg : string :=
  "Rollout: got no possible action in non-terminal state".

Section Engine.
Local Open Scope mcts_scope.

Context {State : Type}.
Variable self : TwoPlayerMCTS State.

(* np.sqrt and np.log *)
Variables np_sqrt np_log : Q -> Q.

(* the store of a value into the float32 array action_scores: the value
   as a float32, or an infinity when it is beyond the float32 range *)
Variable float32 : Q -> score.

(* the raw draws of the random generator *)
Variable draw : nat -> nat.

Local Abbreviation node := (MCTSNode State).
Local Abbreviation Mc := (M State).

(* np.random.choice(l): one draw, reduced to a position of l *)
Definition choice {A} (l : list A) : Mc A :=
  fun w =>
    match l !! (draw (rng w) mod length l)%nat with
    | Some x => Ok (x, mkWorld (heap w) (S (rng w)))
    | None => Raise (ValueError "'a' cannot be empty unless no samples are taken")
    end.

(* the entry of action_scores for one child of a node visited N times *)
Definition ucb_score (N : nat) (child : node) : score :=
  if negb (n_visits child =? 0)%nat then
    let state_action_value := (accumulated_value child / Qnat (n_visits child))%Q in
    let exploration_bonus :=
      (exploration_coef self * np_sqrt (np_log (Qnat N) / Qnat (n_visits child)))%Q in
    float32 (state_action_value - exploration_bonus)%Q
  else
    NegInf.

(* the loop that fills action_scores *)
Fixpoint fill_scores (N : nat) (children : list nat) : Mc (list score) :=
  match children with
  | [] => ret []
  | c :: rest =>
      child <~ get_node c ;;
      scores <~ fill_scores N rest ;;
      ret (ucb_score N child :: scores)
  end.

Definition select_child_node_ucb (nd : node) : Mc nat :=
  if (n_visits nd <=? 0)%nat then
    raise (AssertionError "Parent node n_visits must be > 0.")
  else
    action_scores <~ fill_scores (n_visits nd) (children_nodes nd) ;;
    m <~ lift (array_min action_scores) ;;
    choice (where_eq action_scores m 0).

(* forward pass: while len(node.children_nodes) != 0 *)
Fixpoint descend (gas : nat) (i : nat) (player_idx : Z) : Mc (nat * Z) :=
  match gas with
  | O => raise Stuck
  | S gas' =>
      nd <~ get_node i ;;
      if (length (children_nodes nd) =? 0)%nat then ret (i, player_idx)
      else
        next_node_idx <~ select_child_node_ucb nd ;;
        match children_nodes nd !! next_node_idx with
        | None => raise IndexError
        | Some c => descend gas' c (change_player_idx player_idx)
        end
  end.

(* expansion: for action_idx in possible_actions *)
Fixpoint make_children (i : nat) (s : State) (player_idx : Z)
    (possible_actions : list Z) (children : list nat) (acts : list Z)
    : Mc (list nat * list Z) :=
  match possible_actions with
  | [] => ret (children, acts)
  | action_idx :: rest =>
      t <~ lift (make_transition (TwoPlayerGame := game self)
                   player_idx action_idx s) ;;
      let '(new_state, reward, done) := t in
      c <~ alloc (new_MCTSNode new_state (change_player_idx player_idx) (Some i)
                    done (if done then reward else 0%Q)) ;;
      make_children i s player_idx rest (children ++ [c]) (acts ++ [action_idx])
  end.

Definition expand (i : nat) (nd : node) (player_idx : Z) : Mc nat :=
  possible_actions <~ lift (get_possible_actions (TwoPlayerGame := game self)
                              player_idx (state nd)) ;;
  ca <~ make_children i (state nd) player_idx possible_actions [] [] ;;
  let '(children, acts) := ca in
  _ <~ set_node i (mkNode (state nd) (player_to_move nd) (accumulated_value nd)
                     (n_visits nd) acts children (parent nd) (terminal nd)
                     (terminal_reward nd)) ;;
  choice children.

(* one playout: while not game_finished *)
Fixpoint playout (fuel : nat) (pid : Z) (s : State) : Mc Q :=
  match fuel with
  | O => raise OutOfFuel
  | S fuel' =>
      possible_actions <~ lift (get_possible_actions (TwoPlayerGame := game self)
                                  pid s) ;;
      match possible_actions with
      | [] => raise (AssertionError no_action_msg)
      | _ =>
          random_action <~ choice possible_actions ;;
          t <~ lift (make_transition (TwoPlayerGame := game self)
                       pid random_action s) ;;
          let '(s', reward, done) := t in
          if done then ret reward
          else playout fuel' (change_player_idx pid) s'
      end
  end.

(* for _ in range(n_rollout_simulations) *)
Fixpoint simulations (fuel : nat) (nd : node) (k : nat) (total_reward : Q)
    : Mc Q :=
  match k with
  | O => ret total_reward
  | S k' =>
      reward <~ playout fuel (player_to_move nd) (state nd) ;;
      simulations fuel nd k' (total_reward + reward)%Q
  end.

Definition rollout (fuel : nat) (nd : node) (n_rollout_simulations : nat) : Mc Q :=
  total_reward <~ simulations fuel nd n_rollout_simulations 0%Q ;;
  lift (py_div total_reward n_rollout_simulations).

(* the update of one node in the backprop loop *)
Definition visit (rollout_reward : Q) (nd : node) : node :=
  mkNode (state nd) (player_to_move nd)
    (if player_to_move nd =? 0 then (accumulated_value nd + rollout_reward)%Q
     else (accumulated_value nd - rollout_reward)%Q)
    (n_visits nd + 1)%nat
    (actions nd) (children_nodes nd) (parent nd) (terminal nd) (terminal_reward nd).

(* backprop: while node is not None *)
Fixpoint backprop (gas : nat) (cur : option nat) (rollout_reward : Q) : Mc unit :=
  match cur with
  | None => ret tt
  | Some i =>
      match gas with
      | O => raise Stuck
      | S gas' =>
          nd <~ get_node i ;;
          _ <~ set_node i (visit rollout_reward nd) ;;
          backprop gas' (parent nd) rollout_reward
      end
  end.

(* the expansion step of one iteration: the node to roll out *)
Definition expansion (i : nat) (player_idx : Z) : Mc nat :=
  nd <~ get_node i ;;
  if negb (terminal nd) then expand i nd player_idx else ret i.

(* the rollout step of one iteration: the value to propagate *)
Definition evaluation (fuel : nat) (node_to_rollout : nat)
    (n_rollout_simulations : nat) : Mc Q :=
  nd <~ get_node node_to_rollout ;;
  if negb (terminal nd) then rollout fuel nd n_rollout_simulations
  else ret (terminal_reward nd).

(* the body of for _ in range(n_tree_iterations), with the root at id 0 *)
Definition iteration (fuel : nat) (player_idx_to_move : Z)
    (n_rollout_simulations : nat) : Mc unit :=
  size <~ heap_size ;;
  np <~ descend size 0%nat player_idx_to_move ;;
  let '(i, player_idx) := np in
  node_to_rollout <~ expansion i player_idx ;;
  rollout_reward <~ evaluation fuel node_to_rollout n_rollout_simulations ;;
  size' <~ heap_size ;;
  backprop size' (Some node_to_rollout) rollout_reward.

Fixpoint iterations (fuel : nat) (player_idx_to_move : Z)
    (n_rollout_simulations : nat) (n_tree_iterations : nat) : Mc unit :=
  match n_tree_iterations with
  | O => ret tt
  | S k =>
      _ <~ iterations fuel player_idx_to_move n_rollout_simulations k ;;
      iteration fuel player_idx_to_move n_rollout_simulations
  end.

(* run: the tree it returns, as the arena whose node 0 is the root,
   with the random stream read from position seed; the two budgets are
   counts, natural numbers here *)
Definition run (fuel : nat) (s : State) (player_idx_to_move : Z)
    (n_tree_iterations n_rollout_simulations : nat) (seed : nat)
    : result (world State) :=
  match iterations fuel player_idx_to_move n_rollout_simulations
          n_tree_iterations
          (mkWorld [new_MCTSNode s player_idx_to_move None false 0%Q] seed) with
  | Ok (_, w) => Ok w
  | Raise e => Raise e
  end.

(* the list comprehension over root.children_nodes in get_best_action *)
Definition child_ratio (h : list node) (c : nat) : result Q :=
  match h !! c with
  | None => Raise Stuck
  | Some child => py_div (accumulated_value child) (n_visits child)
  end.

(* get_best_action with dump_tree_to_file=False *)
Definition get_best_action (fuel : nat) (s : State) (player_idx : Z)
    (n_tree_iterations n_rollout_simulations : nat) (seed : nat) : result Z :=
  rbind (run fuel s player_idx n_tree_iterations n_rollout_simulations seed)
    (fun w =>
       match heap w !! 0%nat with
       | None => Raise Stuck
       | Some root =>
           rbind (comprehension (child_ratio (heap w)) (children_nodes root))
             (fun scores =>
                rbind (argmin scores)
                  (fun best_idx =>
                     match actions root !! best_idx with
                     | Some a => Ok a
                     | None => Raise IndexError
                     end))
       end).

End Engine.

(* --------------------------------------------------------------------- *)
(*  The shape of the tree in the arena                                    *)
(* --------------------------------------------------------------------- *)

Section TreeShape.
Context {State : Type}.
Local Abbreviation node := (MCTSNode State).

(* the ids met by following parent links from x, x first, at most gas of
   them *)
Fixpoint chain (h : list node) (gas x : nat) : list nat :=
  match gas with
  | O => []
  | S gas' =>
      x :: match h !! x with
           | Some nd =>
               match parent nd with
               | Some p => chain h gas' p
               | None => []
               end
           | None => []
           end
  end.

(* the path from x up to the root *)
Definition path_to_root (h : list node) (x : nat) : list nat :=
  chain h (length h) x.

(* n_visits of the node with id c *)
Definition visits (h : list node) (c : nat) : nat :=
  match h !! c with
  | Some nd => n_visits nd
  | None => 0%nat
  end.

(* how many of the ids cs name a node that was visited *)
Fixpoint count_visited (h : list node) (cs : list nat) : nat :=
  match cs with
  | [] => 0%nat
  | c :: t => ((if (0 <? visits h c)%nat then 1 else 0) + count_visited h t)%nat
  end.

(* every parent link points at a smaller id *)
Definition parents_below (h : list node) : Prop :=
  forall i nd p, h !! i = Some nd -> parent nd = Some p -> (p < i)%nat.

(* h' is h after one visit with value v of each node whose id is in ids *)
Definition visited_along (v : Q) (ids : list nat) (h h' : list node) : Prop :=
  length h' = length h
  /\ forall i, h' !! i = if decide (i ∈ ids) then visit v <$> h !! i else h !! i.

(* a node as expansion under node i creates it, player_idx being the
   mover at i *)
Definition fresh_child (i : nat) (player_idx : Z) (n : node) : Prop :=
  parent n = Some i /\ n_visits n = 0%nat /\ children_nodes n = []
  /\ accumulated_value n = 0%Q
  /\ player_to_move n = change_player_idx player_idx
  /\ actions n = [].

(* node nd with the children and actions that expansion attaches *)
Definition with_children (nd : node) (children : list nat) (acts : list Z)
    : node :=
  mkNode (state nd) (player_to_move nd) (accumulated_value nd) (n_visits nd)
    acts children (parent nd) (terminal nd) (terminal_reward nd).

(* the arena after node i = nd was expanded with the new nodes news *)
Definition expanded (h : list node) (i : nat) (nd : node) (news : list node)
    (acts : list Z) : list node :=
  <[i := with_children nd (seq (length h) (length news)) acts]> (h ++ news).

(* the arena is a tree rooted at id 0 whose statistics are consistent *)
Record tree_inv (h : list node) : Prop := {
  inv_root : exists r,
    h !! 0%nat = Some r /\ parent r = None /\ terminal r = false;
  inv_parent : forall i nd p,
    h !! i = Some nd -> parent nd = Some p ->
    (p < i)%nat /\ exists pn, h !! p = Some pn /\ (n_visits nd <= n_visits pn)%nat;
  inv_orphan : forall i nd,
    h !! i = Some nd -> parent nd = None -> i = 0%nat;
  inv_children : forall i nd c,
    h !! i = Some nd -> c ∈ children_nodes nd ->
    exists cn, h !! c = Some cn /\ parent cn = Some i;
  inv_nodup : forall i nd,
    h !! i = Some nd -> NoDup (children_nodes nd);
  inv_terminal : forall i nd,
    h !! i = Some nd -> terminal nd = true -> children_nodes nd = [];
  inv_count : forall i nd,
    h !! i = Some nd -> (count_visited h (children_nodes nd) <= n_visits nd)%nat;
  inv_player : forall i nd p pn,
    h !! i = Some nd -> parent nd = Some p -> h !! p = Some pn ->
    player_to_move nd = change_player_idx (player_to_move pn);
  inv_actions : forall i nd,
    h !! i = Some nd -> length (actions nd) = length (children_nodes nd)
}.

(* what never changes in a node once it is created, and its children
   and actions once it has some *)
Definition same_identity (n n' : node) : Prop :=
  state n' = state n /\ player_to_move n' = player_to_move n
  /\ parent n' = parent n /\ terminal n' = terminal n
  /\ terminal_reward n' = terminal_reward n
  /\ (children_nodes n <> [] ->
      children_nodes n' = children_nodes n /\ actions n' = actions n).

(* every node of h is still in h', with the same identity *)
Definition grows (h h' : list node) : Prop :=
  forall j n, h !! j = Some n -> exists n', h' !! j = Some n' /\ same_identity n n'.

(* the game does not report the model's own error *)
Definition game_never_stuck (g : TwoPlayerGame State) : Prop :=
  (forall p s, get_possible_actions (TwoPlayerGame := g) p s <> Raise Stuck)
  /\ (forall p a s, make_transition (TwoPlayerGame := g) p a s <> Raise Stuck).

End TreeShape.

(* --------------------------------------------------------------------- *)
(*  A concrete engine for the examples                                    *)
(* --------------------------------------------------------------------- *)

Definition ttt_engine : TwoPlayerMCTS TicTacToe.board :=
  mkEngine TicTacToe_game 1%Q.

(* rational stand-ins for np.sqrt and np.log, three decimals *)
Definition sqrt_approx (q : Q) : Q :=
  (Z.sqrt (Qnum q * 1000000 / Zpos (Qden q)) # 1000)%Q.

Definition log_approx (q : Q) : Q :=
  (Z.log2 (Qnum q / Zpos (Qden q)) * 693 # 1000)%Q.

(* a store that keeps every value as it is: no rounding, no overflow *)
Definition float32_exact (q : Q) : score := Fin (Qred q).

(* 2^e for an integer e of either sign *)
Definition pow2 (e : Z) : Q := (2 ^ e)%Q.

(* the e with 2^e <= a < 2^(e+1), for a positive a *)
Definition binade (a : Q) : Z :=
  let e0 := Z.log2 (Qnum a) - Z.log2 (Zpos (Qden a)) in
  if Qle_bool (pow2 e0) a then e0 else e0 - 1.

(* the integer nearest to x, the even one of two that are equally near *)
Definition round_half_even (x : Q) : Z :=
  let f := Qfloor x in
  match (x - inject_Z f ?= 1 # 2)%Q with
  | Lt => f
  | Gt => f + 1
  | Eq => if Z.even f then f else f + 1
  end.

(* the store of IEEE 754 single precision: the float32 nearest to q (24
   bits of precision, exponents from -126, ties to even), and the
   infinity of its sign when that is 2^128 or more in magnitude *)
Definition float32_nearest (q : Q) : score :=
  if Qeq_bool q 0 then Fin 0
  else
    let a := Qabs q in
    let e := Z.max (binade a) (-126) in
    let ulp := pow2 (e - 23) in
    let r := (inject_Z (round_half_even (a / ulp)) * ulp)%Q in
    if Qle_bool (pow2 128) r then (if Qle_bool 0 q then PosInf else NegInf)
    else Fin (Qred (if Qle_bool 0 q then r else - r)).

(* a stream of raw draws *)
Definition lcg (k : nat) : nat := ((k * 7 + 3) mod 11)%nat.

Definition ttt_run : nat -> TicTacToe.board -> Z -> nat -> nat -> nat
    -> result (world TicTacToe.board) :=
  run ttt_engine sqrt_approx log_approx float32_exact lcg.

Definition ttt_best_action : nat -> TicTacToe.board -> Z -> nat -> nat -> nat
    -> result Z :=
  get_best_action ttt_engine sqrt_approx log_approx float32_exact lcg.

(* a board without empty cells and without a winner *)
Definition full_board : TicTacToe.board :=
  [[1; 2; 1]; [1; 2; 2]; [2; 1; 1]].

(* the tree of a search with three iterations on the empty board *)
Definition example_tree : list (MCTSNode TicTacToe.board) :=
  match ttt_run 20 TicTacToe.get_initial_state 0 3 2 0 with
  | Ok w => heap w
  | Raise _ => []
  end.

Definition example_root : MCTSNode TicTacToe.board :=
  default (new_MCTSNode TicTacToe.get_initial_state 0 None false 0%Q)
    (example_tree !! 0%nat).

Definition example_kids : list (MCTSNode TicTacToe.board) :=
  omap (fun c => example_tree !! c) (children_nodes example_root).

(* one empty cell left; filling it ends the game in a draw *)
Definition endgame_board : TicTacToe.board :=
  [[1; 2; 1]; [1; 2; 2]; [2; 1; 0]].

(* --------------------------------------------------------------------- *)
(*  Statistics and edges of the tree                                      *)
(* --------------------------------------------------------------------- *)

Section TreeStats.
Context {State : Type}.
Variable self : TwoPlayerMCTS State.
Local Abbreviation node := (MCTSNode State).

(* the sum of n_visits over the ids cs *)
Fixpoint sum_visits (h : list node) (cs : list nat) : nat :=
  match cs with
  | [] => 0%nat
  | c :: t => (visits h c + sum_visits h t)%nat
  end.



(* node n is what expansion of nd creates for the action a *)
Definition edge_of (nd : node) (a : Z) (n : node) : Prop :=
  exists s' r d,
    make_transition (TwoPlayerGame := game self)
      (player_to_move nd) a (state nd) = Ok (s', r, d)
    /\ state n = s' /\ terminal n = d
    /\ terminal_reward n = (if d then r else 0%Q).

(* the expansion step of an iteration at the leaf j = ndj of the arena h:
   the node x handed to the evaluation and the arena h2 after the step *)
Definition expansion_step (h : list node) (j : nat) (ndj : node) (x : nat)
    (h2 : list node) : Prop :=
  (terminal ndj = true /\ x = j /\ h2 = h)
  \/ (terminal ndj = false
      /\ exists news acts,
           get_possible_actions (TwoPlayerGame := game self)
             (player_to_move ndj) (state ndj) = Ok acts
           /\ h2 = expanded h j ndj news acts
           /\ length news = length acts
           /\ Forall (fresh_child j (player_to_move ndj)) news
           /\ x ∈ seq (length h) (length news)
           /\ Forall2 (edge_of ndj) acts news).

(* the counters of the tree are consistent *)
Record stats_inv (h : list node) : Prop := {
  st_expanded : forall i nd,
    h !! i = Some nd -> children_nodes nd <> [] -> (0 < n_visits nd)%nat;
  st_zero : forall i nd,
    h !! i = Some nd -> n_visits nd = 0%nat -> accumulated_value nd = 0%Q;
  st_listed : forall i nd p,
    h !! i = Some nd -> parent nd = Some p ->
    exists pn, h !! p = Some pn /\ i ∈ children_nodes pn;
  st_sum : forall i nd,
    h !! i = Some nd -> terminal nd = false ->
    (sum_visits h (children_nodes nd) <= n_visits nd
     <= sum_visits h (children_nodes nd) + 1)%nat;
  st_root : forall r,
    h !! 0%nat = Some r -> n_visits r = sum_visits h (children_nodes r)
}.

(* every expanded node lists the legal actions of its state, and its
   children are the results of these actions *)
Definition edges_inv (h : list node) : Prop :=
  forall i nd,
    h !! i = Some nd -> children_nodes nd <> [] ->
    get_possible_actions (TwoPlayerGame := game self)
      (player_to_move nd) (state nd) = Ok (actions nd)
    /\ Forall2 (fun a c => exists cn, h !! c = Some cn /\ edge_of nd a cn)
         (actions nd) (children_nodes nd).

(* the arena h' continues the arena h: no node is lost, every node keeps
   its identity, and no visit count goes down *)
Definition extends (h h' : list node) : Prop :=
  (length h <= length h')%nat
  /\ forall j n, h !! j = Some n ->
       exists n', h' !! j = Some n' /\ same_identity n n'
                  /\ (n_visits n <= n_visits n')%nat.


End TreeStats.

(* --------------------------------------------------------------------- *)
(*  Reference descriptions of the example game, for the statements        *)
(* --------------------------------------------------------------------- *)

Module TicTacToeSpec.
Import TicTacToe.

Definition all_cells : list Z := [0; 1; 2; 3; 4; 5; 6; 7; 8].

(* the cell that action index a points at holds 0 *)
Definition is_empty_at (b : board) (a : Z) : bool :=
  match target b a with
  | Ok v => v =? 0
  | Raise _ => false
  end.

(* the action indices of the empty cells, in increasing order *)
Definition empty_cells (b : board) : list Z :=
  List.filter (is_empty_at b) all_cells.

(* the cell at (row, col) holds the marker m *)
Definition holds (b : board) (m : Z) (rc : nat * nat) : bool :=
  match cell b (fst rc) (snd rc) with
  | Ok v => v =? m
  | Raise _ => false
  end.

(* the eight lines of the grid: rows, columns, diagonals *)
Definition lines : list (list (nat * nat)) :=
  [ [(0, 0); (0, 1); (0, 2)]; [(1, 0); (1, 1); (1, 2)]; [(2, 0); (2, 1); (2, 2)];
    [(0, 0); (1, 0); (2, 0)]; [(0, 1); (1, 1); (2, 1)]; [(0, 2); (1, 2); (2, 2)];
    [(0, 0); (1, 1); (2, 2)]; [(0, 2); (1, 1); (2, 0)] ]%nat.

(* some line is filled with the marker m *)
Definition wins (b : board) (m : Z) : bool :=
  existsb (forallb (holds b m)) lines.

(* the board with marker m written at action index a *)
Definition place (b : board) (a m : Z) : board :=
  set_cell b (Z.to_nat (a / 3)) (Z.to_nat (a mod 3)) m.

(* no cell of the board holds 0 *)
Definition full (b : board) : bool :=
  forallb (fun a => negb (is_empty_at b a)) all_cells.

End TicTacToeSpec.

(* --------------------------------------------------------------------- *)
(*  tic_tac_toe.py on row objects                                         *)
(* --------------------------------------------------------------------- *)

(* A state is a list whose elements are row objects, and two positions
   of a state can hold the same row object. Here the row objects live
   in a store and a state is the list of the ids of its rows. Reading a
   state sees the values of its rows; copy.deepcopy and the assignment
   new_state[row][col] = ... see the objects. *)
Module TicTacToeObjects.
Import TicTacToe.
Local Open Scope result_scope.

(* get_initial_state: three new row objects *)
Definition get_initial_state (rs : list (list Z))
    : list (list Z) * list nat :=
  (rs ++ [[0; 0; 0]; [0; 0; 0]; [0; 0; 0]],
   [length rs; S (length rs); S (S (length rs))]).

(* the rows of a state as values: what reading state[r][c] sees *)
Fixpoint view (rs : list (list Z)) (state : list nat) : result board :=
  match state with
  | [] => Ok []
  | id :: rest =>
      match rs !! id with
      | None => Raise Stuck
      | Some r => b <- view rs rest ;; Ok (r :: b)
      end
  end.

(* the memo of copy.deepcopy: the copy made for an object *)
Fixpoint memo_get (memo : list (nat * nat)) (id : nat) : option nat :=
  match memo with
  | [] => None
  | (k, v) :: t => if (k =? id)%nat then Some v else memo_get t id
  end.

(* copy.deepcopy on the elements of the outer list: a row object is
   copied at its first occurrence, and that copy is used again at every
   later occurrence of the same object; the cells are ints and are not
   copied *)
Fixpoint deepcopy_rows (rs : list (list Z)) (todo : list nat)
    (memo : list (nat * nat)) (copy : list nat)
    : result (list (list Z) * list nat) :=
  match todo with
  | [] => Ok (rs, copy)
  | id :: rest =>
      match memo_get memo id with
      | Some id' => deepcopy_rows rs rest memo (copy ++ [id'])
      | None =>
          match rs !! id with
          | None => Raise Stuck
          | Some r =>
              deepcopy_rows (rs ++ [r]) rest ((id, length rs) :: memo)
                (copy ++ [length rs])
          end
      end
  end.

(* copy.deepcopy(state): a new outer list over the copied rows *)
Definition deepcopy (rs : list (list Z)) (state : list nat)
    : result (list (list Z) * list nat) :=
  deepcopy_rows rs state [] [].

(* new_state[row][col] = v: the row object at position row is changed,
   and with it every position of the state that holds this object *)
Definition set_cell_at (rs : list (list Z)) (state : list nat) (row col : nat)
    (v : Z) : list (list Z) :=
  match state !! row with
  | None => rs
  | Some id => alter (fun r => <[col := v]> r) id rs
  end.

(* make_transition on the row store: the store as the call leaves it and
   the reference to the new state, the reward and done, or the
   exception *)
Definition make_transition (player_idx action_idx : Z) (rs : list (list Z))
    (state : list nat) : list (list Z) * result (list nat * Z * bool) :=
  let row := action_idx / 3 in
  let col := action_idx mod 3 in
  if negb ((0 <=? action_idx) && (action_idx <=? 8)) then
    (rs, Raise (ValueError (out_of_range_msg action_idx)))
  else
    match (b <- view rs state ;; cell b (Z.to_nat row) (Z.to_nat col)) with
    | Raise e => (rs, Raise e)
    | Ok v =>
        if negb (v =? 0) then
          (rs, Raise (ValueError (occupied_msg action_idx)))
        else
          match deepcopy rs state with
          | Raise e => (rs, Raise e)
          | Ok (rs1, new_state) =>
              let rs2 := set_cell_at rs1 new_state (Z.to_nat row)
                           (Z.to_nat col) (player_idx + 1) in
              (rs2,
               nb <- view rs2 new_state ;;
               won <- _check_victory nb (player_idx + 1) ;;
               if won then
                 Ok (new_state, if player_idx =? 0 then 1 else -1, true)
               else if _is_draw nb then Ok (new_state, 0, true)
               else Ok (new_state, 0, false))
          end
    end.

(* the rows of the new state in terms of the old ones: position k holds
   the written row when it held the same object as position row *)
Definition written (state : list nat) (row col : nat) (v : Z) (b : board)
    : board :=
  imap (fun k r => if decide (state !! k = state !! row)
                   then <[col := v]> r else r) b.

(* the action a' points into the chosen column of a row that is the
   same object as the row of the action a *)
Definition aliased (state : list nat) (a a' : Z) : bool :=
  (a' mod 3 =? a mod 3)
  && bool_decide (state !! Z.to_nat (a' / 3) = state !! Z.to_nat (a / 3)).

(* what the memo holds while deepcopy works on the store rs0 *)
Definition memo_ok (rs0 rs : list (list Z)) (memo : list (nat * nat)) : Prop :=
  (exists ext, rs = rs0 ++ ext)
  /\ (forall id id', memo_get memo id = Some id' ->
        (id < length rs0 /\ length rs0 <= id' < length rs)%nat
        /\ rs !! id' = rs0 !! id)
  /\ (forall id1 id2 id', memo_get memo id1 = Some id' ->
        memo_get memo id2 = Some id' -> id1 = id2).

End TicTacToeObjects.

(* --------------------------------------------------------------------- *)
(*  The exceptions of the search                                          *)
(* --------------------------------------------------------------------- *)

Section SearchErrors.
Context {State : Type}.
Variable self : TwoPlayerMCTS State.


End SearchErrors.

(* --------------------------------------------------------------------- *)
(*  Search trees of the example game                                      *)
(* --------------------------------------------------------------------- *)

(* what holds of every node of a search tree of the example game *)
Definition ttt_node_ok (nd : MCTSNode TicTacToe.board) : Prop :=
  TicTacToe.well_formed (state nd)
  /\ (player_to_move nd = 0 \/ player_to_move nd = 1)
  /\ (terminal nd = false -> TicTacToeSpec.empty_cells (state nd) <> [])
  /\ (-1 <= terminal_reward nd <= 1)%Q
  /\ (- Qnat (n_visits nd) <= accumulated_value nd <= Qnat (n_visits nd))%Q.

Definition ttt_inv (h : list (MCTSNode TicTacToe.board)) : Prop :=
  forall i nd, h !! i = Some nd -> ttt_node_ok nd.



(* the search of example_tree, with the position of the random stream *)
Definition example_world : world TicTacToe.board :=
  match ttt_run 20 TicTacToe.get_initial_state 0 3 2 0 with
  | Ok w => w
  | Raise _ => mkWorld [] 0
  end.

(* an engine whose exploration bonus leaves the float32 range: 1e39 *)
Definition overflow_coef : Q := inject_Z (10 ^ 39).

Definition overflow_engine : TwoPlayerMCTS TicTacToe.board :=
  mkEngine TicTacToe_game overflow_coef.

(* three empty cells, player 1 to move *)
Definition overflow_board : TicTacToe.board :=
  [[1; 2; 1]; [2; 1; 2]; [0; 0; 0]].



(* two empty cells, player 1 to move: cell 6 leads to a draw, cell 8
   lets player 0 win with cell 6 *)
Definition two_left_board : TicTacToe.board :=
  [[1; 2; 1]; [1; 2; 2]; [0; 1; 0]].

(* a board in the middle of a game; as a store, its rows are the
   objects 0, 1 and 2 *)
Definition midgame_board : TicTacToe.board :=
  [[1; 2; 0]; [0; 1; 0]; [0; 0; 0]].

(* the store after player 1 has moved to cell 5 on that board: the rows
   of the new board are the objects 3, 4 and 5 *)
Definition midgame_moved : list (list Z) :=
  midgame_board ++ [[1; 2; 0]; [0; 1; 2]; [0; 0; 0]].

(* the first player has filled the top row *)
Definition top_row_board : TicTacToe.board :=
  [[1; 1; 1]; [0; 2; 2]; [0; 0; 0]].

(* --------------------------------------------------------------------- *)
(*  MCTS.py: the picture of a board                                       *)
(* --------------------------------------------------------------------- *)

(* the dict markers = {0: ".", 1: "X", 2: "O"}; None for a missing key *)
Definition markers (cell : Z) : option string :=
  if cell =? 0 then Some "."%string
  else if cell =? 1 then Some "X"%string
  else if cell =? 2 then Some "O"%string
  else None.

(* a string, or the KeyError of markers[cell] with its key *)
Inductive rendering : Type :=
| Text (s : string)
| KeyError (cell : Z).

(* the generator markers[cell] for cell in row, consumed by join: the
   first missing key ends it *)
Fixpoint row_markers (row : list Z) : list string + Z :=
  match row with
  | [] => inl []
  | cell :: rest =>
      match markers cell with
      | None => inr cell
      | Some m =>
          match row_markers rest with
          | inl ms => inl (m :: ms)
          | inr k => inr k
          end
      end
  end.

(* for row in state: rows.append(" ".join(...)) *)
Fixpoint board_rows (state : list (list Z)) (rows : list string)
    : list string + Z :=
  match state with
  | [] => inl rows
  | row :: rest =>
      match row_markers row with
      | inl ms => board_rows rest (rows ++ [String.concat " " ms])
      | inr k => inr k
      end
  end.

Definition newline : string := String "010"%char EmptyString.

Definition ascii_tictactoe_board (state : list (list Z)) : rendering :=
  match board_rows state [] with
  | inl rows => Text (String.concat newline rows)
  | inr k => KeyError k
  end.

(* --------------------------------------------------------------------- *)
(*  The scores of the selection                                           *)
(* --------------------------------------------------------------------- *)

Section SelectionScores.
Context {State : Type}.
Variable self : TwoPlayerMCTS State.
Variables np_sqrt np_log : Q -> Q.
Variable float32 : Q -> score.
Local Abbreviation node := (MCTSNode State).


(* no score stored for a visited child of the root of h is -inf: the
   float32 store did not overflow downwards there *)
Definition root_scores_above_sentinel (h : list node) : Prop :=
  forall r c k,
    h !! 0%nat = Some r -> c ∈ children_nodes r -> h !! c = Some k ->
    n_visits k <> 0%nat ->
    ucb_score self np_sqrt np_log float32 (n_visits r) k <> NegInf.

End SelectionScores.

(* ===================================================================== *)
(*  Properties                                                            *)
(* ===================================================================== *)

(* --------------------------------------------------------------------- *)
(*  The example game                                                      *)
(* --------------------------------------------------------------------- *)

Module TicTacToeFacts.
Import TicTacToe.

Example row_victory :
  make_transition 0 2 [[1;1;0];[2;2;0];[0;0;0]]
  = Ok ([[1;1;1];[2;2;0];[0;0;0]], 1, true).
Proof. reflexivity. Qed.

Example draw_condition :
  make_transition 0 8 [[1;2;1];[2;2;2];[2;1;0]]
  = Ok ([[1;2;1];[2;2;2];[2;1;1]], 0, true).
Proof. reflexivity. Qed.

Example game_continues :
  make_transition 1 5 [[1;2;0];[0;1;0];[0;0;0]]
  = Ok ([[1;2;0];[0;1;2];[0;0;0]], 0, false).
Proof. reflexivity. Qed.

Example possible_actions_initial :
  get_possible_actions 0 get_initial_state = Ok [0;1;2;3;4;5;6;7;8].
Proof. reflexivity. Qed.

Lemma in_range_test (a : Z) :
  negb ((0 <=? a) && (a <=? 8)) = false <-> 0 <= a <= 8.
Proof.
  rewrite negb_false_iff, andb_true_iff, !Z.leb_le. tauto.
Qed.

Lemma out_of_range_raises (p a : Z) (st : store) (r : nat) (b : board) :
  st !! r = Some b -> ~ (0 <= a <= 8) ->
  make_transition_in p a st r = (st, Raise (ValueError (out_of_range_msg a))).
Proof.
  intros Hb Hr. unfold make_transition_in. rewrite Hb.
  destruct (negb ((0 <=? a) && (a <=? 8))) eqn:E; [reflexivity|].
  apply in_range_test in E. contradiction.
Qed.

Lemma occupied_raises (p a : Z) (st : store) (r : nat) (b : board) (v : Z) :
  st !! r = Some b -> 0 <= a <= 8 -> target b a = Ok v -> v <> 0 ->
  make_transition_in p a st r = (st, Raise (ValueError (occupied_msg a))).
Proof.
  intros Hb Hr Hc Hv. unfold make_transition_in. rewrite Hb.
  apply in_range_test in Hr. rewrite Hr.
  unfold target in Hc. rewrite Hc.
  destruct (Z.eqb_spec v 0) as [->|_]; [contradiction|reflexivity].
Qed.

(** C9: for every board and every action index that is outside 0..8 or
    that points at an occupied cell, make_transition raises a ValueError
    with the message of that case, and the store of board objects,
    hence the caller's state, is exactly as it was before the call. *)
Theorem make_transition_illegal_action_raises
    (p a : Z) (st : store) (r : nat) (b : board) :
  st !! r = Some b ->
  (~ (0 <= a <= 8) ->
     make_transition_in p a st r = (st, Raise (ValueError (out_of_range_msg a)))
     /\ make_transition p a b = Raise (ValueError (out_of_range_msg a)))
  /\ (forall v, 0 <= a <= 8 -> target b a = Ok v -> v <> 0 ->
     make_transition_in p a st r = (st, Raise (ValueError (occupied_msg a)))
     /\ make_transition p a b = Raise (ValueError (occupied_msg a))).
Proof.
  intros Hb. split.
  - intros Hr. split; [by apply out_of_range_raises with b|].
    unfold make_transition.
    by rewrite (out_of_range_raises p a [b] 0 b).
  - intros v Hr Hc Hv. split; [by apply occupied_raises with b v|].
    unfold make_transition.
    by rewrite (occupied_raises p a [b] 0 b v).
Qed.

Lemma make_transition_illegal_action_raises_witness :
  (make_transition_in 0 9 [get_initial_state] 0
     = ([get_initial_state],
        Raise (ValueError "Invalid action index: 9. Must be between 0 and 8."))
   /\ make_transition 0 9 get_initial_state
     = Raise (ValueError "Invalid action index: 9. Must be between 0 and 8."))
  /\ (make_transition_in 1 0 [[[1;0;0];[0;0;0];[0;0;0]]] 0
     = ([[[1;0;0];[0;0;0];[0;0;0]]],
        Raise (ValueError "Invalid action: Cell (0, 0) is already occupied."))
   /\ make_transition 1 0 [[1;0;0];[0;0;0];[0;0;0]]
     = Raise (ValueError "Invalid action: Cell (0, 0) is already occupied.")).
Proof.
  split.
  - apply (make_transition_illegal_action_raises 0 9 [get_initial_state] 0
             get_initial_state); [reflexivity | lia].
  - apply (make_transition_illegal_action_raises 1 0
             [[[1;0;0];[0;0;0];[0;0;0]]] 0 [[1;0;0];[0;0;0];[0;0;0]] eq_refl)
      with (v := 1); [lia | reflexivity | lia].
Defined.

(* a legal call leaves the caller's board in place as well: the new
   board is a separate object *)
Lemma make_transition_keeps_input (p a : Z) (st : store) (r : nat) (b : board) :
  st !! r = Some b ->
  fst (make_transition_in p a st r) !! r = Some b.
Proof.
  intros Hb. unfold make_transition_in. rewrite Hb.
  destruct (negb _); [done|].
  destruct (cell _ _ _); [|done].
  destruct (negb _); [done|].
  assert (Hlt : (r < length st)%nat) by (eapply lookup_lt_Some; eauto).
  set (st2 := alter _ _ _).
  assert (Hst2 : st2 !! r = Some b).
  { unfold st2. rewrite list_lookup_alter_ne by lia.
    by rewrite lookup_app_l. }
  by destruct (st2 !! length st).
Qed.

End TicTacToeFacts.

(* --------------------------------------------------------------------- *)
(*  Construction of the engine                                            *)
(* --------------------------------------------------------------------- *)

Section Construction.
Context {State : Type} (g : TwoPlayerGame State).

(** C10: constructing the engine with an exploration coefficient below 0
    raises a ValueError and yields no engine; with a coefficient equal to
    0 the engine is constructed and one warning is emitted. *)
Theorem init_checks_exploration_coef (c : Q) :
  ((c < 0)%Q ->
     init g c = ([], Raise (ValueError "exploration_coef must be greater than 0")))
  /\ ((c == 0)%Q ->
     init g c = ([UserWarning "exploration_coef is set to 0"], Ok (mkEngine g c))).
Proof.
  split; intros Hc; unfold init.
  - destruct (Qle_bool 0 c) eqn:E; [|reflexivity].
    apply Qle_bool_iff in E. exfalso. by apply (Qlt_not_le c 0).
  - assert (E : Qle_bool 0 c = true).
    { apply Qle_bool_iff. rewrite Hc. apply Qle_refl. }
    rewrite E. simpl.
    assert (E' : np_isclose c 0 = true).
    { unfold np_isclose. apply Qle_bool_iff. rewrite Hc. by vm_compute. }
    by rewrite E'.
Qed.

End Construction.

Lemma init_checks_exploration_coef_witness :
  init TicTacToe_game (-1 # 2)
    = ([], Raise (ValueError "exploration_coef must be greater than 0"))
  /\ init TicTacToe_game 0
    = ([UserWarning "exploration_coef is set to 0"],
       Ok (mkEngine TicTacToe_game 0%Q)).
Proof.
  split.
  - apply (init_checks_exploration_coef TicTacToe_game (-1 # 2)). reflexivity.
  - apply (init_checks_exploration_coef TicTacToe_game 0). reflexivity.
Defined.

(* --------------------------------------------------------------------- *)
(*  Rollout                                                               *)
(* --------------------------------------------------------------------- *)

Section RolloutFacts.
Local Open Scope mcts_scope.
Context {State : Type}.
Variable self : TwoPlayerMCTS State.
Variable draw : nat -> nat.

Lemma playout_no_actions (fuel : nat) (pid : Z) (s : State) (w : world State) :
  get_possible_actions (TwoPlayerGame := game self) pid s = Ok [] ->
  playout self draw (S fuel) pid s w = Raise (AssertionError no_action_msg).
Proof.
  intros H. simpl. unfold bind, lift. by rewrite H.
Qed.

(* a reward that a playout returns is the reward of a transition that
   ended the game, taken on an action the game offered *)
Lemma playout_reward_is_terminal (fuel : nat) :
  forall (pid : Z) (s : State) (w w' : world State) (r : Q),
  playout self draw fuel pid s w = Ok (r, w') ->
  exists pid' s' acts a s'',
    get_possible_actions (TwoPlayerGame := game self) pid' s' = Ok acts
    /\ a ∈ acts
    /\ make_transition (TwoPlayerGame := game self) pid' a s' = Ok (s'', r, true).
Proof.
  induction fuel as [|fuel IH]; intros pid s w w' r H; [discriminate|].
  simpl in H. unfold bind, lift in H.
  destruct (get_possible_actions pid s) as [acts|] eqn:Ha; [|discriminate].
  destruct acts as [|a0 acts]; [discriminate|].
  unfold choice in H.
  destruct ((a0 :: acts) !! _) as [a|] eqn:Hl; [|discriminate].
  simpl in H.
  destruct (make_transition pid a s) as [[[s'' rew] dn]|] eqn:Ht; [|discriminate].
  destruct dn.
  - inversion H; subst. exists pid, s, (a0 :: acts), a, s''.
    split; [done|]. split; [|done].
    apply list_elem_of_lookup. eauto.
  - eapply IH. exact H.
Qed.

(** C8: when the game reports no legal action for the player to move at
    a state of the rollout loop, the rollout raises the AssertionError
    that names the violation; and a reward that a playout returns is
    always the reward of a transition that ended the game, never a
    substitute. *)
Theorem rollout_fails_fast_without_actions :
  (forall fuel pid s w,
     get_possible_actions (TwoPlayerGame := game self) pid s = Ok [] ->
     playout self draw (S fuel) pid s w = Raise (AssertionError no_action_msg))
  /\ (forall fuel nd n w,
     get_possible_actions (TwoPlayerGame := game self)
       (player_to_move nd) (state nd) = Ok [] ->
     rollout self draw (S fuel) nd (S n) w = Raise (AssertionError no_action_msg))
  /\ (forall fuel pid s w w' r,
     playout self draw fuel pid s w = Ok (r, w') ->
     exists pid' s' acts a s'',
       get_possible_actions (TwoPlayerGame := game self) pid' s' = Ok acts
       /\ a ∈ acts
       /\ make_transition (TwoPlayerGame := game self) pid' a s' = Ok (s'', r, true)).
Proof.
  split; [|split].
  - apply playout_no_actions.
  - intros fuel nd n w H. unfold rollout, bind.
    cbn [simulations]. unfold bind.
    by rewrite playout_no_actions.
  - intros fuel. apply playout_reward_is_terminal.
Qed.

End RolloutFacts.

(* --------------------------------------------------------------------- *)
(*  The order on scores and the minimum of the score array                *)
(* --------------------------------------------------------------------- *)

Lemma score_leb_refl (a : score) : score_leb a a = true.
Proof. destruct a; simpl; [done| |done]. apply Qle_bool_iff, Qle_refl. Qed.

Lemma score_leb_trans (a b c : score) :
  score_leb a b = true -> score_leb b c = true -> score_leb a c = true.
Proof.
  destruct a, b, c; simpl; try done.
  rewrite !Qle_bool_iff. apply Qle_trans.
Qed.

Lemma score_leb_total (a b : score) :
  score_leb a b = true \/ score_leb b a = true.
Proof.
  destruct a, b; simpl; auto.
  rewrite !Qle_bool_iff.
  destruct (Qlt_le_dec q q0); [left; by apply Qlt_le_weak | by right].
Qed.

Lemma score_eqb_leb (a b : score) :
  score_eqb a b = true <-> score_leb a b = true /\ score_leb b a = true.
Proof.
  destruct a, b; simpl; try (split; [done | intros []; done]).
  rewrite Qeq_bool_iff, !Qle_bool_iff. split.
  - intros ->. split; apply Qle_refl.
  - intros []. by apply Qle_antisym.
Qed.

Lemma score_min_leb_l (a b : score) : score_leb (score_min a b) a = true.
Proof.
  unfold score_min. destruct (score_leb a b) eqn:E.
  - apply score_leb_refl.
  - destruct (score_leb_total a b); congruence.
Qed.

Lemma score_min_leb_r (a b : score) : score_leb (score_min a b) b = true.
Proof.
  unfold score_min. destruct (score_leb a b) eqn:E; [done|apply score_leb_refl].
Qed.

Lemma fold_min_lower (t : list score) :
  forall x, score_leb (fold_left score_min t x) x = true
            /\ forall y, y ∈ t -> score_leb (fold_left score_min t x) y = true.
Proof.
  induction t as [|z t IH]; intros x; simpl.
  - split; [apply score_leb_refl|]. intros y Hy. by apply elem_of_nil in Hy.
  - destruct (IH (score_min x z)) as [H1 H2]. split.
    + eapply score_leb_trans; [exact H1|apply score_min_leb_l].
    + intros y Hy. apply elem_of_cons in Hy as [->|Hy]; [|by apply H2].
      eapply score_leb_trans; [exact H1|apply score_min_leb_r].
Qed.

Lemma fold_min_elem (t : list score) :
  forall x, fold_left score_min t x ∈ x :: t.
Proof.
  induction t as [|z t IH]; intros x; simpl; [apply list_elem_of_here|].
  specialize (IH (score_min x z)).
  apply elem_of_cons in IH as [->|IH].
  - unfold score_min. destruct (score_leb x z).
    + apply list_elem_of_here.
    + apply list_elem_of_further, list_elem_of_here.
  - by do 2 apply list_elem_of_further.
Qed.

Lemma array_min_spec (l : list score) :
  l <> [] ->
  exists m, array_min l = Ok m /\ m ∈ l
            /\ forall y, y ∈ l -> score_leb m y = true.
Proof.
  destruct l as [|x t]; [done|]. intros _.
  exists (fold_left score_min t x). split; [done|]. split.
  - apply fold_min_elem.
  - intros y Hy. destruct (fold_min_lower t x) as [H1 H2].
    apply elem_of_cons in Hy as [->|Hy]; auto.
Qed.

Lemma where_eq_elem (l : list score) (m : score) :
  forall base i,
    i ∈ where_eq l m base
    <-> exists j s, i = (base + j)%nat /\ l !! j = Some s /\ score_eqb s m = true.
Proof.
  induction l as [|x t IH]; intros base i; simpl.
  - split; [intros H; by apply elem_of_nil in H|].
    intros (j & s & _ & H & _). by rewrite lookup_nil in H.
  - assert (Ht : i ∈ where_eq t m (S base)
                 <-> exists j s, i = (base + S j)%nat /\ t !! j = Some s
                                 /\ score_eqb s m = true).
    { rewrite IH. split; intros (j & s & -> & H); exists j, s;
        (split; [lia|done]). }
    destruct (score_eqb x m) eqn:E.
    + rewrite elem_of_cons, Ht. split.
      * intros [->|(j & s & -> & H1 & H2)].
        -- exists 0%nat, x. split; [lia|done].
        -- exists (S j), s. done.
      * intros (j & s & -> & H1 & H2). destruct j as [|j].
        -- left. lia.
        -- right. exists j, s. done.
    + rewrite Ht. split.
      * intros (j & s & -> & H1 & H2). exists (S j), s. done.
      * intros (j & s & -> & H1 & H2). destruct j as [|j].
        -- simpl in H1. congruence.
        -- exists j, s. done.
Qed.

Lemma where_eq_lower (l : list score) (m : score) :
  forall base i, i ∈ where_eq l m base -> (base <= i)%nat.
Proof.
  intros base i H. apply where_eq_elem in H as (j & s & -> & _). lia.
Qed.

Lemma where_eq_NoDup (l : list score) (m : score) :
  forall base, NoDup (where_eq l m base).
Proof.
  induction l as [|x t IH]; intros base; simpl; [constructor|].
  destruct (score_eqb x m); [|apply IH].
  constructor; [|apply IH].
  intros H. apply where_eq_lower in H. lia.
Qed.


(* --------------------------------------------------------------------- *)
(*  Selection                                                             *)
(* --------------------------------------------------------------------- *)

Section SelectionFacts.
Local Open Scope mcts_scope.
Context {State : Type}.
Variable self : TwoPlayerMCTS State.
Variables np_sqrt np_log : Q -> Q.
Variable float32 : Q -> score.
Variable draw : nat -> nat.

Local Abbreviation ucb := (ucb_score self np_sqrt np_log float32).

Lemma fill_scores_spec (N : nat) (w : world State) :
  forall (cs : list nat) (kids : list (MCTSNode State)),
  Forall2 (fun c k => heap w !! c = Some k) cs kids ->
  fill_scores self np_sqrt np_log float32 N cs w = Ok (map (ucb N) kids, w).
Proof.
  intros cs kids H. induction H as [|c k cs kids Hc _ IH]; [done|].
  simpl. unfold bind, get_node. rewrite Hc, IH. done.
Qed.

Lemma choice_spec {A} (l : list A) (w : world State) :
  l <> [] ->
  exists x, l !! (draw (rng w) mod length l)%nat = Some x
            /\ choice draw l w = Ok (x, mkWorld (heap w) (S (rng w))).
Proof.
  intros Hl. unfold choice.
  assert (Hlt : (draw (rng w) mod length l < length l)%nat).
  { apply Nat.mod_upper_bound. destruct l; [done|simpl; lia]. }
  apply lookup_lt_is_Some_2 in Hlt as [x Hx].
  exists x. by rewrite Hx.
Qed.


End SelectionFacts.

(* --------------------------------------------------------------------- *)
(*  Backpropagation                                                       *)
(* --------------------------------------------------------------------- *)

Section BackpropFacts.
Local Open Scope mcts_scope.
Local Open Scope nat_scope.
Context {State : Type}.
Local Abbreviation node := (MCTSNode State).

Lemma tree_inv_parents_below (h : list node) : tree_inv h -> parents_below h.
Proof.
  intros Hi i nd p Hn Hp. by destruct (inv_parent h Hi i nd p Hn Hp).
Qed.

Lemma chain_le (h : list node) :
  parents_below h ->
  forall gas x y, y ∈ chain h gas x -> y <= x.
Proof.
  intros Hp. induction gas as [|gas IH]; simpl; intros x y Hy.
  - by apply elem_of_nil in Hy.
  - apply elem_of_cons in Hy as [->|Hy]; [lia|].
    destruct (h !! x) as [nd|] eqn:Hx; [|by apply elem_of_nil in Hy].
    destruct (parent nd) as [p|] eqn:Hpar; [|by apply elem_of_nil in Hy].
    apply IH in Hy. specialize (Hp x nd p Hx Hpar). lia.
Qed.

Lemma chain_ext (h1 h : list node) :
  (forall i, parent <$> h1 !! i = parent <$> h !! i) ->
  forall gas x, chain h1 gas x = chain h gas x.
Proof.
  intros He. induction gas as [|gas IH]; simpl; intros x; [done|].
  f_equal. specialize (He x).
  destruct (h1 !! x) as [n1|], (h !! x) as [n|]; simpl in He; try done.
  inversion He as [He']. rewrite He'. destruct (parent n); [apply IH|done].
Qed.

Lemma chain_head (h : list node) (gas x : nat) :
  0 < gas -> chain h gas x !! 0 = Some x.
Proof. destruct gas; [lia|done]. Qed.

Lemma lookup_insert_visit (h : list node) (x : nat) (nd : node) (v : Q) :
  h !! x = Some nd ->
  forall i, parent <$> <[x := visit v nd]> h !! i = parent <$> h !! i.
Proof.
  intros Hx i. destruct (decide (x = i)) as [<-|Hne].
  - rewrite list_lookup_insert_eq by (by eapply lookup_lt_Some).
    by rewrite Hx.
  - by rewrite list_lookup_insert_ne.
Qed.

Lemma parents_below_insert_visit (h : list node) (x : nat) (nd : node) (v : Q) :
  h !! x = Some nd -> parents_below h ->
  parents_below (<[x := visit v nd]> h).
Proof.
  intros Hx Hp i n p Hn Hpar.
  destruct (decide (x = i)) as [<-|Hne].
  - rewrite list_lookup_insert_eq in Hn by (by eapply lookup_lt_Some).
    inversion Hn; subst. by apply (Hp x nd p).
  - rewrite list_lookup_insert_ne in Hn by done. by apply (Hp i n p).
Qed.

(* backprop succeeds on a tree and visits the nodes of the chain *)
Lemma backprop_spec (v : Q) (k : nat) :
  forall gas (h : list node) x,
  parents_below h -> x < length h -> x < gas ->
  exists h',
    backprop gas (Some x) v (mkWorld h k) = Ok (tt, mkWorld h' k)
    /\ visited_along v (chain h gas x) h h'.
Proof.
  induction gas as [|gas IH]; intros h x Hp Hx Hg; [lia|].
  apply lookup_lt_is_Some_2 in Hx as [nd Hnd].
  simpl. unfold bind, get_node, set_node. simpl. rewrite Hnd.
  pose proof (lookup_lt_Some _ _ _ Hnd) as Hlt.
  destruct (parent nd) as [p|] eqn:Hpar.
  - pose proof (Hp x nd p Hnd Hpar) as Hpx.
    destruct (IH (<[x := visit v nd]> h) p) as (h' & Hb & Hlen & Hlook).
    + by apply parents_below_insert_visit.
    + rewrite length_insert. lia.
    + lia.
    + exists h'. split; [exact Hb|]. split.
      * by rewrite Hlen, length_insert.
      * intros i. rewrite Hlook.
        rewrite (chain_ext _ h (lookup_insert_visit h x nd v Hnd)).
        destruct (decide (i = x)) as [->|Hne].
        -- rewrite decide_False.
           2:{ intros Hin. apply (chain_le h Hp) in Hin. lia. }
           rewrite decide_True by apply list_elem_of_here.
           rewrite list_lookup_insert_eq by done. by rewrite Hnd.
        -- rewrite list_lookup_insert_ne by done.
           destruct (decide (i ∈ chain h gas p)) as [Hin|Hin].
           ++ by rewrite decide_True by (by apply list_elem_of_further).
           ++ rewrite decide_False; [done|].
              intros Hc. apply elem_of_cons in Hc as [?|?]; done.
  - exists (<[x := visit v nd]> h). split; [by destruct gas|]. split.
    + by rewrite length_insert.
    + intros i. destruct (decide (i = x)) as [->|Hne].
      * rewrite decide_True by apply list_elem_of_here.
        rewrite list_lookup_insert_eq by done. by rewrite Hnd.
      * rewrite list_lookup_insert_ne by done.
        rewrite decide_False; [done|].
        intros Hc. apply elem_of_cons in Hc as [?|Hc]; [done|].
        by apply elem_of_nil in Hc.
Qed.

Lemma chain_root (h : list node) :
  parents_below h ->
  (forall i nd, h !! i = Some nd -> parent nd = None -> i = 0) ->
  forall gas x, x < length h -> x < gas -> 0 ∈ chain h gas x.
Proof.
  intros Hp Ho. induction gas as [|gas IH]; intros x Hx Hg; [lia|].
  simpl. apply lookup_lt_is_Some_2 in Hx as [nd Hnd]. rewrite Hnd.
  pose proof (lookup_lt_Some _ _ _ Hnd) as Hlt.
  destruct (parent nd) as [p|] eqn:Hpar.
  - pose proof (Hp x nd p Hnd Hpar).
    apply list_elem_of_further, IH; lia.
  - rewrite (Ho x nd Hnd Hpar). apply list_elem_of_here.
Qed.

Lemma chain_closed (h : list node) :
  parents_below h ->
  forall gas x c cn p,
    x < gas -> c ∈ chain h gas x -> h !! c = Some cn -> parent cn = Some p ->
    p ∈ chain h gas x.
Proof.
  intros Hp. induction gas as [|gas IH]; intros x c cn p Hg Hc Hcn Hpar; [lia|].
  simpl in *. apply elem_of_cons in Hc as [->|Hc].
  - rewrite Hcn, Hpar. apply list_elem_of_further.
    pose proof (Hp x cn p Hcn Hpar).
    destruct gas; [lia|]. apply list_elem_of_here.
  - destruct (h !! x) as [nd|] eqn:Hx; [|by apply elem_of_nil in Hc].
    destruct (parent nd) as [q|] eqn:Hq; [|by apply elem_of_nil in Hc].
    pose proof (Hp x nd q Hx Hq).
    apply list_elem_of_further. eapply IH; eauto. lia.
Qed.

(* no id of the chain lies strictly between a member and its parent *)
Lemma chain_gap (h : list node) :
  parents_below h ->
  forall gas x c cn p y,
    c ∈ chain h gas x -> h !! c = Some cn -> parent cn = Some p ->
    y ∈ chain h gas x -> c <= y \/ y <= p.
Proof.
  intros Hp. induction gas as [|gas IH]; intros x c cn p y Hc Hcn Hpar Hy.
  { by apply elem_of_nil in Hc. }
  simpl in *. apply elem_of_cons in Hc as [->|Hc].
  - apply elem_of_cons in Hy as [->|Hy]; [left; lia|].
    rewrite Hcn, Hpar in Hy. right. by apply (chain_le h Hp) in Hy.
  - destruct (h !! x) as [nd|] eqn:Hx; [|by apply elem_of_nil in Hc].
    destruct (parent nd) as [q|] eqn:Hq; [|by apply elem_of_nil in Hc].
    apply elem_of_cons in Hy as [->|Hy].
    + left. apply (chain_le h Hp) in Hc.
      pose proof (Hp x nd q Hx Hq). lia.
    + eapply IH; eauto.
Qed.

Lemma chain_NoDup (h : list node) :
  parents_below h -> forall gas x, NoDup (chain h gas x).
Proof.
  intros Hp. induction gas as [|gas IH]; intros x; simpl; [constructor|].
  constructor.
  - destruct (h !! x) as [nd|] eqn:Hx; [|apply not_elem_of_nil].
    destruct (parent nd) as [q|] eqn:Hq; [|apply not_elem_of_nil].
    intros Hin. apply (chain_le h Hp) in Hin.
    pose proof (Hp x nd q Hx Hq). lia.
  - destruct (h !! x) as [nd|]; [|constructor].
    destruct (parent nd); [apply IH|constructor].
Qed.

(* consecutive ids of the chain are linked by a parent field *)
Lemma chain_linked (h : list node) :
  forall gas x j a b,
    chain h gas x !! j = Some a -> chain h gas x !! S j = Some b ->
    exists nd, h !! a = Some nd /\ parent nd = Some b.
Proof.
  induction gas as [|gas IH]; intros x j a b Ha Hb; [done|].
  simpl in *.
  destruct (h !! x) as [nd|] eqn:Hx; [|done].
  destruct (parent nd) as [q|] eqn:Hq; [|done].
  destruct j as [|j].
  - simpl in Ha. inversion Ha; subst. exists nd. split; [done|].
    destruct gas; [done|]. simpl in Hb. congruence.
  - simpl in Ha. eapply IH; eauto.
Qed.

Lemma chain_last (h : list node) :
  parents_below h ->
  (forall i nd, h !! i = Some nd -> parent nd = None -> i = 0) ->
  forall gas x, x < length h -> x < gas -> last (chain h gas x) = Some 0.
Proof.
  intros Hp Ho. induction gas as [|gas IH]; intros x Hx Hg; [lia|].
  simpl. apply lookup_lt_is_Some_2 in Hx as [nd Hnd]. rewrite Hnd.
  pose proof (lookup_lt_Some _ _ _ Hnd) as Hlt.
  destruct (parent nd) as [p|] eqn:Hpar.
  - pose proof (Hp x nd p Hnd Hpar).
    assert (Hl : last (chain h gas p) = Some 0) by (apply IH; lia).
    destruct (chain h gas p) eqn:E; [done|]. exact Hl.
  - by rewrite (Ho x nd Hnd Hpar).
Qed.

End BackpropFacts.

(* --------------------------------------------------------------------- *)
(*  The tree invariant under backpropagation                              *)
(* --------------------------------------------------------------------- *)

Section InvariantBackprop.
Local Open Scope nat_scope.
Context {State : Type}.
Local Abbreviation node := (MCTSNode State).

Variables (v : Q) (P : list nat) (h h' : list node).
Hypothesis Hva : visited_along v P h h'.

Lemma visited_along_back (i : nat) (n' : node) :
  h' !! i = Some n' ->
  exists n, h !! i = Some n
            /\ ((i ∈ P /\ n' = visit v n) \/ ((i ∉ P) /\ n' = n)).
Proof.
  destruct Hva as [_ Hl]. rewrite Hl. intros H.
  destruct (decide (i ∈ P)) as [Hin|Hin].
  - destruct (h !! i) as [n|]; [|done]. inversion H. eauto.
  - eauto.
Qed.

Lemma visited_along_fwd (i : nat) (n : node) :
  h !! i = Some n ->
  h' !! i = Some (if decide (i ∈ P) then visit v n else n).
Proof.
  destruct Hva as [_ Hl]. rewrite Hl. intros ->. by destruct (decide _).
Qed.

Lemma visited_along_visits_out (c : nat) :
  c ∉ P -> visits h' c = visits h c.
Proof.
  intros Hc. unfold visits. destruct Hva as [_ Hl].
  by rewrite Hl, decide_False.
Qed.

Lemma visited_along_visits_in (c : nat) (n : node) :
  c ∈ P -> h !! c = Some n -> visits h' c = n_visits n + 1.
Proof.
  intros Hc Hn. unfold visits.
  rewrite (visited_along_fwd c n Hn), decide_True by done. done.
Qed.

Lemma count_visited_out (cs : list nat) :
  (forall c, c ∈ cs -> c ∉ P) -> count_visited h' cs = count_visited h cs.
Proof.
  induction cs as [|c t IH]; intros Hc; simpl; [done|].
  rewrite visited_along_visits_out by (apply Hc, list_elem_of_here).
  rewrite IH; [done|]. intros c' Hc'. by apply Hc, list_elem_of_further.
Qed.

Lemma count_visited_bump (cs : list nat) :
  NoDup cs ->
  (forall c c', c ∈ cs -> c' ∈ cs -> c ∈ P -> c' ∈ P -> c = c') ->
  count_visited h' cs <= count_visited h cs + 1.
Proof.
  induction cs as [|c t IH]; intros Hnd Hone; simpl; [lia|].
  inversion Hnd as [|? ? Hnotin Hnd']; subst.
  destruct (decide (c ∈ P)) as [Hin|Hout].
  - rewrite (count_visited_out t).
    + destruct (0 <? visits h' c), (0 <? visits h c); lia.
    + intros c' Hc' Hc'P.
      assert (c = c') as <-; [|done].
      apply Hone; auto using list_elem_of_here, list_elem_of_further.
  - rewrite visited_along_visits_out by done.
    assert (count_visited h' t <= count_visited h t + 1); [|lia].
    apply IH; [done|]. intros c1 c2 H1 H2.
    apply Hone; by apply list_elem_of_further.
Qed.

End InvariantBackprop.

Section InvariantBackprop2.
Local Open Scope nat_scope.
Context {State : Type}.
Local Abbreviation node := (MCTSNode State).

(* one backpropagation from x keeps the tree invariant *)
Lemma visited_along_inv (v : Q) (h h' : list node) (x : nat) :
  tree_inv h -> x < length h ->
  visited_along v (path_to_root h x) h h' ->
  tree_inv h'.
Proof.
  intros Hi Hx Hva. unfold path_to_root in Hva.
  set (P := chain h (length h) x) in *.
  pose proof (tree_inv_parents_below h Hi) as Hpb.
  assert (Hclosed : forall c cn p, c ∈ P -> h !! c = Some cn ->
                                   parent cn = Some p -> p ∈ P).
  { intros c cn p. by apply chain_closed. }
  constructor.
  - destruct (inv_root h Hi) as (r & Hr & Hpar & Hterm).
    rewrite (visited_along_fwd v P h h' Hva 0 r Hr).
    eexists. split; [done|]. by destruct (decide _).
  - intros i n' p Hn' Hpar.
    destruct (visited_along_back v P h h' Hva i n' Hn') as (n & Hn & Hcase).
    assert (Hparn : parent n = Some p).
    { destruct Hcase as [[_ ->]|[_ ->]]; done. }
    destruct (inv_parent h Hi i n p Hn Hparn) as (Hlt & pn & Hpn & Hle).
    split; [done|].
    rewrite (visited_along_fwd v P h h' Hva p pn Hpn).
    eexists. split; [done|].
    destruct Hcase as [[Hin ->]|[Hout ->]].
    + rewrite decide_True by (by eapply Hclosed). simpl. lia.
    + destruct (decide _); simpl; lia.
  - intros i n' Hn' Hpar.
    destruct (visited_along_back v P h h' Hva i n' Hn') as (n & Hn & Hcase).
    apply (inv_orphan h Hi i n Hn).
    destruct Hcase as [[_ ->]|[_ ->]]; done.
  - intros i n' c Hn' Hc.
    destruct (visited_along_back v P h h' Hva i n' Hn') as (n & Hn & Hcase).
    assert (Hcn : c ∈ children_nodes n).
    { destruct Hcase as [[_ ->]|[_ ->]]; done. }
    destruct (inv_children h Hi i n c Hn Hcn) as (cn & Hcn' & Hpar).
    rewrite (visited_along_fwd v P h h' Hva c cn Hcn').
    eexists. split; [done|]. by destruct (decide _).
  - intros i n' Hn'.
    destruct (visited_along_back v P h h' Hva i n' Hn') as (n & Hn & Hcase).
    pose proof (inv_nodup h Hi i n Hn).
    destruct Hcase as [[_ ->]|[_ ->]]; done.
  - intros i n' Hn' Ht.
    destruct (visited_along_back v P h h' Hva i n' Hn') as (n & Hn & Hcase).
    assert (terminal n = true) by (destruct Hcase as [[_ ->]|[_ ->]]; done).
    pose proof (inv_terminal h Hi i n Hn).
    destruct Hcase as [[_ ->]|[_ ->]]; simpl; auto.
  - intros i n' Hn'.
    destruct (visited_along_back v P h h' Hva i n' Hn') as (n & Hn & Hcase).
    pose proof (inv_count h Hi i n Hn) as Hcount.
    pose proof (inv_nodup h Hi i n Hn) as Hnodup.
    destruct Hcase as [[Hin ->]|[Hout ->]]; simpl.
    + assert (count_visited h' (children_nodes n)
              <= count_visited h (children_nodes n) + 1); [|lia].
      apply (count_visited_bump v P h h' Hva); [done|].
      intros c c' Hc Hc' HcP Hc'P.
      destruct (inv_children h Hi i n c Hn Hc) as (cn & Hcn & Hcpar).
      destruct (inv_children h Hi i n c' Hn Hc') as (cn' & Hcn' & Hcpar').
      pose proof (Hpb c cn i Hcn Hcpar).
      pose proof (Hpb c' cn' i Hcn' Hcpar').
      destruct (chain_gap h Hpb _ _ c cn i c' HcP Hcn Hcpar Hc'P);
        destruct (chain_gap h Hpb _ _ c' cn' i c Hc'P Hcn' Hcpar' HcP); lia.
    + rewrite (count_visited_out v P h h' Hva); [done|].
      intros c Hc HcP.
      destruct (inv_children h Hi i n c Hn Hc) as (cn & Hcn & Hcpar).
      apply Hout. by eapply Hclosed.
  - intros i n' p pn' Hn' Hpar Hpn'.
    destruct (visited_along_back v P h h' Hva i n' Hn') as (n & Hn & Hcase).
    destruct (visited_along_back v P h h' Hva p pn' Hpn') as (pn & Hpn & Hcasep).
    assert (Hparn : parent n = Some p).
    { destruct Hcase as [[_ ->]|[_ ->]]; done. }
    pose proof (inv_player h Hi i n p pn Hn Hparn Hpn) as Hpl.
    destruct Hcase as [[_ ->]|[_ ->]], Hcasep as [[_ ->]|[_ ->]]; done.
  - intros i n' Hn'.
    destruct (visited_along_back v P h h' Hva i n' Hn') as (n & Hn & Hcase).
    pose proof (inv_actions h Hi i n Hn).
    destruct Hcase as [[_ ->]|[_ ->]]; done.
Qed.

Lemma visited_along_root (v : Q) (h h' : list node) (x : nat) :
  tree_inv h -> x < length h ->
  visited_along v (path_to_root h x) h h' ->
  visits h' 0 = visits h 0 + 1.
Proof.
  intros Hi Hx Hva.
  destruct (inv_root h Hi) as (r & Hr & _).
  rewrite (visited_along_visits_in v _ h h' Hva 0 r); [|by apply chain_root; try apply Hi; try apply tree_inv_parents_below|done].
  unfold visits. by rewrite Hr.
Qed.

End InvariantBackprop2.

(* --------------------------------------------------------------------- *)
(*  Expansion                                                             *)
(* --------------------------------------------------------------------- *)

Section ExpansionFacts.
Local Open Scope mcts_scope.
Local Open Scope nat_scope.
Context {State : Type}.
Variable self : TwoPlayerMCTS State.
Variable draw : nat -> nat.
Local Abbreviation node := (MCTSNode State).

Lemma make_children_spec (i : nat) (s : State) (pl : Z) :
  forall (todo : list Z) (cs : list nat) (acts : list Z) (h : list node)
         (k : nat) r w',
  make_children self i s pl todo cs acts (mkWorld h k) = Ok (r, w') ->
  exists news,
    w' = mkWorld (h ++ news) k
    /\ r = (cs ++ seq (length h) (length news), acts ++ todo)
    /\ length news = length todo
    /\ Forall (fresh_child i pl) news.
Proof.
  induction todo as [|a todo IH]; intros cs acts h k r w' H.
  - simpl in H. inversion H; subst. exists []. simpl.
    rewrite !app_nil_r. done.
  - simpl in H. unfold bind, lift in H.
    destruct (make_transition pl a s) as [[[ns rew] dn]|]; [|done].
    simpl in H. apply IH in H as (news & -> & -> & Hlen & Hall).
    eexists (_ :: news). split; [by rewrite <- app_assoc|]. split; [|split].
    + rewrite length_app. simpl.
      rewrite <- !app_assoc. simpl.
      by replace (length h + 1) with (S (length h)) by lia.
    + simpl. by rewrite Hlen.
    + constructor; [|done]. done.
Qed.

Lemma expand_spec (i : nat) (nd : node) (pl : Z) (h : list node) (k : nat)
    (x : nat) (w' : world State) :
  expand self draw i nd pl (mkWorld h k) = Ok (x, w') ->
  exists news acts,
    get_possible_actions (TwoPlayerGame := game self) pl (state nd) = Ok acts
    /\ heap w' = expanded h i nd news acts
    /\ rng w' = S k
    /\ length news = length acts
    /\ Forall (fresh_child i pl) news
    /\ x ∈ seq (length h) (length news).
Proof.
  unfold expand, bind, lift. intros H.
  destruct (get_possible_actions pl (state nd)) as [acts|] eqn:Ha; [|done].
  destruct (make_children _ _ _ _ _ _ _ _) as [[[cs acts'] w1]|] eqn:Hm; [|done].
  apply make_children_spec in Hm as (news & -> & Hr & Hlen & Hall).
  inversion Hr; subst. simpl in H.
  unfold choice in H. simpl in H.
  destruct (seq _ _ !! _) as [y|] eqn:Hy; [|done].
  inversion H; subst. exists news, acts. simpl.
  repeat split; try done.
  apply list_elem_of_lookup. eauto.
Qed.

End ExpansionFacts.

Section InvariantExpansion.
Local Open Scope nat_scope.
Context {State : Type}.
Local Abbreviation node := (MCTSNode State).

Variables (h : list node) (i : nat) (nd : node) (news : list node)
  (acts : list Z) (pl : Z).
Hypothesis Hnd : h !! i = Some nd.
Hypothesis Hfresh : Forall (fresh_child i pl) news.

Local Abbreviation h' := (expanded h i nd news acts).
Local Abbreviation nd' :=
  (with_children nd (seq (length h) (length news)) acts).

Lemma expanded_at : h' !! i = Some nd'.
Proof.
  unfold expanded. apply list_lookup_insert_eq.
  rewrite length_app. apply lookup_lt_Some in Hnd. lia.
Qed.

Lemma expanded_old (j : nat) (n : node) :
  j <> i -> h !! j = Some n -> h' !! j = Some n.
Proof.
  intros Hne Hn. unfold expanded.
  rewrite list_lookup_insert_ne by done. by apply lookup_app_l_Some.
Qed.

Lemma expanded_cases (j : nat) (n' : node) :
  h' !! j = Some n' ->
  (j = i /\ n' = nd')
  \/ (j <> i /\ h !! j = Some n')
  \/ (length h <= j /\ fresh_child i pl n').
Proof.
  intros H. destruct (decide (j = i)) as [->|Hne].
  - left. rewrite expanded_at in H. by inversion H.
  - right. unfold expanded in H. rewrite list_lookup_insert_ne in H by done.
    apply lookup_app_Some in H as [H|[Hge H]]; [by left|right].
    split; [done|].
    eapply Forall_lookup_1; eauto.
Qed.

Lemma expanded_fwd (j : nat) (n : node) :
  h !! j = Some n ->
  exists n', h' !! j = Some n'
    /\ parent n' = parent n /\ n_visits n' = n_visits n
    /\ player_to_move n' = player_to_move n /\ terminal n' = terminal n
    /\ (j <> i -> n' = n).
Proof.
  intros Hn. destruct (decide (j = i)) as [->|Hne].
  - exists nd'. rewrite expanded_at. rewrite Hnd in Hn. inversion Hn; subst.
    repeat split; done.
  - exists n. rewrite (expanded_old j n) by done. repeat split; done.
Qed.

Lemma expanded_new (c : nat) :
  c ∈ seq (length h) (length news) ->
  exists cn, h' !! c = Some cn /\ fresh_child i pl cn.
Proof.
  intros Hc. apply elem_of_seq in Hc as [Hge Hlt].
  assert (Hne : c <> i) by (apply lookup_lt_Some in Hnd; lia).
  assert (Hin : c - length h < length news) by lia.
  apply lookup_lt_is_Some_2 in Hin as [cn Hcn].
  exists cn. split.
  - unfold expanded. rewrite list_lookup_insert_ne by done.
    by rewrite lookup_app_r.
  - eapply Forall_lookup_1; eauto.
Qed.

Lemma visits_expanded_old (c : nat) :
  c < length h -> visits h' c = visits h c.
Proof.
  intros Hc. apply lookup_lt_is_Some_2 in Hc as [n Hn].
  destruct (expanded_fwd c n Hn) as (n' & Hn' & _ & Hv & _).
  unfold visits. by rewrite Hn', Hn.
Qed.

Lemma count_visited_ext (h1 h2 : list node) (cs : list nat) :
  (forall c, c ∈ cs -> visits h1 c = visits h2 c) ->
  count_visited h1 cs = count_visited h2 cs.
Proof.
  induction cs as [|c t IH]; intros Hc; simpl; [done|].
  rewrite Hc by apply list_elem_of_here.
  rewrite IH; [done|]. intros c' Hc'. by apply Hc, list_elem_of_further.
Qed.

Lemma count_visited_zero (h1 : list node) (cs : list nat) :
  (forall c, c ∈ cs -> visits h1 c = 0) -> count_visited h1 cs = 0.
Proof.
  induction cs as [|c t IH]; intros Hc; simpl; [done|].
  rewrite Hc by apply list_elem_of_here.
  rewrite IH; [done|]. intros c' Hc'. by apply Hc, list_elem_of_further.
Qed.

Hypothesis Hlen : length news = length acts.

(* expanding a leaf that is not terminal keeps the tree invariant *)
Lemma expanded_inv :
  tree_inv h -> children_nodes nd = [] -> terminal nd = false ->
  player_to_move nd = pl ->
  tree_inv h'.
Proof.
  intros Hi Hleaf Hterm Hpl.
  pose proof (lookup_lt_Some _ _ _ Hnd) as Hilt.
  constructor.
  - destruct (inv_root h Hi) as (r & Hr & Hpar & Hrt).
    destruct (expanded_fwd 0 r Hr) as (r' & Hr' & Hp' & _ & _ & Ht' & _).
    exists r'. split; [done|]. split; congruence.
  - intros j n' p Hn' Hpar.
    destruct (expanded_cases j n' Hn') as [[-> ->]|[[Hne Hn]|[Hge Hf]]].
    + destruct (inv_parent h Hi i nd p Hnd Hpar) as (Hlt & pn & Hpn & Hle).
      split; [done|].
      destruct (expanded_fwd p pn Hpn) as (pn' & Hpn' & _ & Hv & _).
      exists pn'. split; [done|]. simpl. lia.
    + destruct (inv_parent h Hi j n' p Hn Hpar) as (Hlt & pn & Hpn & Hle).
      split; [done|].
      destruct (expanded_fwd p pn Hpn) as (pn' & Hpn' & _ & Hv & _).
      exists pn'. split; [done|]. lia.
    + destruct Hf as (Hp & Hv & _).
      assert (p = i) as -> by congruence.
      split; [lia|]. exists nd'. split; [apply expanded_at|]. lia.
  - intros j n' Hn' Hpar.
    destruct (expanded_cases j n' Hn') as [[-> ->]|[[Hne Hn]|[Hge Hf]]].
    + by apply (inv_orphan h Hi i nd).
    + by apply (inv_orphan h Hi j n').
    + destruct Hf as (Hp & _). congruence.
  - intros j n' c Hn' Hc.
    destruct (expanded_cases j n' Hn') as [[-> ->]|[[Hne Hn]|[Hge Hf]]].
    + simpl in Hc. destruct (expanded_new c Hc) as (cn & Hcn & Hp & _).
      eauto.
    + destruct (inv_children h Hi j n' c Hn Hc) as (cn & Hcn & Hp).
      destruct (expanded_fwd c cn Hcn) as (cn' & Hcn' & Hp' & _).
      exists cn'. split; [done|]. congruence.
    + destruct Hf as (_ & _ & Hcs & _). rewrite Hcs in Hc.
      by apply elem_of_nil in Hc.
  - intros j n' Hn'.
    destruct (expanded_cases j n' Hn') as [[-> ->]|[[Hne Hn]|[Hge Hf]]].
    + simpl. apply NoDup_seq.
    + by apply (inv_nodup h Hi j n').
    + destruct Hf as (_ & _ & -> & _). constructor.
  - intros j n' Hn' Ht.
    destruct (expanded_cases j n' Hn') as [[-> ->]|[[Hne Hn]|[Hge Hf]]].
    + simpl in Ht. congruence.
    + by apply (inv_terminal h Hi j n').
    + by destruct Hf as (_ & _ & -> & _).
  - intros j n' Hn'.
    destruct (expanded_cases j n' Hn') as [[-> ->]|[[Hne Hn]|[Hge Hf]]].
    + simpl. rewrite count_visited_zero; [lia|].
      intros c Hc. destruct (expanded_new c Hc) as (cn & Hcn & _ & Hv & _).
      unfold visits. by rewrite Hcn.
    + rewrite (count_visited_ext h' h); [by apply (inv_count h Hi j n')|].
      intros c Hc. apply visits_expanded_old.
      destruct (inv_children h Hi j n' c Hn Hc) as (cn & Hcn & _).
      by eapply lookup_lt_Some.
    + destruct Hf as (_ & _ & -> & _). simpl. lia.
  - intros j n' p pn' Hn' Hpar Hpn'.
    destruct (expanded_cases j n' Hn') as [[-> ->]|[[Hne Hn]|[Hge Hf]]].
    + destruct (inv_parent h Hi i nd p Hnd Hpar) as (Hlt & pn & Hpn & _).
      assert (pn' = pn) as ->.
      { destruct (expanded_fwd p pn Hpn) as (q & Hq & _ & _ & _ & _ & He).
        rewrite He in Hq by lia. congruence. }
      by apply (inv_player h Hi i nd p pn).
    + destruct (inv_parent h Hi j n' p Hn Hpar) as (Hlt & pn & Hpn & _).
      destruct (expanded_fwd p pn Hpn) as (q & Hq & _ & _ & Hplq & _).
      assert (pn' = q) as -> by congruence.
      rewrite Hplq. by apply (inv_player h Hi j n' p pn).
    + destruct Hf as (Hp & _ & _ & _ & Hplc & _).
      assert (p = i) as -> by congruence.
      rewrite expanded_at in Hpn'. assert (pn' = nd') as -> by congruence.
      simpl. by rewrite Hplc, Hpl.
  - intros j n' Hn'.
    destruct (expanded_cases j n' Hn') as [[-> ->]|[[Hne Hn]|[Hge Hf]]].
    + simpl. by rewrite length_seq.
    + by apply (inv_actions h Hi j n').
    + by destruct Hf as (_ & _ & -> & _ & _ & ->).
Qed.

Lemma expanded_length : length h' = length h + length news.
Proof. unfold expanded. by rewrite length_insert, length_app. Qed.

End InvariantExpansion.

(* --------------------------------------------------------------------- *)
(*  Nodes keep their identity                                             *)
(* --------------------------------------------------------------------- *)

Section GrowthFacts.
Local Open Scope nat_scope.
Context {State : Type}.
Local Abbreviation node := (MCTSNode State).

Lemma same_identity_refl (n : node) : same_identity n n.
Proof. repeat split; done. Qed.

Lemma same_identity_trans (n1 n2 n3 : node) :
  same_identity n1 n2 -> same_identity n2 n3 -> same_identity n1 n3.
Proof.
  intros (A1 & A2 & A3 & A4 & A5 & A6) (B1 & B2 & B3 & B4 & B5 & B6).
  unfold same_identity. repeat (split; [congruence|]).
  intros H. destruct (A6 H) as [E F].
  destruct B6 as [E' F']; [congruence|]. split; congruence.
Qed.

Lemma grows_refl (h : list node) : grows h h.
Proof. intros j n Hn. exists n. split; [done|apply same_identity_refl]. Qed.

Lemma grows_trans (h1 h2 h3 : list node) :
  grows h1 h2 -> grows h2 h3 -> grows h1 h3.
Proof.
  intros H12 H23 j n Hn.
  destruct (H12 j n Hn) as (n2 & Hn2 & Hs2).
  destruct (H23 j n2 Hn2) as (n3 & Hn3 & Hs3).
  exists n3. split; [done|]. by eapply same_identity_trans.
Qed.

Lemma visited_along_grows (v : Q) (P : list nat) (h h' : list node) :
  visited_along v P h h' -> grows h h'.
Proof.
  intros Hva j n Hn.
  rewrite (visited_along_fwd v P h h' Hva j n Hn).
  eexists. split; [done|]. destruct (decide _); repeat split; done.
Qed.

Lemma expanded_grows (h : list node) (i : nat) (nd : node)
    (news : list node) (acts : list Z) :
  h !! i = Some nd -> children_nodes nd = [] ->
  grows h (expanded h i nd news acts).
Proof.
  intros Hnd Hleaf j n Hn.
  destruct (decide (j = i)) as [->|Hne].
  - rewrite (expanded_at h i nd news acts Hnd).
    eexists. split; [done|].
    assert (n = nd) as -> by congruence.
    unfold same_identity. simpl. rewrite Hleaf. repeat (split; [done|]).
    done.
  - rewrite (expanded_old h i nd news acts j n) by done.
    exists n. split; [done|apply same_identity_refl].
Qed.

End GrowthFacts.

(* --------------------------------------------------------------------- *)
(*  The phases of one iteration                                           *)
(* --------------------------------------------------------------------- *)

Section SearchFacts.
Local Open Scope mcts_scope.
Local Open Scope nat_scope.
Context {State : Type}.
Variable self : TwoPlayerMCTS State.
Variables np_sqrt np_log : Q -> Q.
Variable float32 : Q -> score.
Variable draw : nat -> nat.
Local Abbreviation node := (MCTSNode State).

Lemma kids_exist (h : list node) (cs : list nat) :
  (forall c, c ∈ cs -> is_Some (h !! c)) ->
  exists kids, Forall2 (fun c k => h !! c = Some k) cs kids.
Proof.
  induction cs as [|c t IH]; intros Hc.
  - exists []. constructor.
  - destruct (Hc c) as [k Hk]; [apply list_elem_of_here|].
    destruct IH as [kids Hkids].
    { intros c' Hc'. by apply Hc, list_elem_of_further. }
    exists (k :: kids). by constructor.
Qed.

Lemma select_keeps_heap (nd : node) (w : world State) :
  (forall c, c ∈ children_nodes nd -> is_Some (heap w !! c)) ->
  match select_child_node_ucb self np_sqrt np_log float32 draw nd w with
  | Ok (_, w') => heap w' = heap w
  | Raise e => e <> Stuck
  end.
Proof.
  intros Hc. destruct (kids_exist _ _ Hc) as [kids Hk].
  unfold select_child_node_ucb.
  destruct (n_visits nd <=? 0); [done|].
  unfold bind. rewrite (fill_scores_spec _ _ _ _ _ _ _ _ Hk).
  unfold lift. destruct (array_min _) as [m|e] eqn:Hm.
  - unfold choice. by destruct (_ !! _).
  - destruct (map _ kids); simpl in Hm; [|done]. by inversion Hm.
Qed.

Lemma descend_spec :
  forall gas i pl (w : world State) nd,
  tree_inv (heap w) -> length (heap w) <= gas + i ->
  heap w !! i = Some nd -> player_to_move nd = pl ->
  match descend self np_sqrt np_log float32 draw gas i pl w with
  | Ok ((j, pl'), w') =>
      heap w' = heap w
      /\ (children_nodes nd = [] -> j = i)
      /\ exists ndj, heap w !! j = Some ndj /\ children_nodes ndj = []
                     /\ player_to_move ndj = pl'
  | Raise e => e <> Stuck
  end.
Proof.
  induction gas as [|gas IH]; intros i pl w nd Hi Hg Hnd Hpl.
  { apply lookup_lt_Some in Hnd. lia. }
  simpl. unfold bind, get_node. rewrite Hnd.
  destruct (children_nodes nd) as [|c0 cs] eqn:Hcs; simpl.
  { split; [done|]. split; [done|]. exists nd. by rewrite Hcs. }
  pose proof (select_keeps_heap nd w) as Hsel.
  destruct (select_child_node_ucb _ _ _ _ _ nd w) as [[idx w1]|e]; [|apply Hsel].
  - assert (Hw1 : heap w1 = heap w).
    { apply Hsel. intros c Hc.
      destruct (inv_children _ Hi i nd c Hnd Hc) as (cn & -> & _). eauto. }
    clear Hsel.
    destruct ((c0 :: cs) !! idx) as [c|] eqn:Hidx; [|done].
    assert (Hc : c ∈ children_nodes nd).
    { rewrite Hcs. apply list_elem_of_lookup. eauto. }
    destruct (inv_children _ Hi i nd c Hnd Hc) as (cn & Hcn & Hpar).
    destruct (inv_parent _ Hi c cn i Hcn Hpar) as (Hlt & _).
    specialize (IH c (change_player_idx pl) w1 cn).
    rewrite Hw1 in IH.
    destruct (descend _ _ _ _ _ gas c _ w1) as [[[j pl'] w2]|e].
    + destruct IH as (Hw2 & _ & Hleaf); try done; [lia|].
      rewrite <- Hpl. by apply (inv_player _ Hi c cn i nd).
    + apply IH; try done; [lia|].
      rewrite <- Hpl. by apply (inv_player _ Hi c cn i nd).
  - intros c Hc. rewrite Hcs in Hc.
    destruct (inv_children _ Hi i nd c Hnd) as (cn & -> & _); [by rewrite Hcs|].
    eauto.
Qed.

Lemma playout_keeps_heap :
  forall fuel pid s (w : world State),
  match playout self draw fuel pid s w with
  | Ok (_, w') => heap w' = heap w
  | Raise e => game_never_stuck (game self) -> e <> Stuck
  end.
Proof.
  induction fuel as [|fuel IH]; intros pid s w; [done|].
  simpl. unfold bind, lift.
  destruct (get_possible_actions pid s) as [acts|e] eqn:Ha.
  2:{ intros [Hg _] ->. by apply (Hg pid s). }
  destruct acts as [|a0 acts]; [done|].
  unfold choice. destruct ((a0 :: acts) !! _) as [a|]; [|done].
  simpl. destruct (make_transition pid a s) as [[[s' rew] dn]|e] eqn:Ht.
  2:{ intros [_ Hg] ->. by apply (Hg pid a s). }
  destruct dn; [done|].
  specialize (IH (change_player_idx pid) s'
                 (mkWorld (heap w) (S (rng w)))).
  by destruct (playout _ _ _ _ _ _).
Qed.

Lemma simulations_keeps_heap (fuel : nat) (nd : node) :
  forall k total (w : world State),
  match simulations self draw fuel nd k total w with
  | Ok (_, w') => heap w' = heap w
  | Raise e => game_never_stuck (game self) -> e <> Stuck
  end.
Proof.
  induction k as [|k IH]; intros total w; [done|].
  simpl. unfold bind.
  pose proof (playout_keeps_heap fuel (player_to_move nd) (state nd) w) as Hp.
  destruct (playout _ _ _ _ _ _) as [[r w1]|e]; [|done].
  specialize (IH (total + r)%Q w1).
  destruct (simulations _ _ _ _ _ _ _) as [[r' w2]|e]; [congruence|done].
Qed.

Lemma evaluation_keeps_heap (fuel x sims : nat) (w : world State) :
  is_Some (heap w !! x) ->
  match evaluation self draw fuel x sims w with
  | Ok (_, w') => heap w' = heap w
  | Raise e => game_never_stuck (game self) -> e <> Stuck
  end.
Proof.
  intros [nd Hnd]. unfold evaluation, bind, get_node. rewrite Hnd.
  destruct (terminal nd); simpl; [done|].
  unfold rollout, bind.
  pose proof (simulations_keeps_heap fuel nd sims 0%Q w) as Hs.
  destruct (simulations _ _ _ _ _ _ _) as [[r w1]|e]; [|done].
  unfold lift, py_div. by destruct (sims =? 0).
Qed.

Lemma make_children_not_stuck (i : nat) (s : State) (pl : Z) :
  forall todo cs acts (w : world State),
  game_never_stuck (game self) ->
  make_children self i s pl todo cs acts w <> Raise Stuck.
Proof.
  induction todo as [|a todo IH]; intros cs acts w Hg; [done|].
  simpl. unfold bind, lift.
  destruct (make_transition pl a s) as [[[ns rew] dn]|e] eqn:Ht.
  - apply IH, Hg.
  - intros E. inversion E; subst. destruct Hg as [_ Hg]. by apply (Hg pl a s).
Qed.

Lemma expand_not_stuck (i : nat) (nd : node) (pl : Z) (w : world State) :
  game_never_stuck (game self) ->
  expand self draw i nd pl w <> Raise Stuck.
Proof.
  intros Hg. unfold expand, bind, lift.
  destruct (get_possible_actions pl (state nd)) as [acts|e] eqn:Ha.
  2:{ intros E. inversion E; subst. destruct Hg as [Hg _]. by apply (Hg pl (state nd)). }
  pose proof (make_children_not_stuck i (state nd) pl acts [] [] w Hg) as Hm.
  destruct (make_children _ _ _ _ _ _ _ _) as [[[cs acts'] w1]|e]; [|congruence].
  simpl. unfold choice. by destruct (cs !! _).
Qed.

Lemma expansion_spec (j : nat) (pl : Z) (w : world State) (ndj : node) :
  tree_inv (heap w) -> heap w !! j = Some ndj ->
  children_nodes ndj = [] -> player_to_move ndj = pl ->
  match expansion self draw j pl w with
  | Ok (x, w') =>
      tree_inv (heap w') /\ x < length (heap w')
      /\ grows (heap w) (heap w')
      /\ visits (heap w') 0 = visits (heap w) 0
      /\ (j = 0 ->
          exists acts r',
            get_possible_actions (TwoPlayerGame := game self) pl (state ndj)
              = Ok acts
            /\ acts <> [] /\ heap w' !! 0 = Some r' /\ actions r' = acts)
  | Raise e => game_never_stuck (game self) -> e <> Stuck
  end.
Proof.
  intros Hi Hj Hleaf Hpl. unfold expansion, bind, get_node. rewrite Hj.
  pose proof (lookup_lt_Some _ _ _ Hj) as Hjlt.
  destruct (terminal ndj) eqn:Hterm; simpl.
  - split; [done|]. split; [done|]. split; [apply grows_refl|].
    split; [done|]. intros ->.
    destruct (inv_root _ Hi) as (r & Hr & _ & Hrt). congruence.
  - destruct w as [h k]. simpl in *.
    destruct (expand self draw j ndj pl (mkWorld h k)) as [[x w']|e] eqn:He.
    + apply expand_spec in He
        as (news & acts & Ha & Hh & Hr & Hlen & Hall & Hx).
      rewrite Hh. apply elem_of_seq in Hx.
      split; [by apply (expanded_inv h j ndj news acts pl)|].
      split; [rewrite expanded_length; lia|].
      split; [by apply expanded_grows|].
      split; [apply (visits_expanded_old h j ndj news acts Hj); lia|].
      intros ->. exists acts. eexists.
      split; [done|]. split; [|split; [by apply expanded_at|done]].
      intros ->. simpl in Hlen. lia.
    + intros Hg ->. by apply expand_not_stuck in He.
Qed.

(* one iteration on a tree: the tree invariant is kept, the root gains
   one visit, and no node changes its identity *)
Lemma iteration_spec (fuel : nat) (pl : Z) (sims : nat) (w : world State)
    (r : node) :
  tree_inv (heap w) -> heap w !! 0 = Some r -> player_to_move r = pl ->
  match iteration self np_sqrt np_log float32 draw fuel pl sims w with
  | Ok (_, w') =>
      tree_inv (heap w')
      /\ visits (heap w') 0 = visits (heap w) 0 + 1
      /\ grows (heap w) (heap w')
      /\ (children_nodes r = [] ->
          exists acts r',
            get_possible_actions (TwoPlayerGame := game self) pl (state r)
              = Ok acts
            /\ acts <> [] /\ heap w' !! 0 = Some r' /\ actions r' = acts)
  | Raise e => game_never_stuck (game self) -> e <> Stuck
  end.
Proof.
  intros Hi Hr Hpl. unfold iteration, bind, heap_size.
  pose proof (descend_spec (length (heap w)) 0 pl w r Hi) as Hd.
  destruct (descend _ _ _ _ _ _ _ _ _) as [[[j pl'] w1]|e].
  2:{ intros _. apply Hd; [lia|done|done]. }
  destruct Hd as (Hw1 & Hj0 & ndj & Hj & Hleaf & Hplj); [lia|done|done|].
  pose proof (expansion_spec j pl' w1 ndj) as He. rewrite Hw1 in He.
  specialize (He Hi Hj Hleaf Hplj).
  destruct (expansion self draw j pl' w1) as [[x w2]|e]; [|done].
  destruct He as (Hi2 & Hx & Hg2 & Hv2 & Hroot2).
  pose proof (evaluation_keeps_heap fuel x sims w2
                (lookup_lt_is_Some_2 _ _ Hx)) as Hev.
  destruct (evaluation self draw fuel x sims w2) as [[val w3]|e]; [|done].
  destruct w3 as [h3 k3]. simpl in Hev. subst h3. simpl.
  destruct (backprop_spec val k3 (length (heap w2)) (heap w2) x)
    as (h4 & Hb & Hva); [by apply tree_inv_parents_below|done|done|].
  rewrite Hb. simpl.
  split; [by apply (visited_along_inv val (heap w2) h4 x)|].
  split.
  { rewrite (visited_along_root val (heap w2) h4 x) by done. lia. }
  split.
  { eapply grows_trans; [exact Hg2|by eapply visited_along_grows]. }
  intros Hrl. specialize (Hj0 Hrl). subst j.
  assert (ndj = r) as -> by congruence.
  destruct Hroot2 as (acts & r2 & Ha & Hne & Hr2 & Hacts); [done|].
  assert (pl' = pl) as -> by congruence.
  exists acts. eexists.
  split; [done|]. split; [done|].
  split; [by apply (visited_along_fwd val _ (heap w2) h4 Hva 0 r2)|].
  by destruct (decide _).
Qed.

End SearchFacts.

(* --------------------------------------------------------------------- *)
(*  The search loop                                                       *)
(* --------------------------------------------------------------------- *)

Section RunFacts.
Local Open Scope mcts_scope.
Local Open Scope nat_scope.
Context {State : Type}.
Variable self : TwoPlayerMCTS State.
Variables np_sqrt np_log : Q -> Q.
Variable float32 : Q -> score.
Variable draw : nat -> nat.
Local Abbreviation node := (MCTSNode State).

Lemma tree_inv_init (s : State) (pl : Z) :
  tree_inv [new_MCTSNode s pl None false 0%Q].
Proof.
  constructor.
  - eexists. by repeat split.
  - intros [|i] nd p Hn Hp; [by inversion Hn; subst|done].
  - intros [|i] nd Hn _; [done|done].
  - intros [|i] nd c Hn Hc; [|done]. inversion Hn; subst.
    by apply elem_of_nil in Hc.
  - intros [|i] nd Hn; [|done]. inversion Hn; subst. constructor.
  - intros [|i] nd Hn _; [|done]. by inversion Hn; subst.
  - intros [|i] nd Hn; [|done]. by inversion Hn; subst.
  - intros [|i] nd p pn Hn Hp; [by inversion Hn; subst|done].
  - intros [|i] nd Hn; [|done]. by inversion Hn; subst.
Qed.

Lemma iterations_spec (fuel : nat) (pl : Z) (sims : nat) (w0 : world State)
    (r0 : node) :
  tree_inv (heap w0) -> heap w0 !! 0 = Some r0 -> player_to_move r0 = pl ->
  forall N,
  match iterations self np_sqrt np_log float32 draw fuel pl sims N w0 with
  | Ok (_, w) =>
      tree_inv (heap w)
      /\ visits (heap w) 0 = visits (heap w0) 0 + N
      /\ grows (heap w0) (heap w)
      /\ (N = 0 -> w = w0)
      /\ (0 < N -> children_nodes r0 = [] ->
          exists acts r,
            get_possible_actions (TwoPlayerGame := game self) pl (state r0)
              = Ok acts
            /\ acts <> [] /\ heap w !! 0 = Some r /\ actions r = acts)
  | Raise e => game_never_stuck (game self) -> e <> Stuck
  end.
Proof.
  intros Hi Hr Hpl. induction N as [|N IH].
  - simpl. split; [done|]. split; [lia|]. split; [apply grows_refl|].
    split; [done|lia].
  - simpl. unfold bind.
    destruct (iterations _ _ _ _ _ _ _ _ N w0) as [[[] w1]|e]; [|done].
    destruct IH as (Hi1 & Hv1 & Hg1 & Hz1 & Hroot1).
    destruct (Hg1 0 r0 Hr) as (r1 & Hr1 & Hs1 & Hp1 & _ & _ & _ & Hkeep1).
    pose proof (iteration_spec self np_sqrt np_log float32 draw fuel pl sims
                  w1 r1 Hi1 Hr1) as Hit.
    destruct (iteration _ _ _ _ _ _ _ _ w1) as [[[] w2]|e].
    2:{ apply Hit. congruence. }
    destruct Hit as (Hi2 & Hv2 & Hg2 & Hroot2); [congruence|].
    split; [done|]. split; [lia|].
    split; [by eapply grows_trans|]. split; [lia|].
    intros _ Hleaf0. destruct N as [|N].
    + rewrite Hz1 in * by done.
      assert (r1 = r0) as -> by congruence.
      destruct (Hroot2 Hleaf0) as (acts & r2 & Ha & Hne & Hr2 & Hacts).
      exists acts, r2. done.
    + destruct Hroot1 as (acts & r1' & Ha & Hne & Hr1' & Hacts); [lia|done|].
      assert (r1' = r1) as -> by congruence.
      assert (Hc1 : children_nodes r1 <> []).
      { pose proof (inv_actions _ Hi1 0 r1 Hr1) as Hl.
        intros E. rewrite E, Hacts in Hl. by destruct acts. }
      destruct (Hg2 0 r1 Hr1) as (r2 & Hr2 & _ & _ & _ & _ & _ & Hkeep2).
      destruct (Hkeep2 Hc1) as [_ Ha2].
      exists acts, r2. repeat split; try done. congruence.
Qed.

(* what holds of every tree that run returns *)
Lemma run_spec (fuel : nat) (s : State) (pl : Z) (N sims seed : nat)
    (w : world State) :
  run self np_sqrt np_log float32 draw fuel s pl N sims seed = Ok w ->
  tree_inv (heap w)
  /\ visits (heap w) 0 = N
  /\ (exists r, heap w !! 0 = Some r /\ state r = s /\ player_to_move r = pl)
  /\ (N = 0 -> heap w = [new_MCTSNode s pl None false 0%Q])
  /\ (0 < N ->
      exists acts r,
        get_possible_actions (TwoPlayerGame := game self) pl s = Ok acts
        /\ acts <> [] /\ heap w !! 0 = Some r /\ actions r = acts).
Proof.
  unfold run. intros H.
  pose proof (iterations_spec fuel pl sims
                (mkWorld [new_MCTSNode s pl None false 0%Q] seed)
                (new_MCTSNode s pl None false 0%Q)
                (tree_inv_init s pl) eq_refl eq_refl N) as Hs.
  destruct (iterations _ _ _ _ _ _ _ _ N _) as [[[] w1]|e]; [|done].
  inversion H; subst w1. simpl in Hs.
  destruct Hs as (Hi & Hv & Hg & Hz & Hroot).
  split; [done|]. split; [done|]. split; [|split].
  - destruct (Hg 0 _ eq_refl) as (r & Hr & Hst & Hp & _). eauto.
  - intros ->. by rewrite Hz.
  - intros HN. by apply Hroot.
Qed.

(* the model's own error never comes out of run *)
Lemma run_never_stuck (fuel : nat) (s : State) (pl : Z) (N sims seed : nat) :
  game_never_stuck (game self) ->
  run self np_sqrt np_log float32 draw fuel s pl N sims seed <> Raise Stuck.
Proof.
  intros Hg. unfold run.
  pose proof (iterations_spec fuel pl sims
                (mkWorld [new_MCTSNode s pl None false 0%Q] seed)
                (new_MCTSNode s pl None false 0%Q)
                (tree_inv_init s pl) eq_refl eq_refl N) as Hs.
  destruct (iterations _ _ _ _ _ _ _ _ N _) as [[[] w1]|e]; [done|].
  intros E. inversion E; subst. by apply Hs.
Qed.

End RunFacts.

(* --------------------------------------------------------------------- *)
(*  Backpropagation on a tree                                             *)
(* --------------------------------------------------------------------- *)

Section BackpropTheorem.
Local Open Scope mcts_scope.
Local Open Scope nat_scope.
Context {State : Type}.
Local Abbreviation node := (MCTSNode State).

(* with two players at the root, every node is to be moved by player 0
   or by player 1 *)
Lemma players_binary (h : list node) (r : node) :
  tree_inv h -> h !! 0 = Some r ->
  (player_to_move r = 0 \/ player_to_move r = 1)%Z ->
  forall i nd, h !! i = Some nd ->
               (player_to_move nd = 0 \/ player_to_move nd = 1)%Z.
Proof.
  intros Hi Hr Hpr i. induction i as [i IH] using lt_wf_ind. intros nd Hn.
  destruct (parent nd) as [p|] eqn:Hp.
  - destruct (inv_parent h Hi i nd p Hn Hp) as (Hlt & pn & Hpn & _).
    rewrite (inv_player h Hi i nd p pn Hn Hp Hpn). unfold change_player_idx.
    destruct (IH p Hlt pn Hpn) as [-> | ->]; [by right|by left].
  - rewrite (inv_orphan h Hi i nd Hn Hp) in Hn. congruence.
Qed.

(** C2: on a tree, backpropagation from the evaluated node x succeeds and
    walks the parent links from x up to the root, id 0, inclusive; each
    node on that path gets n_visits + 1 and the value added to its
    accumulated_value, subtracted instead when its player_to_move is 1
    and added as it is when its player_to_move is 0; its other fields,
    and every node off the path, are unchanged. *)
Theorem backprop_updates_path_to_root
    (h : list node) (x : nat) (v : Q) (k : nat) :
  tree_inv h -> x < length h ->
  let P := path_to_root h x in
  exists h',
    backprop (length h) (Some x) v (mkWorld h k) = Ok (tt, mkWorld h' k)
    /\ length h' = length h
    /\ P !! 0 = Some x /\ last P = Some 0 /\ NoDup P
    /\ (forall j a b, P !! j = Some a -> P !! (S j) = Some b ->
          exists nd, h !! a = Some nd /\ parent nd = Some b)
    /\ (forall i nd, i ∈ P -> h !! i = Some nd ->
          exists nd',
            h' !! i = Some nd'
            /\ n_visits nd' = n_visits nd + 1
            /\ accumulated_value nd'
               = (if (player_to_move nd =? 0)%Z
                  then (accumulated_value nd + v)%Q
                  else (accumulated_value nd - v)%Q)
            /\ (player_to_move nd = 1%Z ->
                accumulated_value nd' = (accumulated_value nd + - v)%Q)
            /\ (player_to_move nd = 0%Z ->
                accumulated_value nd' = (accumulated_value nd + v)%Q)
            /\ state nd' = state nd
            /\ player_to_move nd' = player_to_move nd
            /\ actions nd' = actions nd
            /\ children_nodes nd' = children_nodes nd
            /\ parent nd' = parent nd
            /\ terminal nd' = terminal nd
            /\ terminal_reward nd' = terminal_reward nd)
    /\ (forall i, i ∉ P -> h' !! i = h !! i)
    /\ (forall r, h !! 0 = Some r ->
          (player_to_move r = 0 \/ player_to_move r = 1)%Z ->
          forall i nd, h !! i = Some nd ->
                       (player_to_move nd = 0 \/ player_to_move nd = 1)%Z).
Proof.
  intros Hi Hx P.
  pose proof (tree_inv_parents_below h Hi) as Hpb.
  destruct (backprop_spec v k (length h) h x Hpb Hx Hx) as (h' & Hb & Hlen & Hl).
  exists h'. split; [done|]. split; [done|].
  split; [apply chain_head; lia|].
  split; [apply chain_last; try done; apply Hi|].
  split; [by apply chain_NoDup|].
  split; [apply chain_linked|].
  split; [|split].
  - intros i nd HiP Hn. exists (visit v nd).
    split; [by rewrite Hl, decide_True, Hn|].
    split; [done|]. split; [done|]. split; [|split].
    + intros E. simpl. by rewrite E.
    + intros E. simpl. by rewrite E.
    + repeat split; done.
  - intros i HiP. by rewrite Hl, decide_False.
  - intros r Hr Hpr. by apply players_binary with r.
Qed.

End BackpropTheorem.

Lemma example_tree_inv : tree_inv example_tree.
Proof.
  unfold example_tree.
  destruct (ttt_run 20 TicTacToe.get_initial_state 0 3 2 0) as [w|e] eqn:E.
  - by apply run_spec in E as [? _].
  - vm_compute in E. discriminate.
Qed.

Lemma backprop_updates_path_to_root_witness :
  exists h',
    backprop (length example_tree) (Some 12%nat) (1 # 2)%Q
      (mkWorld example_tree 0) = Ok (tt, mkWorld h' 0%nat)
    /\ length h' = length example_tree
    /\ path_to_root example_tree 12 = [12%nat; 2%nat; 0%nat].
Proof.
  destruct (backprop_updates_path_to_root example_tree 12 (1 # 2)%Q 0
              example_tree_inv ltac:(vm_compute; lia))
    as (h' & Hb & Hlen & _).
  exists h'. split; [exact Hb|]. split; [exact Hlen|]. reflexivity.
Defined.

(* --------------------------------------------------------------------- *)
(*  The tree that run returns                                             *)
(* --------------------------------------------------------------------- *)

Section RunTheorems.
Local Open Scope mcts_scope.
Local Open Scope nat_scope.
Context {State : Type}.
Variable self : TwoPlayerMCTS State.
Variables np_sqrt np_log : Q -> Q.
Variable float32 : Q -> score.
Variable draw : nat -> nat.
Local Abbreviation node := (MCTSNode State).
Local Abbreviation run' := (run self np_sqrt np_log float32 draw).
Local Abbreviation best' := (get_best_action self np_sqrt np_log float32 draw).

(** C3: in the tree that run returns for the budget N, the root has
    n_visits = N, and every node other than the root has a parent in the
    tree whose n_visits is at least its own; the same holds between a
    node and each id in its children_nodes. *)
Theorem run_visit_counts (fuel : nat) (s : State) (pl : Z)
    (N sims seed : nat) (w : world State) :
  run' fuel s pl N sims seed = Ok w ->
  (exists root, heap w !! 0 = Some root /\ n_visits root = N
                /\ parent root = None)
  /\ (forall i nd, heap w !! i = Some nd -> i <> 0 ->
        exists p pn, parent nd = Some p /\ heap w !! p = Some pn
                     /\ n_visits nd <= n_visits pn)
  /\ (forall i nd c, heap w !! i = Some nd -> c ∈ children_nodes nd ->
        exists cn, heap w !! c = Some cn /\ parent cn = Some i
                   /\ n_visits cn <= n_visits nd).
Proof.
  intros H. apply run_spec in H as (Hi & Hv & _).
  split; [|split].
  - destruct (inv_root _ Hi) as (r & Hr & Hp & _).
    exists r. split; [done|]. split; [|done].
    unfold visits in Hv. by rewrite Hr in Hv.
  - intros i nd Hn Hne.
    destruct (parent nd) as [p|] eqn:Hp.
    + destruct (inv_parent _ Hi i nd p Hn Hp) as (_ & pn & Hpn & Hle).
      exists p, pn. done.
    + by destruct Hne; apply (inv_orphan _ Hi i nd).
  - intros i nd c Hn Hc.
    destruct (inv_children _ Hi i nd c Hn Hc) as (cn & Hcn & Hp).
    destruct (inv_parent _ Hi c cn i Hcn Hp) as (_ & pn & Hpn & Hle).
    exists cn. split; [done|]. split; [done|].
    assert (pn = nd) as -> by congruence. done.
Qed.

(** C4: a node created with done = true has no children in any tree
    that run returns; the expansion step leaves it and the tree as they
    are and hands the node itself to the evaluation; and the evaluation
    of a terminal node is its stored terminal_reward, whatever the number
    of simulations, without a draw and without a change of the world, so
    that the iteration backpropagates exactly that reward. *)
Theorem terminal_nodes_are_final :
  (forall fuel s pl N sims seed w i nd,
     run' fuel s pl N sims seed = Ok w ->
     heap w !! i = Some nd -> terminal nd = true ->
     children_nodes nd = [])
  /\ (forall (w : world State) i nd pl,
     heap w !! i = Some nd -> terminal nd = true ->
     expansion self draw i pl w = Ok (i, w))
  /\ (forall fuel sims (w : world State) x nd,
     heap w !! x = Some nd -> terminal nd = true ->
     evaluation self draw fuel x sims w = Ok (terminal_reward nd, w))
  /\ (forall fuel pl sims (w w0 w1 : world State) i pl' x nd,
     descend self np_sqrt np_log float32 draw (length (heap w)) 0 pl w
       = Ok ((i, pl'), w0) ->
     expansion self draw i pl' w0 = Ok (x, w1) ->
     heap w1 !! x = Some nd -> terminal nd = true ->
     iteration self np_sqrt np_log float32 draw fuel pl sims w
     = backprop (length (heap w1)) (Some x) (terminal_reward nd) w1).
Proof.
  split; [|split; [|split]].
  - intros fuel s pl N sims seed w i nd H Hn Ht.
    apply run_spec in H as (Hi & _). by apply (inv_terminal _ Hi i nd).
  - intros w i nd pl Hn Ht. unfold expansion, bind, get_node.
    by rewrite Hn, Ht.
  - intros fuel sims w x nd Hn Ht. unfold evaluation, bind, get_node.
    by rewrite Hn, Ht.
  - intros fuel pl sims w w0 w1 i pl' x nd Hd He Hn Ht.
    unfold iteration, bind, heap_size. rewrite Hd, He.
    unfold evaluation, bind, get_node. by rewrite Hn, Ht.
Qed.

Lemma comprehension_zero_division (h : list node) :
  forall cs,
  (forall c, c ∈ cs -> is_Some (h !! c)) ->
  (exists c, c ∈ cs /\ visits h c = 0) ->
  comprehension (child_ratio h) cs = Raise ZeroDivisionError.
Proof.
  induction cs as [|c t IH]; intros Hin (z & Hz & Hv).
  { by apply elem_of_nil in Hz. }
  simpl. unfold child_ratio at 1.
  destruct (Hin c) as [n Hn]; [apply list_elem_of_here|]. rewrite Hn.
  unfold py_div. destruct (Nat.eqb_spec (n_visits n) 0) as [E|E]; [done|].
  simpl. rewrite IH; [done| |].
  - intros c' Hc'. by apply Hin, list_elem_of_further.
  - apply elem_of_cons in Hz as [->|Hz]; [|eauto].
    unfold visits in Hv. rewrite Hn in Hv. lia.
Qed.

Lemma count_visited_short (h : list node) :
  forall cs, count_visited h cs < length cs ->
             exists c, c ∈ cs /\ visits h c = 0.
Proof.
  induction cs as [|c t IH]; simpl; intros Hlt; [lia|].
  destruct (Nat.ltb_spec 0 (visits h c)) as [Hv|Hv].
  - destruct IH as (z & Hz & Hvz); [lia|].
    exists z. split; [by apply list_elem_of_further|done].
  - exists c. split; [apply list_elem_of_here|lia].
Qed.

(* a child of the root without visits makes the final division fail *)
Lemma zero_visit_child_raises (fuel : nat) (s : State) (pl : Z)
    (N sims seed : nat) (w : world State) (r : node) :
  run' fuel s pl N sims seed = Ok w -> heap w !! 0 = Some r ->
  (exists c, c ∈ children_nodes r /\ visits (heap w) c = 0) ->
  best' fuel s pl N sims seed = Raise ZeroDivisionError.
Proof.
  intros H Hr Hz. unfold get_best_action. rewrite H. simpl. rewrite Hr.
  apply run_spec in H as (Hi & _).
  rewrite comprehension_zero_division; [done| |done].
  intros c Hc. destruct (inv_children _ Hi 0 r c Hr Hc) as (cn & -> & _).
  eauto.
Qed.

(* fewer iterations than legal actions leave a child of the root
   without visits *)
Lemma small_budget_leaves_unvisited_child (fuel : nat) (s : State) (pl : Z)
    (N sims seed : nat) (w : world State) (r : node) (acts : list Z) :
  run' fuel s pl N sims seed = Ok w -> heap w !! 0 = Some r ->
  get_possible_actions (TwoPlayerGame := game self) pl s = Ok acts ->
  1 <= N -> N < length acts ->
  exists c, c ∈ children_nodes r /\ visits (heap w) c = 0.
Proof.
  intros H Hr Ha HN Hlt.
  apply run_spec in H as (Hi & Hv & _ & _ & Hroot).
  destruct Hroot as (acts' & r' & Ha' & _ & Hr' & Hacts); [lia|].
  assert (r' = r) as -> by congruence.
  assert (acts' = acts) as -> by congruence.
  apply count_visited_short.
  pose proof (inv_count _ Hi 0 r Hr) as Hc.
  pose proof (inv_actions _ Hi 0 r Hr) as Hl.
  unfold visits in Hv. rewrite Hr in Hv. rewrite <- Hl, Hacts. lia.
Qed.

(** C6, as amended: when the search returns a tree in which a child of
    the root has n_visits = 0, get_best_action raises ZeroDivisionError
    instead of returning an action; and such a child exists whenever the
    search returns with a budget of at least 1 that is smaller than the
    number of legal actions at the root. *)
Theorem unvisited_root_child_divides_by_zero (fuel : nat) (s : State)
    (pl : Z) (N sims seed : nat) (w : world State) (r : node) :
  run' fuel s pl N sims seed = Ok w -> heap w !! 0 = Some r ->
  ((exists c, c ∈ children_nodes r /\ visits (heap w) c = 0) ->
     best' fuel s pl N sims seed = Raise ZeroDivisionError)
  /\ (forall acts,
        get_possible_actions (TwoPlayerGame := game self) pl s = Ok acts ->
        1 <= N -> N < length acts ->
        (exists c, c ∈ children_nodes r /\ visits (heap w) c = 0)
        /\ best' fuel s pl N sims seed = Raise ZeroDivisionError).
Proof.
  intros H Hr. split.
  - by apply (zero_visit_child_raises fuel s pl N sims seed w r).
  - intros acts Ha HN Hlt.
    pose proof (small_budget_leaves_unvisited_child fuel s pl N sims seed
                  w r acts H Hr Ha HN Hlt) as Hz.
    split; [exact Hz|].
    by apply (zero_visit_child_raises fuel s pl N sims seed w r).
Qed.

Lemma argmin_from_spec :
  forall (t pre : list Q) (bi : nat) (b : Q),
  pre !! bi = Some b ->
  (forall z, z ∈ pre -> (b <= z)%Q) ->
  exists y, (pre ++ t) !! argmin_from t (length pre) bi b = Some y
            /\ forall z, z ∈ pre ++ t -> (y <= z)%Q.
Proof.
  induction t as [|x t IH]; intros pre bi b Hb Hlow; simpl.
  - exists b. rewrite app_nil_r. done.
  - replace (pre ++ x :: t) with ((pre ++ [x]) ++ t) by (by rewrite <- app_assoc).
    replace (S (length pre)) with (length (pre ++ [x]))
      by (rewrite length_app; simpl; lia).
    destruct (Qle_bool b x) eqn:E.
    + apply IH.
      * by apply lookup_app_l_Some.
      * intros z Hz. apply elem_of_app in Hz as [Hz|Hz]; [by apply Hlow|].
        apply list_elem_of_singleton in Hz as ->. by apply Qle_bool_iff.
    + assert (Hlt : (x < b)%Q).
      { apply Qnot_le_lt. intros Hle. apply Qle_bool_iff in Hle. congruence. }
      apply IH.
      * rewrite lookup_app_r by lia. by rewrite Nat.sub_diag.
      * intros z Hz. apply elem_of_app in Hz as [Hz|Hz].
        -- apply Qle_trans with b; [by apply Qlt_le_weak|by apply Hlow].
        -- apply list_elem_of_singleton in Hz as ->. apply Qle_refl.
Qed.

Lemma argmin_spec (l : list Q) :
  l <> [] ->
  exists j y, argmin l = Ok j /\ l !! j = Some y
              /\ forall z, z ∈ l -> (y <= z)%Q.
Proof.
  destruct l as [|x t]; [done|]. intros _.
  destruct (argmin_from_spec t [x] 0 x eq_refl) as (y & Hy & Hlow).
  { intros z Hz. apply list_elem_of_singleton in Hz as ->. apply Qle_refl. }
  exists (argmin_from t 1 0 x), y. done.
Qed.

Lemma comprehension_ratios (h : list node) :
  forall cs,
  (forall c, c ∈ cs -> exists n, h !! c = Some n /\ n_visits n <> 0) ->
  exists scores,
    comprehension (child_ratio h) cs = Ok scores
    /\ Forall2 (fun c q => exists n, h !! c = Some n
                  /\ q = (accumulated_value n / Qnat (n_visits n))%Q) cs scores.
Proof.
  induction cs as [|c t IH]; intros Hc.
  - exists []. split; [done|constructor].
  - destruct (Hc c) as (n & Hn & Hv); [apply list_elem_of_here|].
    destruct IH as (scores & Hs & Hall).
    { intros c' Hc'. by apply Hc, list_elem_of_further. }
    exists ((accumulated_value n / Qnat (n_visits n))%Q :: scores). split.
    + simpl. unfold child_ratio at 1. rewrite Hn. unfold py_div.
      destruct (Nat.eqb_spec (n_visits n) 0); [done|]. simpl. by rewrite Hs.
    + constructor; [eauto|done].
Qed.

(* when the search returns and every child of the root was visited,
   get_best_action returns the action of a child of least ratio *)
Lemma get_best_action_all_visited (fuel : nat) (s : State) (pl : Z)
    (N sims seed : nat) (w : world State) (r : node) :
  run' fuel s pl N sims seed = Ok w -> heap w !! 0 = Some r ->
  children_nodes r <> [] ->
  (forall c, c ∈ children_nodes r -> visits (heap w) c <> 0) ->
  exists j a c n,
    best' fuel s pl N sims seed = Ok a
    /\ actions r !! j = Some a /\ children_nodes r !! j = Some c
    /\ heap w !! c = Some n
    /\ forall c' n', c' ∈ children_nodes r -> heap w !! c' = Some n' ->
         (accumulated_value n / Qnat (n_visits n)
          <= accumulated_value n' / Qnat (n_visits n'))%Q.
Proof.
  intros H Hr Hne Hvis. unfold get_best_action. rewrite H. simpl. rewrite Hr.
  apply run_spec in H as (Hi & _).
  destruct (comprehension_ratios (heap w) (children_nodes r))
    as (scores & Hs & Hall).
  { intros c Hc. destruct (inv_children _ Hi 0 r c Hr Hc) as (cn & Hcn & _).
    exists cn. split; [done|]. specialize (Hvis c Hc).
    unfold visits in Hvis. by rewrite Hcn in Hvis. }
  rewrite Hs. simpl.
  assert (Hsne : scores <> []).
  { intros ->. inversion Hall as [Hnil|]. congruence. }
  destruct (argmin_spec scores Hsne) as (j & y & Hj & Hy & Hlow).
  rewrite Hj. simpl.
  destruct (Forall2_lookup_r _ _ _ _ _ Hall Hy) as (c & Hc & n & Hn & Hq).
  pose proof (inv_actions _ Hi 0 r Hr) as Hlen.
  assert (Hjlt : j < length (actions r)).
  { rewrite Hlen. by eapply lookup_lt_Some. }
  apply lookup_lt_is_Some_2 in Hjlt as [a Ha].
  exists j, a, c, n. rewrite Ha.
  repeat split; try done.
  intros c' n' Hc' Hn'. rewrite <- Hq.
  apply list_elem_of_lookup in Hc' as [j' Hj'].
  destruct (Forall2_lookup_l _ _ _ _ _ Hall Hj') as (q' & Hq' & n2 & Hn2 & ->).
  assert (n2 = n') as -> by congruence.
  apply Hlow. apply list_elem_of_lookup. eauto.
Qed.

(* without a legal action at the root the first iteration fails in the
   random choice over the empty list of children *)
Lemma iterations_no_actions (fuel : nat) (s : State) (pl : Z)
    (sims seed : nat) :
  get_possible_actions (TwoPlayerGame := game self) pl s = Ok [] ->
  forall N,
  iterations self np_sqrt np_log float32 draw fuel pl sims (S N)
    (mkWorld [new_MCTSNode s pl None false 0%Q] seed)
  = Raise (ValueError "'a' cannot be empty unless no samples are taken").
Proof.
  intros Ha. induction N as [|N IH].
  - cbn -[get_possible_actions]. unfold bind, lift. simpl.
    unfold expansion, bind, get_node. simpl.
    unfold expand, bind, lift. simpl. by rewrite Ha.
  - change (iterations self np_sqrt np_log float32 draw fuel pl sims (S (S N)))
      with (bind (iterations self np_sqrt np_log float32 draw fuel pl sims (S N))
              (fun _ => iteration self np_sqrt np_log float32 draw fuel pl sims)).
    unfold bind at 1. by rewrite IH.
Qed.

(* get_best_action on a state without legal actions: the error of the
   random choice for a positive budget, the error of argmin for budget 0 *)
Lemma get_best_action_no_actions (fuel : nat) (s : State) (pl : Z)
    (N sims seed : nat) :
  get_possible_actions (TwoPlayerGame := game self) pl s = Ok [] ->
  best' fuel s pl N sims seed
  = match N with
    | O => Raise (ValueError "attempt to get argmin of an empty sequence")
    | S _ => Raise (ValueError "'a' cannot be empty unless no samples are taken")
    end.
Proof.
  intros Ha. unfold get_best_action, run. destruct N as [|N]; [done|].
  by rewrite iterations_no_actions.
Qed.

End RunTheorems.

(* --------------------------------------------------------------------- *)
(*  The theorems at concrete inputs                                       *)
(* --------------------------------------------------------------------- *)



Lemma run_visit_counts_witness :
  exists w root,
    ttt_run 20 TicTacToe.get_initial_state 0 3 2 0 = Ok w
    /\ heap w !! 0%nat = Some root /\ n_visits root = 3%nat.
Proof.
  destruct (ttt_run 20 TicTacToe.get_initial_state 0 3 2 0) as [w|e] eqn:E.
  - destruct (run_visit_counts ttt_engine sqrt_approx log_approx
                float32_exact lcg
                20 TicTacToe.get_initial_state 0 3 2 0 w E)
      as ((root & Hr & Hn & _) & _).
    exists w, root. split; [reflexivity|]. split; [exact Hr|exact Hn].
  - vm_compute in E. discriminate.
Defined.

Lemma terminal_nodes_are_final_witness :
  exists w nd,
    ttt_run 20 endgame_board 0 2 3 0 = Ok w
    /\ heap w !! 1%nat = Some nd /\ terminal nd = true
    /\ children_nodes nd = []
    /\ evaluation ttt_engine lcg 0 1 0 w = Ok (terminal_reward nd, w).
Proof.
  eexists. eexists.
  split; [vm_compute; reflexivity|].
  split; [reflexivity|]. split; [reflexivity|]. split.
  - eapply (proj1 (terminal_nodes_are_final ttt_engine sqrt_approx log_approx
                    
              float32_exact lcg) 20%nat endgame_board 0%Z 2%nat 3%nat 0%nat
              _ 1%nat _).
    + vm_compute. reflexivity.
    + reflexivity.
    + reflexivity.
  - apply (proj1 (proj2 (proj2 (terminal_nodes_are_final ttt_engine
                                  sqrt_approx log_approx float32_exact lcg)))).
    + reflexivity.
    + reflexivity.
Defined.

Lemma unvisited_root_child_divides_by_zero_witness :
  exists w r,
    ttt_run 20 TicTacToe.get_initial_state 0 1 5 0 = Ok w
    /\ heap w !! 0%nat = Some r
    /\ (exists c, c ∈ children_nodes r /\ visits (heap w) c = 0%nat)
    /\ ttt_best_action 20 TicTacToe.get_initial_state 0 1 5 0
       = Raise ZeroDivisionError.
Proof.
  eexists. eexists.
  split; [vm_compute; reflexivity|].
  split; [reflexivity|].
  eapply (proj2 (unvisited_root_child_divides_by_zero ttt_engine sqrt_approx
                   log_approx
                   float32_exact lcg 20 TicTacToe.get_initial_state 0 1 5 0
                   _ _ _ _)).
  - reflexivity.
  - lia.
  - simpl. lia.
  Unshelve.
  + vm_compute. reflexivity.
  + reflexivity.
Defined.

Lemma rollout_fails_fast_without_actions_witness :
  rollout ttt_engine lcg 1 (new_MCTSNode full_board 0 None false 0%Q) 1
    (mkWorld [new_MCTSNode full_board 0 None false 0%Q] 0)
  = Raise (AssertionError no_action_msg).
Proof.
  apply (proj1 (proj2 (rollout_fails_fast_without_actions ttt_engine lcg))).
  reflexivity.
Defined.

(** C6, the claim as stated fails at budget 0: the empty board has nine
    legal actions and 0 < 9, the search returns a root without children,
    so no child has n_visits = 0, and get_best_action raises the
    ValueError of argmin on an empty array, not a division by zero. *)
Lemma budget_zero_leaves_no_unvisited_child :
  get_possible_actions (TwoPlayerGame := TicTacToe_game) 0
    TicTacToe.get_initial_state = Ok [0; 1; 2; 3; 4; 5; 6; 7; 8]
  /\ ttt_run 20 TicTacToe.get_initial_state 0 0 5 0
     = Ok (mkWorld [new_MCTSNode TicTacToe.get_initial_state 0 None false 0%Q] 0)
  /\ children_nodes (new_MCTSNode TicTacToe.get_initial_state 0 None false 0%Q)
     = []
  /\ ttt_best_action 20 TicTacToe.get_initial_state 0 0 5 0
     = Raise (ValueError "attempt to get argmin of an empty sequence")
  /\ ttt_best_action 20 TicTacToe.get_initial_state 0 0 5 0
     <> Raise ZeroDivisionError.
Proof. repeat split; try reflexivity. discriminate. Qed.

(** C5, the failing input: on the empty board with budget 1 the search
    visits one of the nine children of the root, and get_best_action
    raises ZeroDivisionError instead of returning an action; for no
    fuel, number of simulations or seed does it return an action. *)
Theorem get_best_action_budget_one_raises :
  ttt_best_action 20 TicTacToe.get_initial_state 0 1 5 0
    = Raise ZeroDivisionError
  /\ forall fuel sims seed a,
       ttt_best_action fuel TicTacToe.get_initial_state 0 1 sims seed <> Ok a.
Proof.
  split; [by vm_compute|].
  intros fuel sims seed a.
  destruct (ttt_run fuel TicTacToe.get_initial_state 0 1 sims seed)
    as [w|e] eqn:E.
  - pose proof E as E'. apply run_spec in E' as (_ & _ & (r & Hr & _) & _).
    unfold ttt_best_action.
    rewrite (zero_visit_child_raises ttt_engine sqrt_approx log_approx
               float32_exact
               lcg fuel TicTacToe.get_initial_state 0 1 sims seed w r E Hr);
      [done|].
    apply (small_budget_leaves_unvisited_child ttt_engine sqrt_approx
             log_approx
             float32_exact lcg fuel TicTacToe.get_initial_state 0 1 sims
             seed w r [0; 1; 2; 3; 4; 5; 6; 7; 8] E Hr);
      [reflexivity|lia|simpl; lia].
  - unfold ttt_best_action, get_best_action.
    unfold ttt_run in E. by rewrite E.
Qed.

(** C7, the failing input: on a board without legal actions the engine
    has no check of its own; get_best_action raises the ValueError of
    the random choice over the empty list of children for a positive
    budget, and the ValueError of argmin on an empty array for budget 0. *)
Theorem get_best_action_full_board_raises (fuel N sims seed : nat) :
  ttt_best_action fuel full_board 0 (S N) sims seed
    = Raise (ValueError "'a' cannot be empty unless no samples are taken")
  /\ ttt_best_action fuel full_board 0 0 sims seed
    = Raise (ValueError "attempt to get argmin of an empty sequence").
Proof.
  split.
  - by apply (get_best_action_no_actions ttt_engine sqrt_approx log_approx
                float32_exact lcg fuel full_board 0 (S N) sims seed).
  - by apply (get_best_action_no_actions ttt_engine sqrt_approx log_approx
                float32_exact lcg fuel full_board 0 0 sims seed).
Qed.

(* --------------------------------------------------------------------- *)
(*  The example game never reports the model's own error                  *)
(* --------------------------------------------------------------------- *)

Module TicTacToeSafety.
Import TicTacToe.

Lemma rbind_not_stuck {A B} (r : result A) (k : A -> result B) :
  r <> Raise Stuck -> (forall a, k a <> Raise Stuck) ->
  rbind r k <> Raise Stuck.
Proof.
  intros Hr Hk. destruct r; simpl; [apply Hk|].
  intros E. apply Hr. by inversion E.
Qed.

Lemma cell_not_stuck (b : board) (r c : nat) : cell b r c <> Raise Stuck.
Proof. unfold cell. destruct (b !! r) as [row|]; [|done]. by destruct (row !! c). Qed.

Lemma marked_not_stuck (b : board) (m : Z) (rc : nat * nat) :
  marked b m rc <> Raise Stuck.
Proof. unfold marked. apply rbind_not_stuck; [apply cell_not_stuck|by intros v]. Qed.

Lemma py_all_not_stuck (l : list (result bool)) :
  Forall (fun r => r <> Raise Stuck) l -> py_all l <> Raise Stuck.
Proof.
  induction 1 as [|r l Hr _ IH]; simpl; [done|].
  apply rbind_not_stuck; [done|]. by intros [].
Qed.

Lemma py_all_marked_not_stuck (b : board) (m : Z) (f : nat -> nat * nat)
    (l : list nat) :
  py_all (map (fun i => marked b m (f i)) l) <> Raise Stuck.
Proof.
  apply py_all_not_stuck. apply Forall_forall. intros r Hr.
  apply list_elem_of_In, in_map_iff in Hr as (i & <- & _).
  apply marked_not_stuck.
Qed.

Lemma any_column_not_stuck (b : board) (m : Z) (cols : list nat) :
  any_column b m cols <> Raise Stuck.
Proof.
  induction cols as [|c cols IH]; cbn [any_column]; [done|].
  apply rbind_not_stuck.
  - apply (py_all_marked_not_stuck b m (fun row => (row, c))).
  - by intros [].
Qed.

Lemma check_victory_not_stuck (b : board) (m : Z) :
  _check_victory b m <> Raise Stuck.
Proof.
  unfold _check_victory. destruct (existsb _ _); [done|].
  apply rbind_not_stuck; [apply any_column_not_stuck|]. intros []; [done|].
  apply rbind_not_stuck.
  { apply (py_all_marked_not_stuck b m (fun i => (i, i))). }
  intros []; [done|].
  apply rbind_not_stuck.
  { apply (py_all_marked_not_stuck b m (fun i => (i, (2 - i)%nat))). }
  by intros [].
Qed.

Lemma scan_cols_not_stuck (b : board) (row : nat) (cols : list nat) :
  forall acc, scan_cols b row cols acc <> Raise Stuck.
Proof.
  induction cols as [|c cols IH]; intros acc; cbn [scan_cols]; [done|].
  apply rbind_not_stuck; [apply cell_not_stuck|]. intros v. apply IH.
Qed.

Lemma scan_rows_not_stuck (b : board) (rows : list nat) :
  forall acc, scan_rows b rows acc <> Raise Stuck.
Proof.
  induction rows as [|r rows IH]; intros acc; cbn [scan_rows]; [done|].
  apply rbind_not_stuck; [apply scan_cols_not_stuck|]. intros a. apply IH.
Qed.

Lemma make_transition_not_stuck (p a : Z) (b : board) :
  make_transition p a b <> Raise Stuck.
Proof.
  unfold make_transition, make_transition_in. simpl.
  destruct (negb _); [done|].
  pose proof (cell_not_stuck b (Z.to_nat (a / 3)) (Z.to_nat (a mod 3))) as Hc.
  destruct (cell _ _ _) as [v|e]; [|congruence].
  destruct (negb _); [done|]. simpl.
  pose proof (check_victory_not_stuck
                (set_cell b (Z.to_nat (a / 3)) (Z.to_nat (a mod 3)) (p + 1))
                (p + 1)) as Hv.
  destruct (_check_victory _ _) as [won|e]; simpl; [|congruence].
  destruct won; [done|]. by destruct (_is_draw _).
Qed.

Lemma TicTacToe_never_stuck : game_never_stuck TicTacToe_game.
Proof.
  split.
  - intros p s. apply scan_rows_not_stuck.
  - intros p a s. simpl. apply rbind_not_stuck.
    + apply make_transition_not_stuck.
    + by intros [[ns rew] dn].
Qed.

(* a search on the example game ends with a tree or with a Python error *)
Lemma ttt_run_never_stuck (fuel : nat) (s : board) (pl : Z)
    (N sims seed : nat) :
  ttt_run fuel s pl N sims seed <> Raise Stuck.
Proof. apply run_never_stuck, TicTacToe_never_stuck. Qed.

End TicTacToeSafety.

(* ===================================================================== *)
(*  Further properties of the example game                                *)
(* ===================================================================== *)

Module TicTacToeRules.
Import TicTacToe TicTacToeSpec.

(* a 3x3 grid is a list of three lists of three cells *)
Lemma well_formed_inv (b : board) :
  well_formed b ->
  exists c0 c1 c2 c3 c4 c5 c6 c7 c8,
    b = [[c0; c1; c2]; [c3; c4; c5]; [c6; c7; c8]].
Proof.
  intros [Hl Hr].
  destruct b as [|r0 [|r1 [|r2 [|]]]]; try discriminate.
  inversion Hr as [|? ? H0 Hr1]; subst.
  inversion Hr1 as [|? ? H1 Hr2]; subst.
  inversion Hr2 as [|? ? H2 _]; subst.
  destruct r0 as [|? [|? [|? [|]]]]; try discriminate.
  destruct r1 as [|? [|? [|? [|]]]]; try discriminate.
  destruct r2 as [|? [|? [|? [|]]]]; try discriminate.
  by do 9 eexists.
Qed.

Lemma get_possible_actions_empty_cells (p : Z) (b : board) :
  well_formed b -> get_possible_actions p b = Ok (empty_cells b).
Proof.
  intros Hw.
  destruct (well_formed_inv b Hw)
    as (c0 & c1 & c2 & c3 & c4 & c5 & c6 & c7 & c8 & ->).
  unfold get_possible_actions, empty_cells, is_empty_at, target. simpl.
  destruct (c0 =? 0), (c1 =? 0), (c2 =? 0), (c3 =? 0), (c4 =? 0),
    (c5 =? 0), (c6 =? 0), (c7 =? 0), (c8 =? 0); reflexivity.
Qed.

Lemma in_all_cells (a : Z) : In a all_cells <-> 0 <= a <= 8.
Proof. unfold all_cells. simpl. lia. Qed.

Lemma is_empty_at_true (b : board) (a : Z) :
  is_empty_at b a = true <-> target b a = Ok 0.
Proof.
  unfold is_empty_at. destruct (target b a) as [v|e]; [|done].
  rewrite Z.eqb_eq. split; [by intros ->|by intros [= ->]].
Qed.

Lemma empty_cells_elem (b : board) (a : Z) :
  a ∈ empty_cells b <-> 0 <= a <= 8 /\ target b a = Ok 0.
Proof.
  unfold empty_cells.
  by rewrite list_elem_of_In, filter_In, in_all_cells, is_empty_at_true.
Qed.

Lemma filter_StronglySorted {A} (R : A -> A -> Prop) (f : A -> bool) (l : list A) :
  StronglySorted R l -> StronglySorted R (List.filter f l).
Proof.
  induction 1 as [|x l Hs IH Hx]; simpl; [constructor|].
  destruct (f x); [|done]. constructor; [done|].
  apply Forall_forall. intros y Hy.
  apply list_elem_of_In, filter_In in Hy as [Hy _].
  rewrite Forall_forall in Hx. by apply Hx, list_elem_of_In.
Qed.

Lemma filter_NoDup {A} (f : A -> bool) (l : list A) :
  NoDup l -> NoDup (List.filter f l).
Proof.
  induction 1 as [|x l Hx Hl IH]; simpl; [constructor|].
  destruct (f x); [|done]. constructor; [|done].
  intros Hin. apply list_elem_of_In, filter_In in Hin as [Hin _].
  by apply list_elem_of_In in Hin.
Qed.

Lemma all_cells_sorted : StronglySorted Z.lt all_cells.
Proof. unfold all_cells. repeat constructor; lia. Qed.

Lemma all_cells_NoDup : NoDup all_cells.
Proof.
  unfold all_cells.
  repeat (constructor; [rewrite ?elem_of_cons, elem_of_nil; lia|]).
  constructor.
Qed.

(** X1: on a 3x3 board get_possible_actions returns, in increasing order
    and without repetition, exactly the indices 0..8 whose cell holds 0;
    the player index plays no part. *)
Theorem get_possible_actions_lists_empty_cells (p : Z) (b : board) :
  well_formed b ->
  exists acts,
    get_possible_actions p b = Ok acts
    /\ (forall a, a ∈ acts <-> 0 <= a <= 8 /\ target b a = Ok 0)
    /\ NoDup acts
    /\ StronglySorted Z.lt acts.
Proof.
  intros Hw. exists (empty_cells b).
  split; [by apply get_possible_actions_empty_cells|].
  split; [apply empty_cells_elem|]. split.
  - apply filter_NoDup, all_cells_NoDup.
  - apply filter_StronglySorted, all_cells_sorted.
Qed.

Lemma place_well_formed (b : board) (a m : Z) :
  well_formed b -> well_formed (place b a m).
Proof.
  intros [Hl Hr]. unfold place, set_cell.
  destruct (b !! Z.to_nat (a / 3)) as [r|] eqn:E; [|done].
  unfold well_formed, board in *.
  split; [by rewrite length_insert|].
  apply Forall_insert; [done|]. rewrite length_insert.
  rewrite Forall_forall in Hr. apply Hr. apply list_elem_of_lookup. eauto.
Qed.

Lemma check_victory_wins (b : board) (m : Z) :
  well_formed b -> _check_victory b m = Ok (wins b m).
Proof.
  intros Hw.
  destruct (well_formed_inv b Hw)
    as (c0 & c1 & c2 & c3 & c4 & c5 & c6 & c7 & c8 & ->).
  unfold _check_victory, wins, row_wins, holds. simpl.
  destruct (c0 =? m), (c1 =? m), (c2 =? m), (c3 =? m), (c4 =? m),
    (c5 =? m), (c6 =? m), (c7 =? m), (c8 =? m); reflexivity.
Qed.

Lemma is_draw_full (b : board) :
  well_formed b -> _is_draw b = full b.
Proof.
  intros Hw.
  destruct (well_formed_inv b Hw)
    as (c0 & c1 & c2 & c3 & c4 & c5 & c6 & c7 & c8 & ->).
  unfold _is_draw, full, is_empty_at, target. simpl.
  destruct (c0 =? 0), (c1 =? 0), (c2 =? 0), (c3 =? 0), (c4 =? 0),
    (c5 =? 0), (c6 =? 0), (c7 =? 0), (c8 =? 0); reflexivity.
Qed.

Lemma nine_cases (a : Z) :
  0 <= a <= 8 ->
  a = 0 \/ a = 1 \/ a = 2 \/ a = 3 \/ a = 4 \/ a = 5 \/ a = 6 \/ a = 7 \/ a = 8.
Proof. lia. Qed.

Lemma target_place (b : board) (a a' m : Z) :
  well_formed b -> 0 <= a <= 8 -> 0 <= a' <= 8 ->
  target (place b a m) a' = if a' =? a then Ok m else target b a'.
Proof.
  intros Hw Ha Ha'.
  destruct (well_formed_inv b Hw)
    as (c0 & c1 & c2 & c3 & c4 & c5 & c6 & c7 & c8 & ->).
  apply nine_cases in Ha, Ha'.
  destruct Ha as [->|[->|[->|[->|[->|[->|[->|[->| ->]]]]]]]];
    destruct Ha' as [->|[->|[->|[->|[->|[->|[->|[->| ->]]]]]]]];
    reflexivity.
Qed.

(* the result of a legal move, by the rules *)
Lemma make_transition_legal (p a : Z) (b : board) :
  well_formed b -> 0 <= a <= 8 -> target b a = Ok 0 ->
  make_transition p a b
  = Ok (place b a (p + 1),
        if wins (place b a (p + 1)) (p + 1)
        then (if p =? 0 then 1 else -1) else 0,
        wins (place b a (p + 1)) (p + 1) || full (place b a (p + 1))).
Proof.
  intros Hw Ha Ht.
  unfold make_transition, make_transition_in. simpl.
  apply TicTacToeFacts.in_range_test in Ha. rewrite Ha.
  unfold target in Ht. rewrite Ht. simpl.
  fold (place b a (p + 1)).
  rewrite (check_victory_wins _ _ (place_well_formed b a (p + 1) Hw)).
  rewrite (is_draw_full _ (place_well_formed b a (p + 1) Hw)). simpl.
  destruct (wins _ _); [done|]. by destruct (full _).
Qed.

Lemma target_defined (b : board) (a : Z) :
  well_formed b -> 0 <= a <= 8 -> exists v, target b a = Ok v.
Proof.
  intros Hw Ha.
  destruct (well_formed_inv b Hw)
    as (c0 & c1 & c2 & c3 & c4 & c5 & c6 & c7 & c8 & ->).
  apply nine_cases in Ha.
  destruct Ha as [->|[->|[->|[->|[->|[->|[->|[->| ->]]]]]]]]; by eexists.
Qed.

Lemma make_transition_ok_legal (p a : Z) (b ns : board) (r : Z) (d : bool) :
  well_formed b -> make_transition p a b = Ok (ns, r, d) ->
  0 <= a <= 8 /\ target b a = Ok 0.
Proof.
  intros Hw H.
  destruct (decide (0 <= a <= 8)) as [Ha|Ha].
  - split; [done|]. destruct (target_defined b a Hw Ha) as [v Hv].
    destruct (decide (v = 0)) as [->|Hne]; [done|].
    unfold make_transition in H.
    by rewrite (TicTacToeFacts.occupied_raises p a [b] 0 b v) in H.
  - unfold make_transition in H.
    by rewrite (TicTacToeFacts.out_of_range_raises p a [b] 0 b) in H.
Qed.

(** X2: on a 3x3 board make_transition accepts exactly the actions that
    get_possible_actions lists: it returns a result for an action of the
    list and raises for every other action index. *)
Theorem make_transition_accepts_listed_actions (p q a : Z) (b : board)
    (acts : list Z) :
  well_formed b -> get_possible_actions q b = Ok acts ->
  (a ∈ acts <-> exists ns r d, make_transition p a b = Ok (ns, r, d)).
Proof.
  intros Hw Hacts.
  rewrite (get_possible_actions_empty_cells q b Hw) in Hacts.
  inversion Hacts; subst acts. rewrite empty_cells_elem. split.
  - intros [Ha Ht]. rewrite (make_transition_legal p a b Hw Ha Ht). eauto.
  - intros (ns & r & d & H). by eapply make_transition_ok_legal.
Qed.

(** X4: on a 3x3 board _check_victory answers true exactly when one of
    the eight lines (three rows, three columns, two diagonals) holds the
    marker in all three cells, and false otherwise; it does not raise. *)
Theorem check_victory_detects_lines (b : board) (m : Z) :
  well_formed b ->
  (_check_victory b m = Ok true \/ _check_victory b m = Ok false)
  /\ (_check_victory b m = Ok true
      <-> exists line, line ∈ lines
            /\ forall rc, rc ∈ line -> cell b (fst rc) (snd rc) = Ok m).
Proof.
  intros Hw. rewrite (check_victory_wins b m Hw). split.
  - destruct (wins b m); auto.
  - unfold wins. split.
    + intros H0.
      assert (H : existsb (forallb (holds b m)) lines = true) by congruence.
      apply existsb_exists in H as (line & Hl & Hf).
      exists line. split; [by apply list_elem_of_In|].
      intros rc Hrc. rewrite forallb_forall in Hf.
      specialize (Hf rc (proj1 (list_elem_of_In _ _) Hrc)).
      unfold holds in Hf. destruct (cell b rc.1 rc.2) as [v|]; [|done].
      apply Z.eqb_eq in Hf. by subst.
    + intros (line & Hl & Hf). f_equal. apply existsb_exists.
      exists line. split; [by apply list_elem_of_In|].
      apply forallb_forall. intros rc Hrc. unfold holds.
      rewrite (Hf rc (proj2 (list_elem_of_In _ _) Hrc)). apply Z.eqb_refl.
Qed.

Lemma full_no_empty (b : board) :
  full b = true <-> empty_cells b = [].
Proof.
  unfold full, empty_cells. generalize all_cells. intros l.
  induction l as [|a l IH]; simpl; [done|].
  destruct (is_empty_at b a); simpl; [split; done|exact IH].
Qed.

(** X5: for a move accepted on a 3x3 board, done is true exactly when
    the mover's marker fills a line of the new board or the new board
    has no empty cell; the reward is 1 when the mover is player 0 and
    fills a line, -1 when another mover fills a line, and 0 otherwise,
    so a nonzero reward comes only with done. *)
Theorem make_transition_outcome (p a : Z) (b ns : board) (r : Z) (d : bool) :
  well_formed b -> make_transition p a b = Ok (ns, r, d) ->
  _check_victory ns (p + 1) = Ok (wins ns (p + 1))
  /\ d = (wins ns (p + 1) || full ns)
  /\ r = (if wins ns (p + 1) then (if p =? 0 then 1 else -1) else 0)
  /\ (r <> 0 -> d = true)
  /\ (d = false -> exists a', a' ∈ empty_cells ns).
Proof.
  intros Hw H.
  destruct (make_transition_ok_legal p a b ns r d Hw H) as [Ha Ht].
  rewrite (make_transition_legal p a b Hw Ha Ht) in H.
  inversion H; subst ns. clear H.
  split; [apply check_victory_wins; by apply place_well_formed|].
  split; [done|]. split; [done|]. split.
  - destruct (wins _ _); [done|]. intros Hr. by destruct Hr.
  - intros Hd. apply orb_false_iff in Hd as [_ Hf].
    destruct (empty_cells (place b a (p + 1))) as [|a' l] eqn:E.
    + apply full_no_empty in E. congruence.
    + exists a'. apply list_elem_of_here.
Qed.

Lemma is_empty_at_place (b : board) (a m x : Z) :
  well_formed b -> 0 <= a <= 8 -> 0 <= x <= 8 -> m <> 0 ->
  is_empty_at (place b a m) x = negb (x =? a) && is_empty_at b x.
Proof.
  intros Hw Ha Hx Hm. unfold is_empty_at. rewrite target_place by done.
  destruct (Z.eqb_spec x a) as [->|Hne]; [|done].
  simpl. by destruct (Z.eqb_spec m 0).
Qed.

Lemma empty_cells_place (b : board) (a m : Z) :
  well_formed b -> 0 <= a <= 8 -> m <> 0 ->
  empty_cells (place b a m)
  = List.filter (fun a' => negb (a' =? a)) (empty_cells b).
Proof.
  intros Hw Ha Hm. unfold empty_cells.
  assert (Hall : forall a', In a' all_cells -> 0 <= a' <= 8)
    by (intros a'; apply in_all_cells).
  induction all_cells as [|x l IH]; [done|].
  cbn [List.filter].
  rewrite IH by (intros a' Ha'; apply Hall; by right).
  rewrite is_empty_at_place by (try done; apply Hall; by left).
  destruct (is_empty_at b x), (Z.eqb_spec x a) as [->|Hne];
    cbn [List.filter negb andb]; rewrite ?Z.eqb_refl; try done.
  by destruct (Z.eqb_spec x a).
Qed.

Lemma filter_remove_one (a : Z) (l : list Z) :
  NoDup l -> a ∈ l ->
  S (length (List.filter (fun a' => negb (a' =? a)) l)) = length l.
Proof.
  induction 1 as [|x l Hx Hl IH]; intros Ha.
  { by apply elem_of_nil in Ha. }
  simpl. destruct (Z.eqb_spec x a) as [->|Hne]; simpl.
  - f_equal. clear IH Ha Hl. induction l as [|y l IH]; [done|].
    simpl. destruct (Z.eqb_spec y a) as [->|_]; simpl.
    + destruct Hx. apply list_elem_of_here.
    + f_equal. apply IH. intros Hin. apply Hx. by apply list_elem_of_further.
  - f_equal. apply IH. apply elem_of_cons in Ha as [->|Ha]; done.
Qed.

End TicTacToeRules.

(* --------------------------------------------------------------------- *)
(*  The moves of the example game on row objects                          *)
(* --------------------------------------------------------------------- *)

Module TicTacToeObjectFacts.
Import TicTacToe TicTacToeSpec TicTacToeRules TicTacToeObjects.

Lemma view_Forall2 (rs : list (list Z)) (state : list nat) (b : board) :
  view rs state = Ok b <-> Forall2 (fun id r => rs !! id = Some r) state b.
Proof.
  revert b. induction state as [|id rest IH]; intros b; simpl.
  - split.
    + intros [= <-]. constructor.
    + intros H. by inversion H.
  - destruct (rs !! id) as [r|] eqn:E.
    + destruct (view rs rest) as [b'|e] eqn:Ev; simpl.
      * split.
        -- intros [= <-]. constructor; [done|]. by apply IH.
        -- intros H. inversion H as [|? r' ? b'' Hr Hrest]; subst.
           apply IH in Hrest. injection Hrest as <-.
           rewrite E in Hr. by injection Hr as <-.
      * split; [done|]. intros H.
        inversion H as [|? r' ? b'' Hr Hrest]; subst.
        apply IH in Hrest. discriminate.
    + split; [done|]. intros H. inversion H; subst. congruence.
Qed.

Lemma deepcopy_rows_spec (rs0 : list (list Z)) :
  forall todo rs memo copy,
  memo_ok rs0 rs memo ->
  (forall id, id ∈ todo -> (id < length rs0)%nat) ->
  exists rs' new memo',
    deepcopy_rows rs todo memo copy = Ok (rs', copy ++ new)
    /\ memo_ok rs0 rs' memo'
    /\ Forall2 (fun id id' => memo_get memo' id = Some id') todo new
    /\ (forall id id', memo_get memo id = Some id' ->
          memo_get memo' id = Some id').
Proof.
  induction todo as [|id rest IH]; intros rs memo copy Hok Hin.
  { exists rs, [], memo. rewrite app_nil_r. split; [done|]. split; [done|].
    split; [constructor|done]. }
  simpl. destruct (memo_get memo id) as [id'|] eqn:Hm.
  - destruct (IH rs memo (copy ++ [id']) Hok) as (rs' & new & memo' & -> & Hok'
                                                   & Hall & Hmono).
    { intros x Hx. by apply Hin, list_elem_of_further. }
    exists rs', (id' :: new), memo'. rewrite <- app_assoc. split; [done|].
    split; [done|]. split; [|done]. constructor; [by apply Hmono|done].
  - destruct Hok as ((ext & ->) & Hget & Hinj).
    pose proof (Hin id (list_elem_of_here _ _)) as Hlt.
    destruct (lookup_lt_is_Some_2 _ _ Hlt) as [r Hr].
    rewrite (lookup_app_l_Some _ _ _ _ Hr).
    destruct (IH ((rs0 ++ ext) ++ [r]) ((id, length (rs0 ++ ext)) :: memo)
                (copy ++ [length (rs0 ++ ext)]))
      as (rs' & new & memo' & -> & Hok' & Hall & Hmono).
    + split; [|split].
      * exists (ext ++ [r]). by rewrite app_assoc.
      * intros x x'. cbn [memo_get]. destruct (Nat.eqb_spec id x) as [<-|Hne].
        -- intros [= <-]. rewrite !length_app. cbn [length]. split; [lia|].
           etrans; [|symmetry; exact Hr].
           apply list_lookup_middle. by rewrite length_app.
        -- intros Hx. destruct (Hget x x' Hx) as [Hb Hl].
           rewrite !length_app in *. cbn [length]. split; [lia|].
           rewrite <- Hl. apply lookup_app_l. rewrite length_app. lia.
      * intros x1 x2 x'. cbn [memo_get].
        destruct (Nat.eqb_spec id x1) as [<-|H1],
                 (Nat.eqb_spec id x2) as [<-|H2]; try done.
        -- intros [= <-] Hx. destruct (Hget x2 _ Hx) as [Hb _]. lia.
        -- intros Hx [= <-]. destruct (Hget x1 _ Hx) as [Hb _]. lia.
        -- apply Hinj.
    + intros x Hx. by apply Hin, list_elem_of_further.
    + exists rs', (length (rs0 ++ ext) :: new), memo'.
      rewrite <- app_assoc. split; [done|]. split; [done|]. split.
      * constructor; [|done]. apply Hmono. simpl. by rewrite Nat.eqb_refl.
      * intros x x' Hx. apply Hmono. simpl.
        destruct (Nat.eqb_spec id x) as [<-|Hne]; [congruence|done].
Qed.

(* deepcopy of a state whose rows exist: new row objects with the values
   and the sharing of the old ones *)
Lemma deepcopy_spec (rs : list (list Z)) (state : list nat) (b : board) :
  view rs state = Ok b ->
  exists ext new,
    deepcopy rs state = Ok (rs ++ ext, new)
    /\ Forall2 (fun id' r => (rs ++ ext) !! id' = Some r) new b
    /\ length new = length state
    /\ (forall k id', new !! k = Some id' -> (length rs <= id')%nat)
    /\ (forall k1 k2 j1 j2, new !! k1 = Some j1 -> new !! k2 = Some j2 ->
          (j1 = j2 <-> state !! k1 = state !! k2)).
Proof.
  intros Hv. apply view_Forall2 in Hv.
  destruct (deepcopy_rows_spec rs state rs [] [])
    as (rs' & new & memo' & Hd & ((ext & ->) & Hget & Hinj) & Hall & _).
  { split; [by exists []; rewrite app_nil_r|]. split; done. }
  { intros id Hid. apply list_elem_of_lookup in Hid as [k Hk].
    destruct (Forall2_lookup_l _ _ _ _ _ Hv Hk) as (r & _ & Hr).
    by eapply lookup_lt_Some. }
  exists ext, new. split; [exact Hd|]. split; [|split; [|split]].
  - apply Forall2_same_length_lookup. split.
    + rewrite <- (Forall2_length _ _ _ Hall). by eapply Forall2_length.
    + intros k id' r Hn Hb.
      destruct (Forall2_lookup_r _ _ _ _ _ Hall Hn) as (id & Hid & Hm).
      destruct (Hget id id' Hm) as [_ Hl]. cbv beta. rewrite Hl.
      destruct (Forall2_lookup_l _ _ _ _ _ Hv Hid) as (r' & Hr' & Hrs).
      rewrite Hrs. congruence.
  - symmetry. by eapply Forall2_length.
  - intros k id' Hn.
    destruct (Forall2_lookup_r _ _ _ _ _ Hall Hn) as (id & Hid & Hm).
    destruct (Hget id id' Hm) as [Hb _]. lia.
  - intros k1 k2 j1 j2 H1 H2.
    destruct (Forall2_lookup_r _ _ _ _ _ Hall H1) as (i1 & Hi1 & Hm1).
    destruct (Forall2_lookup_r _ _ _ _ _ Hall H2) as (i2 & Hi2 & Hm2).
    rewrite Hi1, Hi2. split.
    + intros <-. f_equal. by apply (Hinj i1 i2 j1).
    + intros [= <-]. congruence.
Qed.

(* the store and the new state after the copy and the assignment *)
Lemma copy_and_write (rs : list (list Z)) (state : list nat) (b : board)
    (row col : nat) (v : Z) :
  view rs state = Ok b -> is_Some (state !! row) ->
  exists rs1 new,
    deepcopy rs state = Ok (rs1, new)
    /\ view (set_cell_at rs1 new row col v) new
       = Ok (written state row col v b)
    /\ view (set_cell_at rs1 new row col v) state = Ok b
    /\ (forall k1 k2, (k1 < length state)%nat -> (k2 < length state)%nat ->
          (new !! k1 = new !! k2 <-> state !! k1 = state !! k2))
    /\ exists ext, set_cell_at rs1 new row col v = rs ++ ext.
Proof.
  intros Hv [idr Hrow].
  destruct (deepcopy_spec rs state b Hv)
    as (ext & new & Hd & Hnew & Hlen & Hfresh & Hshare).
  exists (rs ++ ext), new. split; [exact Hd|].
  pose proof Hv as Hv'. apply view_Forall2 in Hv'.
  assert (Hnr : is_Some (new !! row)).
  { apply lookup_lt_is_Some. rewrite Hlen. by eapply lookup_lt_Some. }
  destruct Hnr as [j Hj]. unfold set_cell_at. rewrite Hj.
  split; [|split; [|split]].
  - apply view_Forall2. unfold written.
    apply Forall2_same_length_lookup. split.
    + rewrite length_imap. by eapply Forall2_length.
    + intros k id' r Hk Hr.
      rewrite list_lookup_imap in Hr.
      apply fmap_Some in Hr as (rk & Hbk & ->).
      pose proof (Forall2_lookup_lr _ _ _ _ _ _ Hnew Hk Hbk) as Hlook.
      destruct (decide (state !! k = state !! row)) as [Hsame|Hdiff].
      * apply (Hshare k row id' j Hk Hj) in Hsame as ->.
        rewrite list_lookup_alter_eq, Hlook. done.
      * rewrite list_lookup_alter_ne; [done|].
        intros <-. apply Hdiff. by apply (Hshare k row j j Hk Hj).
  - apply view_Forall2.
    eapply Forall2_impl; [exact Hv'|]. intros id r Hid. simpl.
    rewrite list_lookup_alter_ne.
    + by apply lookup_app_l_Some.
    + pose proof (Hfresh row j Hj). apply lookup_lt_Some in Hid. lia.
  - intros k1 k2 H1 H2.
    rewrite <- Hlen in H1, H2.
    destruct (lookup_lt_is_Some_2 _ _ H1) as [j1 Hj1].
    destruct (lookup_lt_is_Some_2 _ _ H2) as [j2 Hj2].
    rewrite Hj1, Hj2. rewrite <- (Hshare k1 k2 j1 j2 Hj1 Hj2).
    split; [by intros [= ->]|by intros ->].
  - eexists. apply alter_app_r_alt. by apply (Hfresh row j).
Qed.

Lemma view_length (rs : list (list Z)) (state : list nat) (b : board) :
  view rs state = Ok b -> length state = length b.
Proof. intros Hv. apply view_Forall2 in Hv. by eapply Forall2_length. Qed.

Lemma row_of_action (a : Z) : 0 <= a <= 8 -> (Z.to_nat (a / 3) < 3)%nat.
Proof.
  intros Ha. apply nine_cases in Ha.
  destruct Ha as [->|[->|[->|[->|[->|[->|[->|[->| ->]]]]]]]];
    vm_compute; lia.
Qed.

Lemma col_of_action (a : Z) : 0 <= a <= 8 -> (Z.to_nat (a mod 3) < 3)%nat.
Proof.
  intros Ha. apply nine_cases in Ha.
  destruct Ha as [->|[->|[->|[->|[->|[->|[->|[->| ->]]]]]]]];
    vm_compute; lia.
Qed.

Lemma written_well_formed (state : list nat) (row col : nat) (v : Z)
    (b : board) :
  well_formed b -> well_formed (written state row col v b).
Proof.
  intros [Hl Hr]. unfold written, well_formed, board in *.
  split; [by rewrite length_imap|].
  apply Forall_forall. intros r Hin.
  apply list_elem_of_lookup in Hin as [k Hk].
  rewrite list_lookup_imap in Hk. apply fmap_Some in Hk as (r0 & Hr0 & ->).
  assert (H3 : length r0 = 3%nat).
  { rewrite Forall_forall in Hr. apply Hr. apply list_elem_of_lookup. eauto. }
  destruct (decide _); [by rewrite length_insert|done].
Qed.

(* the cells of the written board *)
Lemma target_written (state : list nat) (a a' v : Z) (b : board) :
  well_formed b -> 0 <= a <= 8 -> 0 <= a' <= 8 ->
  target (written state (Z.to_nat (a / 3)) (Z.to_nat (a mod 3)) v b) a'
  = if aliased state a a' then Ok v else target b a'.
Proof.
  intros Hw Ha Ha'. unfold target, cell, written, aliased.
  destruct Hw as [Hl Hr]. unfold board in *.
  pose proof (row_of_action a' Ha') as HR'.
  pose proof (col_of_action a' Ha') as HC'.
  rewrite list_lookup_imap.
  destruct (lookup_lt_is_Some_2 b (Z.to_nat (a' / 3))) as [rw Hrw];
    [lia|].
  rewrite Hrw. cbn [fmap option_fmap option_map].
  assert (H3 : length rw = 3%nat).
  { rewrite Forall_forall in Hr. apply Hr. apply list_elem_of_lookup. eauto. }
  destruct (decide (state !! Z.to_nat (a' / 3) = state !! Z.to_nat (a / 3)))
    as [Hsame|Hdiff].
  - rewrite (bool_decide_eq_true_2 _ Hsame), andb_true_r.
    destruct (Z.eqb_spec (a' mod 3) (a mod 3)) as [Hc|Hc].
    + rewrite Hc, list_lookup_insert_eq by (rewrite H3, <- Hc; lia). done.
    + rewrite list_lookup_insert_ne; [done|].
      intros Heq. apply Hc. apply Z2Nat.inj in Heq; [done| |];
        apply Z.mod_pos_bound; lia.
  - by rewrite (bool_decide_eq_false_2 _ Hdiff), andb_false_r.
Qed.

(* with distinct row objects only the chosen action is aliased *)
Lemma aliased_distinct (state : list nat) (a a' : Z) :
  NoDup state -> length state = 3%nat -> 0 <= a <= 8 -> 0 <= a' <= 8 ->
  aliased state a a' = (a' =? a).
Proof.
  intros Hnd Hl Ha Ha'. unfold aliased.
  pose proof (row_of_action a Ha) as HR.
  pose proof (row_of_action a' Ha') as HR'.
  destruct (lookup_lt_is_Some_2 state (Z.to_nat (a / 3))) as [i Hi]; [lia|].
  destruct (lookup_lt_is_Some_2 state (Z.to_nat (a' / 3))) as [i' Hi'];
    [lia|].
  assert (Hrow : bool_decide (state !! Z.to_nat (a' / 3)
                              = state !! Z.to_nat (a / 3))
                 = (Z.to_nat (a' / 3) =? Z.to_nat (a / 3))%nat).
  { destruct (Nat.eqb_spec (Z.to_nat (a' / 3)) (Z.to_nat (a / 3)))
      as [->|Hne].
    - by apply bool_decide_eq_true_2.
    - apply bool_decide_eq_false_2. rewrite Hi, Hi'. intros [= ->].
      apply Hne. by eapply NoDup_lookup. }
  rewrite Hrow. clear Hrow Hi Hi' HR HR'.
  apply nine_cases in Ha, Ha'.
  destruct Ha as [->|[->|[->|[->|[->|[->|[->|[->| ->]]]]]]]];
    destruct Ha' as [->|[->|[->|[->|[->|[->|[->|[->| ->]]]]]]]];
    reflexivity.
Qed.

(* with distinct row objects the written board is the board of the
   rules *)
Lemma written_distinct (state : list nat) (a v : Z) (b : board) :
  NoDup state -> length state = length b ->
  written state (Z.to_nat (a / 3)) (Z.to_nat (a mod 3)) v b = place b a v.
Proof.
  intros Hnd Hl. unfold place, set_cell, written, board in *.
  set (R := Z.to_nat (a / 3)). set (C := Z.to_nat (a mod 3)).
  apply list_eq. intros k. rewrite list_lookup_imap.
  destruct (b !! R) as [r|] eqn:HbR.
  - destruct (decide (k = R)) as [->|Hne].
    + rewrite list_lookup_insert_eq by (by eapply lookup_lt_Some).
      rewrite HbR. cbn [fmap option_fmap option_map].
      by rewrite decide_True.
    + rewrite list_lookup_insert_ne by done.
      destruct (b !! k) as [rk|] eqn:Hbk; [|done].
      cbn [fmap option_fmap option_map].
      rewrite decide_False; [done|].
      apply lookup_lt_Some in Hbk, HbR. rewrite <- Hl in Hbk, HbR.
      destruct (lookup_lt_is_Some_2 _ _ Hbk) as [ik Hik].
      destruct (lookup_lt_is_Some_2 _ _ HbR) as [iR HiR].
      rewrite Hik, HiR. intros [= ->]. apply Hne.
      by eapply NoDup_lookup.
  - destruct (b !! k) as [rk|] eqn:Hbk; [|done].
    cbn [fmap option_fmap option_map].
    rewrite decide_False; [done|].
    apply lookup_lt_Some in Hbk. rewrite <- Hl in Hbk.
    destruct (lookup_lt_is_Some_2 _ _ Hbk) as [ik Hik].
    apply lookup_ge_None in HbR. rewrite <- Hl in HbR.
    apply lookup_ge_None in HbR. rewrite Hik, HbR. done.
Qed.

(* an accepted move was a legal one *)
Lemma make_transition_rows_ok_legal (p a : Z) (rs rs' : list (list Z))
    (state ns : list nat) (b : board) (r : Z) (d : bool) :
  view rs state = Ok b ->
  TicTacToeObjects.make_transition p a rs state = (rs', Ok (ns, r, d)) ->
  0 <= a <= 8 /\ target b a = Ok 0.
Proof.
  intros Hv H. unfold TicTacToeObjects.make_transition in H.
  destruct (negb ((0 <=? a) && (a <=? 8))) eqn:E; [done|].
  apply TicTacToeFacts.in_range_test in E. split; [done|].
  rewrite Hv in H. cbn [rbind] in H. unfold target.
  destruct (cell b _ _) as [v|e]; [|done].
  destruct (Z.eqb_spec v 0) as [Heq|Hne]; [by rewrite Heq|done].
Qed.

(* the result of a legal move on row objects *)
Lemma make_transition_rows_legal (p a : Z) (rs : list (list Z))
    (state : list nat) (b : board) :
  view rs state = Ok b -> well_formed b -> 0 <= a <= 8 ->
  target b a = Ok 0 ->
  let nb := written state (Z.to_nat (a / 3)) (Z.to_nat (a mod 3)) (p + 1) b in
  exists rs' ns,
    TicTacToeObjects.make_transition p a rs state
    = (rs', Ok (ns, if wins nb (p + 1) then (if p =? 0 then 1 else -1) else 0,
                wins nb (p + 1) || full nb))
    /\ view rs' ns = Ok nb
    /\ view rs' state = Ok b
    /\ (forall k1 k2, (k1 < length state)%nat -> (k2 < length state)%nat ->
          (ns !! k1 = ns !! k2 <-> state !! k1 = state !! k2))
    /\ length ns = length state
    /\ exists ext, rs' = rs ++ ext.
Proof.
  intros Hv Hw Ha Ht nb.
  assert (Hrow : is_Some (state !! Z.to_nat (a / 3))).
  { apply lookup_lt_is_Some. rewrite (view_length _ _ _ Hv).
    destruct Hw as [-> _]. by apply row_of_action. }
  destruct (copy_and_write rs state b (Z.to_nat (a / 3)) (Z.to_nat (a mod 3))
              (p + 1) Hv Hrow)
    as (rs1 & new & Hd & Hnew & Hold & Hshare & Hext).
  exists (set_cell_at rs1 new (Z.to_nat (a / 3)) (Z.to_nat (a mod 3)) (p + 1)),
    new.
  fold nb in Hnew.
  split; [|split; [done|split; [done|split; [done|split; [|done]]]]].
  - unfold TicTacToeObjects.make_transition.
    apply TicTacToeFacts.in_range_test in Ha. rewrite Ha.
    rewrite Hv. cbn [rbind]. unfold target in Ht. rewrite Ht.
    cbn [Z.eqb negb]. rewrite Hd, Hnew. cbn [rbind].
    assert (Hwn : well_formed nb) by (by apply written_well_formed).
    rewrite (check_victory_wins _ _ Hwn), (is_draw_full _ Hwn). cbn [rbind].
    destruct (wins _ _); [done|]. by destruct (full _).
  - rewrite (view_length _ _ _ Hnew), (view_length _ _ _ Hv).
    unfold nb, written. by rewrite length_imap.
Qed.

Lemma filter_filter_andb {A} (f g : A -> bool) (l : list A) :
  List.filter (fun x => f x && g x) l = List.filter f (List.filter g l).
Proof.
  induction l as [|x l IH]; [done|]. simpl.
  destruct (g x); simpl.
  - rewrite andb_true_r. destruct (f x); by rewrite IH.
  - by rewrite andb_false_r.
Qed.

Lemma filter_ext_in_cells {A} (f g : A -> bool) (l : list A) :
  (forall x, In x l -> f x = g x) -> List.filter f l = List.filter g l.
Proof.
  induction l as [|x l IH]; [done|]. intros H. simpl.
  rewrite (H x) by (by left). rewrite IH; [done|].
  intros y Hy. apply H. by right.
Qed.

Lemma empty_cells_written (state : list nat) (a v : Z) (b : board) :
  well_formed b -> 0 <= a <= 8 -> v <> 0 ->
  empty_cells (written state (Z.to_nat (a / 3)) (Z.to_nat (a mod 3)) v b)
  = List.filter (fun a' => negb (aliased state a a')) (empty_cells b).
Proof.
  intros Hw Ha Hv. unfold empty_cells.
  rewrite <- filter_filter_andb. apply filter_ext_in_cells.
  intros a' Ha'. apply in_all_cells in Ha'.
  unfold is_empty_at. rewrite target_written by done.
  destruct (aliased state a a'); [|done].
  simpl. by destruct (Z.eqb_spec v 0).
Qed.

(* the initial state has three distinct row objects *)
Lemma get_initial_state_distinct (rs : list (list Z)) :
  NoDup (snd (TicTacToeObjects.get_initial_state rs))
  /\ view (fst (TicTacToeObjects.get_initial_state rs))
       (snd (TicTacToeObjects.get_initial_state rs))
     = Ok TicTacToe.get_initial_state.
Proof.
  unfold TicTacToeObjects.get_initial_state. cbn [fst snd]. split.
  - repeat (constructor; [rewrite ?elem_of_cons, elem_of_nil; lia|]).
    constructor.
  - apply view_Forall2. unfold TicTacToe.get_initial_state.
    repeat constructor.
    + by apply list_lookup_middle.
    + rewrite lookup_app_r by lia.
      by replace (S (length rs) - length rs)%nat with 1%nat by lia.
    + rewrite lookup_app_r by lia.
      by replace (S (S (length rs)) - length rs)%nat with 2%nat by lia.
Qed.

(* a board whose three rows are one object, [[0, 0, 0]] * 3: the move 0
   writes the first cell of that object, seen in all three rows; the
   first column is then filled, and three actions are gone *)
Example shared_rows_move :
  view [[0; 0; 0]] [0; 0; 0]%nat = Ok [[0; 0; 0]; [0; 0; 0]; [0; 0; 0]]
  /\ TicTacToeObjects.make_transition 0 0 [[0; 0; 0]] [0; 0; 0]%nat
     = ([[0; 0; 0]; [1; 0; 0]], Ok ([1; 1; 1]%nat, 1, true))
  /\ view [[0; 0; 0]; [1; 0; 0]] [1; 1; 1]%nat
     = Ok [[1; 0; 0]; [1; 0; 0]; [1; 0; 0]]
  /\ view [[0; 0; 0]; [1; 0; 0]] [0; 0; 0]%nat
     = Ok [[0; 0; 0]; [0; 0; 0]; [0; 0; 0]]
  /\ get_possible_actions 1 [[1; 0; 0]; [1; 0; 0]; [1; 0; 0]]
     = Ok [1; 2; 4; 5; 7; 8]
  /\ TicTacToe.make_transition 0 0 [[0; 0; 0]; [0; 0; 0]; [0; 0; 0]]
     = Ok ([[1; 0; 0]; [0; 0; 0]; [0; 0; 0]], 0, false).
Proof. repeat split; reflexivity. Qed.

(** X3: a move that make_transition accepts on a 3x3 board changes no
    row object that existed before the call, so the caller's board is as
    it was, and returns a new 3x3 board. The chosen cell was empty. In
    the new board player_idx + 1 is in the chosen column of every row
    that is the same object as the chosen row, and every other cell is
    as before. When the rows of the board are distinct objects this is
    the chosen cell alone, the rows of the new board are distinct
    objects again, and the call returns what make_transition on board
    values returns. *)
Theorem make_transition_writes_row_object (p a : Z) (rs rs' : list (list Z))
    (state ns : list nat) (b : board) (r : Z) (d : bool) :
  view rs state = Ok b -> well_formed b ->
  TicTacToeObjects.make_transition p a rs state = (rs', Ok (ns, r, d)) ->
  (exists ext, rs' = rs ++ ext)
  /\ view rs' state = Ok b
  /\ target b a = Ok 0
  /\ exists nb,
       view rs' ns = Ok nb
       /\ well_formed nb
       /\ (forall a', 0 <= a' <= 8 ->
             target nb a'
             = if aliased state a a' then Ok (p + 1) else target b a')
       /\ (NoDup state ->
             NoDup ns
             /\ TicTacToe.make_transition p a b = Ok (nb, r, d)
             /\ target nb a = Ok (p + 1)
             /\ forall a', 0 <= a' <= 8 -> a' <> a ->
                  target nb a' = target b a').
Proof.
  intros Hv Hw H.
  destruct (make_transition_rows_ok_legal p a rs rs' state ns b r d Hv H)
    as [Ha Ht].
  destruct (make_transition_rows_legal p a rs state b Hv Hw Ha Ht)
    as (rs1 & ns1 & Heq & Hnew & Hold & Hshare & Hlen & Hext).
  rewrite Heq in H. injection H as -> -> <- <-.
  split; [done|]. split; [done|]. split; [done|].
  set (nb := written state (Z.to_nat (a / 3)) (Z.to_nat (a mod 3)) (p + 1) b)
    in *.
  exists nb. split; [done|]. split; [by apply written_well_formed|].
  split; [intros a' Ha'; by apply target_written|].
  intros Hnd.
  assert (Hl3 : length state = 3%nat).
  { rewrite (view_length _ _ _ Hv). by destruct Hw. }
  assert (Hnb : nb = place b a (p + 1)).
  { apply written_distinct; [done|]. by eapply view_length. }
  split; [|split; [|split]].
  - apply NoDup_alt. intros k1 k2 x H1 H2.
    assert (Hk1 : (k1 < length state)%nat)
      by (rewrite <- Hlen; by eapply lookup_lt_Some).
    assert (Hk2 : (k2 < length state)%nat)
      by (rewrite <- Hlen; by eapply lookup_lt_Some).
    assert (Hs : state !! k1 = state !! k2)
      by (apply Hshare; [done|done|congruence]).
    destruct (lookup_lt_is_Some_2 _ _ Hk1) as [i Hi].
    rewrite Hi in Hs. by eapply NoDup_lookup.
  - rewrite Hnb. by apply make_transition_legal.
  - unfold nb. rewrite target_written by done.
    by rewrite aliased_distinct, Z.eqb_refl.
  - intros a' Ha' Hne. unfold nb. rewrite target_written by done.
    rewrite aliased_distinct by done. by destruct (Z.eqb_spec a' a).
Qed.

(** X6: for a move accepted on a 3x3 board with player_idx + 1 <> 0, the
    legal actions of the new board are the legal actions of the old one
    without those that point into the chosen column of a row that is the
    same object as the chosen row. When the rows of the board are
    distinct objects, exactly the chosen action is removed: the new list
    is the old one without that action, one shorter. *)
Theorem make_transition_removes_written_actions (p q a : Z)
    (rs rs' : list (list Z)) (state ns : list nat) (b : board) (r : Z)
    (d : bool) (acts : list Z) :
  view rs state = Ok b -> well_formed b -> p + 1 <> 0 ->
  TicTacToeObjects.make_transition p a rs state = (rs', Ok (ns, r, d)) ->
  get_possible_actions q b = Ok acts ->
  exists nb,
    view rs' ns = Ok nb
    /\ get_possible_actions (change_player_idx q) nb
       = Ok (List.filter (fun a' => negb (aliased state a a')) acts)
    /\ (NoDup state ->
          List.filter (fun a' => negb (aliased state a a')) acts
          = List.filter (fun a' => negb (a' =? a)) acts
          /\ S (length (List.filter (fun a' => negb (a' =? a)) acts))
             = length acts).
Proof.
  intros Hv Hw Hp H Hacts.
  destruct (make_transition_rows_ok_legal p a rs rs' state ns b r d Hv H)
    as [Ha Ht].
  destruct (make_transition_rows_legal p a rs state b Hv Hw Ha Ht)
    as (rs1 & ns1 & Heq & Hnew & Hold & Hshare & Hlen & Hext).
  rewrite Heq in H. injection H as -> -> <- <-.
  rewrite (get_possible_actions_empty_cells q b Hw) in Hacts.
  injection Hacts as <-.
  eexists. split; [exact Hnew|]. split.
  - rewrite get_possible_actions_empty_cells
      by (by apply written_well_formed).
    by rewrite empty_cells_written.
  - intros Hnd.
    assert (Hl3 : length state = 3%nat).
    { rewrite (view_length _ _ _ Hv). by destruct Hw. }
    split.
    + apply filter_ext_in_cells. intros a' Ha'.
      apply list_elem_of_In, empty_cells_elem in Ha' as [Ha' _].
      by rewrite aliased_distinct.
    + apply filter_remove_one.
      * apply filter_NoDup, all_cells_NoDup.
      * by apply empty_cells_elem.
Qed.

End TicTacToeObjectFacts.

(* --------------------------------------------------------------------- *)
(*  Rollouts of the example game                                          *)
(* --------------------------------------------------------------------- *)

Section TicTacToeRollout.
Import TicTacToeSpec TicTacToeRules.
Local Abbreviation board := TicTacToe.board.
Local Abbreviation well_formed := TicTacToe.well_formed.
Local Open Scope mcts_scope.
Variable c : Q.
Variable draw : nat -> nat.
Local Abbreviation self := (mkEngine TicTacToe_game c).

Lemma ttt_playout_step (fuel : nat) (pid : Z) (b : board)
    (w : world board) :
  well_formed b -> empty_cells b <> [] ->
  exists a,
    a ∈ empty_cells b
    /\ playout self draw (S fuel) pid b w
       = if wins (place b a (pid + 1)) (pid + 1) || full (place b a (pid + 1))
         then Ok (inject_Z (if wins (place b a (pid + 1)) (pid + 1)
                            then (if pid =? 0 then 1 else -1) else 0),
                  mkWorld (heap w) (S (rng w)))
         else playout self draw fuel (change_player_idx pid)
                (place b a (pid + 1)) (mkWorld (heap w) (S (rng w))).
Proof.
  intros Hw Hne.
  destruct (choice_spec draw (empty_cells b) w Hne) as (a & Hl & Hch).
  assert (Ha : a ∈ empty_cells b) by (apply list_elem_of_lookup; eauto).
  exists a. split; [done|].
  apply empty_cells_elem in Ha as [Har Hat].
  cbn [playout]. unfold bind, lift.
  change (get_possible_actions (TwoPlayerGame := game self) pid b)
    with (TicTacToe.get_possible_actions pid b).
  rewrite (get_possible_actions_empty_cells pid b Hw).
  destruct (empty_cells b) as [|x l] eqn:E; [done|].
  rewrite Hch.
  change (make_transition (TwoPlayerGame := game self) pid a b)
    with (rbind (TicTacToe.make_transition pid a b)
            (fun '(ns, r, d) => Ok (ns, inject_Z r, d))).
  rewrite (make_transition_legal pid a b Hw Har Hat). simpl.
  by destruct (wins _ _ || full _).
Qed.

Lemma ttt_playout_total :
  forall fuel pid (b : board) (w : world board),
  well_formed b -> pid = 0 \/ pid = 1 ->
  empty_cells b <> [] -> (length (empty_cells b) <= fuel)%nat ->
  exists z w',
    playout self draw fuel pid b w = Ok (inject_Z z, w')
    /\ (z = -1 \/ z = 0 \/ z = 1)
    /\ heap w' = heap w
    /\ (rng w < rng w' <= rng w + length (empty_cells b))%nat.
Proof.
  induction fuel as [|fuel IH]; intros pid b w Hw Hp Hne Hlen.
  { destruct (empty_cells b); [done|simpl in Hlen; lia]. }
  destruct (ttt_playout_step fuel pid b w Hw Hne) as (a & Ha & ->).
  pose proof Ha as Ha'. apply empty_cells_elem in Ha' as [Har Hat].
  assert (Hm : pid + 1 <> 0) by lia.
  pose proof (empty_cells_place b a (pid + 1) Hw Har Hm) as Hec.
  pose proof (filter_remove_one a (empty_cells b)
                (filter_NoDup _ _ all_cells_NoDup) Ha) as Hone.
  rewrite <- Hec in Hone.
  destruct (wins (place b a (pid + 1)) (pid + 1)) eqn:Ew; simpl.
  - eexists _, _. split; [done|]. split.
    + destruct (Z.eqb_spec pid 0); auto.
    + simpl. split; [done|lia].
  - destruct (full (place b a (pid + 1))) eqn:Ef.
    + eexists _, _. split; [done|]. split; [auto|].
      simpl. split; [done|lia].
    + destruct (IH (change_player_idx pid) (place b a (pid + 1))
                  (mkWorld (heap w) (S (rng w))))
        as (z & w' & Hpl & Hz & Hh & Hr).
      * by apply place_well_formed.
      * unfold change_player_idx. lia.
      * intros E. apply full_no_empty in E. congruence.
      * lia.
      * exists z, w'. split; [done|]. split; [done|].
        simpl in Hh, Hr. split; [done|lia].
Qed.

Lemma ttt_simulations_total (fuel : nat) (nd : MCTSNode board) :
  well_formed (state nd) -> player_to_move nd = 0 \/ player_to_move nd = 1 ->
  empty_cells (state nd) <> [] ->
  (length (empty_cells (state nd)) <= fuel)%nat ->
  forall k z0 (w : world board),
  exists z w',
    simulations self draw fuel nd k (inject_Z z0) w = Ok (inject_Z z, w')
    /\ z0 - Z.of_nat k <= z <= z0 + Z.of_nat k
    /\ heap w' = heap w.
Proof.
  intros Hw Hp Hne Hlen. induction k as [|k IH]; intros z0 w.
  - exists z0, w. split; [done|]. split; [lia|done].
  - cbn [simulations]. unfold bind.
    destruct (ttt_playout_total fuel (player_to_move nd) (state nd) w
                Hw Hp Hne Hlen) as (z1 & w1 & -> & Hz1 & Hh1 & _).
    rewrite <- inject_Z_plus.
    destruct (IH (z0 + z1) w1) as (z & w' & -> & Hz & Hh).
    exists z, w'. split; [done|]. split; [lia|congruence].
Qed.

(** X7: a rollout of the example game from a node whose state is a 3x3
    board with an empty cell and whose mover is player 0 or 1 always
    returns, when it runs at least one simulation and may play as many
    moves as there are empty cells: no playout raises or runs on, the
    value is the sum of the playout rewards, each -1, 0 or 1, divided by
    the number of simulations, hence between -1 and 1, and the tree is
    not touched. *)
Theorem ttt_rollout_returns (fuel sims : nat) (nd : MCTSNode board)
    (w : world board) :
  well_formed (state nd) -> player_to_move nd = 0 \/ player_to_move nd = 1 ->
  empty_cells (state nd) <> [] ->
  (length (empty_cells (state nd)) <= fuel)%nat -> (1 <= sims)%nat ->
  exists z w',
    rollout self draw fuel nd sims w = Ok ((inject_Z z / Qnat sims)%Q, w')
    /\ - Z.of_nat sims <= z <= Z.of_nat sims
    /\ (-1 <= inject_Z z / Qnat sims <= 1)%Q
    /\ heap w' = heap w.
Proof.
  intros Hw Hp Hne Hlen Hs. unfold rollout, bind.
  destruct (ttt_simulations_total fuel nd Hw Hp Hne Hlen sims 0 w)
    as (z & w' & Hsim & Hz & Hh).
  change (inject_Z 0) with 0%Q in Hsim. rewrite Hsim.
  exists z, w'. unfold lift, py_div.
  destruct (Nat.eqb_spec sims 0); [lia|].
  split; [done|]. split; [lia|]. split; [|done].
  assert (Hpos : (0 < Qnat sims)%Q).
  { unfold Qnat. rewrite <- (Zlt_Qlt 0). lia. }
  split.
  - apply Qle_shift_div_l; [done|]. unfold Qnat.
    rewrite <- (inject_Z_mult (-1)), <- Zle_Qle. lia.
  - apply Qle_shift_div_r; [done|]. unfold Qnat.
    rewrite <- (inject_Z_mult 1), <- Zle_Qle. lia.
Qed.

End TicTacToeRollout.

(* --------------------------------------------------------------------- *)
(*  One iteration, step by step                                           *)
(* --------------------------------------------------------------------- *)

Section IterationSteps.
Local Open Scope mcts_scope.
Local Open Scope nat_scope.
Context {State : Type}.
Variable self : TwoPlayerMCTS State.
Variables np_sqrt np_log : Q -> Q.
Variable float32 : Q -> score.
Variable draw : nat -> nat.
Local Abbreviation node := (MCTSNode State).

Lemma make_children_edges (i : nat) (nd : node) :
  forall (todo : list Z) (cs : list nat) (acts : list Z) (h : list node)
         (k : nat) r w',
  make_children self i (state nd) (player_to_move nd) todo cs acts
    (mkWorld h k) = Ok (r, w') ->
  exists news,
    w' = mkWorld (h ++ news) k
    /\ r = (cs ++ seq (length h) (length news), acts ++ todo)
    /\ length news = length todo
    /\ Forall (fresh_child i (player_to_move nd)) news
    /\ Forall2 (edge_of self nd) todo news.
Proof.
  induction todo as [|a todo IH]; intros cs acts h k r w' H.
  - simpl in H. inversion H; subst. exists []. simpl.
    rewrite !app_nil_r. repeat split; constructor.
  - simpl in H. unfold bind, lift in H.
    destruct (make_transition (player_to_move nd) a (state nd))
      as [[[ns rew] dn]|] eqn:Ht; [|done].
    simpl in H. apply IH in H as (news & -> & -> & Hlen & Hall & Hedges).
    eexists (_ :: news). split; [by rewrite <- app_assoc|].
    split; [|split; [|split]].
    + rewrite length_app. simpl.
      rewrite <- !app_assoc. simpl.
      by replace (length h + 1) with (S (length h)) by lia.
    + simpl. by rewrite Hlen.
    + constructor; [|done]. done.
    + constructor; [|done]. exists ns, rew, dn. done.
Qed.

Lemma expand_step (i : nat) (nd : node) (h : list node) (k : nat)
    (x : nat) (w' : world State) :
  expand self draw i nd (player_to_move nd) (mkWorld h k) = Ok (x, w') ->
  terminal nd = false ->
  expansion_step self h i nd x (heap w') /\ rng w' = S k.
Proof.
  unfold expand, bind, lift. intros H Hterm.
  destruct (get_possible_actions (player_to_move nd) (state nd))
    as [acts|] eqn:Ha; [|done].
  destruct (make_children _ _ _ _ _ _ _ _) as [[[cs acts'] w1]|] eqn:Hm;
    [|done].
  apply make_children_edges in Hm as (news & -> & Hr & Hlen & Hall & Hedges).
  inversion Hr; subst. simpl in H.
  unfold choice in H. simpl in H.
  destruct (seq _ _ !! _) as [y|] eqn:Hy; [|done].
  inversion H; subst. simpl. split; [|done].
  right. split; [done|]. exists news, acts.
  repeat split; try done.
  apply list_elem_of_lookup. eauto.
Qed.

(* the steps of an iteration that returns *)
Lemma iteration_decompose (fuel : nat) (pl : Z) (sims : nat)
    (w w' : world State) (r : node) :
  tree_inv (heap w) -> heap w !! 0 = Some r -> player_to_move r = pl ->
  iteration self np_sqrt np_log float32 draw fuel pl sims w = Ok (tt, w') ->
  exists j ndj k1 x w2 val w3,
    descend self np_sqrt np_log float32 draw (length (heap w)) 0 pl w
      = Ok ((j, player_to_move ndj), mkWorld (heap w) k1)
    /\ heap w !! j = Some ndj /\ children_nodes ndj = []
    /\ expansion self draw j (player_to_move ndj) (mkWorld (heap w) k1)
       = Ok (x, w2)
    /\ expansion_step self (heap w) j ndj x (heap w2)
    /\ tree_inv (heap w2) /\ x < length (heap w2)
    /\ evaluation self draw fuel x sims w2 = Ok (val, w3)
    /\ heap w3 = heap w2
    /\ visited_along val (path_to_root (heap w2) x) (heap w2) (heap w').
Proof.
  intros Hi Hr Hpl H. unfold iteration, bind, heap_size in H.
  pose proof (descend_spec self np_sqrt np_log float32 draw
                (length (heap w)) 0 pl w r Hi) as Hd.
  destruct (descend _ _ _ _ _ _ _ _ _) as [[[j pl'] w1]|e] eqn:Ed; [|done].
  destruct Hd as (Hw1 & Hj0 & ndj & Hj & Hleaf & Hplj); [lia|done|done|].
  destruct w1 as [h1 k1]. simpl in Hw1. subst h1 pl'.
  pose proof (expansion_spec self draw j (player_to_move ndj)
                (mkWorld (heap w) k1) ndj Hi Hj Hleaf eq_refl) as He.
  destruct (expansion self draw j (player_to_move ndj) (mkWorld (heap w) k1))
    as [[x w2]|e] eqn:Ee; [|done].
  destruct He as (Hi2 & Hx & _).
  pose proof (evaluation_keeps_heap self draw fuel x sims w2
                (lookup_lt_is_Some_2 _ _ Hx)) as Hev.
  destruct (evaluation self draw fuel x sims w2) as [[val w3]|e] eqn:Ev;
    [|done].
  destruct w3 as [h3 k3]. simpl in Hev. subst h3. simpl in H.
  destruct (backprop_spec val k3 (length (heap w2)) (heap w2) x)
    as (h4 & Hb & Hva); [by apply tree_inv_parents_below|done|done|].
  rewrite Hb in H. inversion H; subst w'. simpl.
  exists j, ndj, k1, x, w2, val, (mkWorld (heap w2) k3).
  do 4 (split; [done|]). split; [|done].
  clear Ev Hb H.
  unfold expansion, bind, get_node in Ee. simpl in Ee. rewrite Hj in Ee.
  destruct (terminal ndj) eqn:Hterm; simpl in Ee.
  - inversion Ee; subst. by left.
  - by apply expand_step in Ee as [? _].
Qed.

End IterationSteps.

(* --------------------------------------------------------------------- *)
(*  The counters of the tree                                              *)
(* --------------------------------------------------------------------- *)

Section StatsFacts.
Local Open Scope nat_scope.
Context {State : Type}.
Local Abbreviation node := (MCTSNode State).

Lemma chain_pred (h : list node) :
  forall gas x i,
    i ∈ chain h gas x -> i <> x ->
    exists c cn, c ∈ chain h gas x /\ h !! c = Some cn /\ parent cn = Some i.
Proof.
  induction gas as [|gas IH]; intros x i Hi Hne.
  { by apply elem_of_nil in Hi. }
  simpl in *. apply elem_of_cons in Hi as [->|Hi]; [done|].
  destruct (h !! x) as [nd|] eqn:Hx; [|by apply elem_of_nil in Hi].
  destruct (parent nd) as [p|] eqn:Hp; [|by apply elem_of_nil in Hi].
  destruct (decide (i = p)) as [->|Hip].
  - exists x, nd. split; [apply list_elem_of_here|done].
  - destruct (IH p i Hi Hip) as (c & cn & Hc & Hcn & Hpar).
    exists c, cn. split; [by apply list_elem_of_further|done].
Qed.

Lemma sum_visits_ext (h1 h2 : list node) (cs : list nat) :
  (forall c, c ∈ cs -> visits h1 c = visits h2 c) ->
  sum_visits h1 cs = sum_visits h2 cs.
Proof.
  induction cs as [|c t IH]; intros Hc; simpl; [done|].
  rewrite Hc by apply list_elem_of_here.
  rewrite IH; [done|]. intros c' Hc'. by apply Hc, list_elem_of_further.
Qed.

Lemma sum_visits_zero (h1 : list node) (cs : list nat) :
  (forall c, c ∈ cs -> visits h1 c = 0) -> sum_visits h1 cs = 0.
Proof.
  induction cs as [|c t IH]; intros Hc; simpl; [done|].
  rewrite Hc by apply list_elem_of_here.
  rewrite IH; [done|]. intros c' Hc'. by apply Hc, list_elem_of_further.
Qed.

Lemma sum_visits_one (v : Q) (P : list nat) (h h' : list node)
    (cs : list nat) (c0 : nat) (n0 : node) :
  visited_along v P h h' ->
  NoDup cs -> c0 ∈ cs -> c0 ∈ P -> h !! c0 = Some n0 ->
  (forall c, c ∈ cs -> c ∈ P -> c = c0) ->
  sum_visits h' cs = sum_visits h cs + 1.
Proof.
  intros Hva. induction cs as [|c t IH]; intros Hnd Hin HP Hn Huniq.
  { by apply elem_of_nil in Hin. }
  inversion Hnd as [|? ? Hnotin Hnd']; subst. simpl.
  destruct (decide (c = c0)) as [->|Hne].
  - rewrite (visited_along_visits_in v P h h' Hva c0 n0 HP Hn).
    rewrite (sum_visits_ext h' h t).
    + unfold visits. rewrite Hn. lia.
    + intros c' Hc'. apply (visited_along_visits_out v P h h' Hva).
      intros Hc'P. assert (c' = c0) as -> by
        (apply Huniq; [by apply list_elem_of_further|done]). done.
  - rewrite (visited_along_visits_out v P h h' Hva c).
    + rewrite IH; [lia|done| |done|done|].
      * apply elem_of_cons in Hin as [?|?]; done.
      * intros c' Hc' Hc'P. apply Huniq; [by apply list_elem_of_further|done].
    + intros HcP. apply Hne. apply Huniq; [apply list_elem_of_here|done].
Qed.

(* the counters after a backpropagation from a childless node x that is
   terminal or was never visited *)
Lemma visited_along_stats (v : Q) (h h' : list node) (x : nat) (ndx : node) :
  tree_inv h -> visited_along v (path_to_root h x) h h' ->
  h !! x = Some ndx -> children_nodes ndx = [] -> x <> 0 ->
  (terminal ndx = false -> n_visits ndx = 0) ->
  (forall i nd, h !! i = Some nd -> children_nodes nd <> [] ->
                0 < n_visits nd \/ i ∈ path_to_root h x) ->
  (forall i nd, h !! i = Some nd -> n_visits nd = 0 ->
                accumulated_value nd = 0%Q) ->
  (forall i nd p, h !! i = Some nd -> parent nd = Some p ->
                  exists pn, h !! p = Some pn /\ i ∈ children_nodes pn) ->
  (forall i nd, h !! i = Some nd -> terminal nd = false ->
                sum_visits h (children_nodes nd) <= n_visits nd
                <= sum_visits h (children_nodes nd) + 1) ->
  (forall r, h !! 0 = Some r -> n_visits r = sum_visits h (children_nodes r)) ->
  stats_inv h'.
Proof.
  intros Hi Hva Hx Hleaf Hx0 Hfresh Hexp Hzero Hlisted Hsum Hroot.
  pose proof (tree_inv_parents_below h Hi) as Hpb.
  pose proof (lookup_lt_Some _ _ _ Hx) as Hxlt.
  unfold path_to_root in *. set (P := chain h (length h) x) in *.
  assert (Hclosed : forall c cn p, c ∈ P -> h !! c = Some cn ->
                                   parent cn = Some p -> p ∈ P).
  { intros c cn p. by apply chain_closed. }
  (* the sum over the children of a node on the path, other than x *)
  assert (Hbump : forall i nd, h !! i = Some nd -> i ∈ P -> i <> x ->
            sum_visits h' (children_nodes nd)
            = sum_visits h (children_nodes nd) + 1).
  { intros i nd Hn HiP Hne.
    destruct (chain_pred h _ _ i HiP Hne) as (c & cn & HcP & Hcn & Hpar).
    destruct (Hlisted c cn i Hcn Hpar) as (pn & Hpn & Hc).
    assert (pn = nd) as -> by congruence.
    apply (sum_visits_one v P h h' _ c cn Hva); try done.
    - by apply (inv_nodup h Hi i nd).
    - intros c' Hc' Hc'P.
      destruct (inv_children h Hi i nd c' Hn Hc') as (cn' & Hcn' & Hpar').
      pose proof (Hpb c cn i Hcn Hpar).
      pose proof (Hpb c' cn' i Hcn' Hpar').
      destruct (chain_gap h Hpb _ _ c cn i c' HcP Hcn Hpar Hc'P);
        destruct (chain_gap h Hpb _ _ c' cn' i c Hc'P Hcn' Hpar' HcP); lia. }
  assert (Hsame : forall i nd, h !! i = Some nd -> i ∉ P ->
            sum_visits h' (children_nodes nd)
            = sum_visits h (children_nodes nd)).
  { intros i nd Hn HiP. apply sum_visits_ext. intros c Hc.
    apply (visited_along_visits_out v P h h' Hva). intros HcP.
    destruct (inv_children h Hi i nd c Hn Hc) as (cn & Hcn & Hpar).
    apply HiP. by eapply Hclosed. }
  constructor.
  - intros i n' Hn' Hc.
    destruct (visited_along_back v P h h' Hva i n' Hn') as (n & Hn & Hcase).
    destruct Hcase as [[Hin ->]|[Hout ->]]; simpl in *; [lia|].
    destruct (Hexp i n Hn Hc); done.
  - intros i n' Hn' Hz.
    destruct (visited_along_back v P h h' Hva i n' Hn') as (n & Hn & Hcase).
    destruct Hcase as [[Hin ->]|[Hout ->]]; simpl in *; [lia|].
    by apply (Hzero i n).
  - intros i n' p Hn' Hpar.
    destruct (visited_along_back v P h h' Hva i n' Hn') as (n & Hn & Hcase).
    assert (Hparn : parent n = Some p).
    { destruct Hcase as [[_ ->]|[_ ->]]; done. }
    destruct (Hlisted i n p Hn Hparn) as (pn & Hpn & Hc).
    rewrite (visited_along_fwd v P h h' Hva p pn Hpn).
    eexists. split; [done|]. by destruct (decide _).
  - intros i n' Hn' Ht.
    destruct (visited_along_back v P h h' Hva i n' Hn') as (n & Hn & Hcase).
    assert (Htn : terminal n = false).
    { destruct Hcase as [[_ ->]|[_ ->]]; done. }
    pose proof (Hsum i n Hn Htn) as Hs.
    destruct Hcase as [[Hin ->]|[Hout ->]]; simpl.
    + destruct (decide (i = x)) as [->|Hne].
      * assert (n = ndx) as -> by congruence.
        rewrite Hleaf in *. simpl in *. rewrite (Hfresh Htn). lia.
      * rewrite (Hbump i n Hn Hin Hne). lia.
    + rewrite (Hsame i n Hn Hout). lia.
  - intros r' Hr'.
    destruct (visited_along_back v P h h' Hva 0 r' Hr') as (r & Hr & Hcase).
    pose proof (Hroot r Hr) as Hs.
    assert (H0 : 0 ∈ P).
    { apply chain_root; try done. apply Hi. }
    destruct Hcase as [[_ ->]|[Hout _]]; [|done]. simpl.
    rewrite (Hbump 0 r Hr H0); [lia|]. lia.
Qed.

End StatsFacts.

Section StatsRun.
Local Open Scope mcts_scope.
Local Open Scope nat_scope.
Context {State : Type}.
Variable self : TwoPlayerMCTS State.
Variables np_sqrt np_log : Q -> Q.
Variable float32 : Q -> score.
Variable draw : nat -> nat.
Local Abbreviation node := (MCTSNode State).

Lemma stats_inv_init (s : State) (pl : Z) :
  stats_inv [new_MCTSNode s pl None false 0%Q].
Proof.
  constructor.
  - intros [|i] nd Hn Hc; [|done]. by inversion Hn; subst.
  - intros [|i] nd Hn _; [|done]. by inversion Hn; subst.
  - intros [|i] nd p Hn Hp; [by inversion Hn; subst|done].
  - intros [|i] nd Hn _; [|done]. inversion Hn; subst. simpl. lia.
  - intros r Hr. by inversion Hr; subst.
Qed.

(* one iteration keeps the counters consistent *)
Lemma iteration_stats (fuel : nat) (pl : Z) (sims : nat)
    (w w' : world State) (r : node) :
  tree_inv (heap w) -> stats_inv (heap w) ->
  heap w !! 0 = Some r -> player_to_move r = pl ->
  iteration self np_sqrt np_log float32 draw fuel pl sims w = Ok (tt, w') ->
  stats_inv (heap w').
Proof.
  intros Hi Hs Hr Hpl H.
  destruct (iteration_decompose self np_sqrt np_log float32 draw fuel pl sims
              w w' r Hi Hr Hpl H)
    as (j & ndj & k1 & x & w2 & val & w3 & _ & Hj & Hleaf & _ & Hstep
        & Hi2 & Hx & _ & _ & Hva).
  set (h := heap w) in *.
  destruct Hstep as [(Hterm & -> & Hh2)|(Hterm & news & acts & Ha & Hh2 & Hlen
                                          & Hfresh & Hxin & _)].
  - rewrite Hh2 in *.
    apply (visited_along_stats val h (heap w') j ndj); try done.
    + intros ->. destruct (inv_root h Hi) as (r0 & Hr0 & _ & Ht0). congruence.
    + congruence.
    + intros i nd Hn Hc. left. by apply (st_expanded h Hs i nd).
    + apply Hs.
    + apply Hs.
    + apply Hs.
    + apply Hs.
  - rewrite Hh2 in *.
    pose proof (lookup_lt_Some _ _ _ Hj) as Hjlt.
    destruct (expanded_new h j ndj news acts (player_to_move ndj) Hj Hfresh
                x Hxin) as (ndx & Hndx & Hpx & Hvx & Hcx & _).
    pose proof Hxin as Hxr. apply elem_of_seq in Hxr.
    apply (visited_along_stats val (expanded h j ndj news acts) (heap w') x ndx);
      try done.
    + lia.
    + intros i nd Hn Hc.
      destruct (expanded_cases h j ndj news acts (player_to_move ndj) Hj Hfresh
                  i nd Hn) as [[-> ->]|[[Hne Hn0]|[Hge Hf]]].
      * right. apply (chain_closed _ (tree_inv_parents_below _ Hi2) _ x x ndx);
          try done.
        apply list_elem_of_lookup. exists 0. apply chain_head. lia.
      * left. by apply (st_expanded h Hs i nd).
      * destruct Hf as (_ & _ & Hcs & _). congruence.
    + intros i nd Hn Hz.
      destruct (expanded_cases h j ndj news acts (player_to_move ndj) Hj Hfresh
                  i nd Hn) as [[-> ->]|[[Hne Hn0]|[Hge Hf]]].
      * simpl in *. by apply (st_zero h Hs j ndj).
      * by apply (st_zero h Hs i nd).
      * by destruct Hf as (_ & _ & _ & Hacc & _).
    + intros i nd p Hn Hp.
      destruct (expanded_cases h j ndj news acts (player_to_move ndj) Hj Hfresh
                  i nd Hn) as [[-> ->]|[[Hne Hn0]|[Hge Hf]]].
      * simpl in Hp. destruct (st_listed h Hs j ndj p Hj Hp) as (pn & Hpn & Hc).
        assert (p <> j).
        { intros ->. assert (pn = ndj) as -> by congruence.
          rewrite Hleaf in Hc. by apply elem_of_nil in Hc. }
        exists pn. split; [by apply expanded_old|done].
      * destruct (st_listed h Hs i nd p Hn0 Hp) as (pn & Hpn & Hc).
        assert (p <> j).
        { intros ->. assert (pn = ndj) as -> by congruence.
          rewrite Hleaf in Hc. by apply elem_of_nil in Hc. }
        exists pn. split; [by apply expanded_old|done].
      * destruct Hf as (Hpar & _).
        assert (p = j) as -> by congruence.
        eexists. split; [by apply expanded_at|]. simpl.
        apply elem_of_seq. split; [done|].
        apply lookup_lt_Some in Hn. rewrite expanded_length in Hn. lia.
    + intros i nd Hn Ht.
      destruct (expanded_cases h j ndj news acts (player_to_move ndj) Hj Hfresh
                  i nd Hn) as [[-> ->]|[[Hne Hn0]|[Hge Hf]]].
      * simpl. pose proof (st_sum h Hs j ndj Hj Hterm) as Hsj.
        rewrite Hleaf in Hsj. simpl in Hsj.
        rewrite sum_visits_zero; [lia|].
        intros c Hc.
        destruct (expanded_new h j ndj news acts (player_to_move ndj) Hj
                    Hfresh c Hc) as (cn & Hcn & _ & Hv & _).
        unfold visits. by rewrite Hcn.
      * rewrite (sum_visits_ext _ h); [by apply (st_sum h Hs i nd)|].
        intros c Hc. apply (visits_expanded_old h j ndj news acts Hj).
        destruct (inv_children h Hi i nd c Hn0 Hc) as (cn & Hcn & _).
        by eapply lookup_lt_Some.
      * destruct Hf as (_ & Hv & -> & _). simpl. lia.
    + intros r0 Hr0.
      destruct (expanded_cases h j ndj news acts (player_to_move ndj) Hj Hfresh
                  0 r0 Hr0) as [[E ->]|[[Hne Hn0]|[Hge Hf]]].
      * simpl. subst j. pose proof (st_root h Hs ndj Hj) as Hsj.
        rewrite Hleaf in Hsj. simpl in Hsj.
        rewrite sum_visits_zero; [lia|].
        intros c Hc.
        destruct (expanded_new h 0 ndj news acts (player_to_move ndj) Hj
                    Hfresh c Hc) as (cn & Hcn & _ & Hv & _).
        unfold visits. by rewrite Hcn.
      * rewrite (sum_visits_ext _ h); [by apply (st_root h Hs r0)|].
        intros c Hc. apply (visits_expanded_old h j ndj news acts Hj).
        destruct (inv_children h Hi 0 r0 c Hn0 Hc) as (cn & Hcn & _).
        by eapply lookup_lt_Some.
      * lia.
Qed.

Lemma iterations_stats (fuel : nat) (pl : Z) (sims : nat) (w0 : world State)
    (r0 : node) :
  tree_inv (heap w0) -> stats_inv (heap w0) ->
  heap w0 !! 0 = Some r0 -> player_to_move r0 = pl ->
  forall N w,
  iterations self np_sqrt np_log float32 draw fuel pl sims N w0 = Ok (tt, w) ->
  stats_inv (heap w).
Proof.
  intros Hi Hs Hr Hpl. induction N as [|N IH]; intros w H.
  - simpl in H. by inversion H; subst.
  - simpl in H. unfold bind in H.
    pose proof (iterations_spec self np_sqrt np_log float32 draw fuel pl sims
                  w0 r0 Hi Hr Hpl N) as Hspec.
    destruct (iterations _ _ _ _ _ _ _ _ N w0) as [[[] w1]|e] eqn:E; [|done].
    destruct Hspec as (Hi1 & _ & Hg1 & _).
    destruct (Hg1 0 r0 Hr) as (r1 & Hr1 & _ & Hp1 & _).
    apply (iteration_stats fuel pl sims w1 w r1);
      [done|by apply IH|done|congruence|done].
Qed.

Lemma run_stats (fuel : nat) (s : State) (pl : Z) (N sims seed : nat)
    (w : world State) :
  run self np_sqrt np_log float32 draw fuel s pl N sims seed = Ok w ->
  stats_inv (heap w).
Proof.
  unfold run. intros H.
  destruct (iterations _ _ _ _ _ _ _ _ N _) as [[[] w1]|e] eqn:E; [|done].
  inversion H; subst w1.
  by apply (iterations_stats fuel pl sims
              (mkWorld [new_MCTSNode s pl None false 0%Q] seed)
              (new_MCTSNode s pl None false 0%Q) (tree_inv_init s pl)
              (stats_inv_init s pl) eq_refl eq_refl N w).
Qed.

End StatsRun.

(* --------------------------------------------------------------------- *)
(*  The edges of the tree and the game                                    *)
(* --------------------------------------------------------------------- *)

Section EdgesRun.
Local Open Scope mcts_scope.
Local Open Scope nat_scope.
Context {State : Type}.
Variable self : TwoPlayerMCTS State.
Variables np_sqrt np_log : Q -> Q.
Variable float32 : Q -> score.
Variable draw : nat -> nat.
Local Abbreviation node := (MCTSNode State).

Lemma edge_of_same (nd nd' cn cn' : node) (a : Z) :
  state nd' = state nd -> player_to_move nd' = player_to_move nd ->
  state cn' = state cn -> terminal cn' = terminal cn ->
  terminal_reward cn' = terminal_reward cn ->
  edge_of self nd a cn -> edge_of self nd' a cn'.
Proof.
  intros E1 E2 E3 E4 E5 (s' & r & d & Ht & Hs & Hd & Hr).
  exists s', r, d. rewrite E1, E2, E3, E4, E5. done.
Qed.

Lemma edges_inv_init (s : State) (pl : Z) :
  edges_inv self [new_MCTSNode s pl None false 0%Q].
Proof. intros [|i] nd Hn Hc; [|done]. by inversion Hn; subst. Qed.

Lemma visited_along_edges (v : Q) (P : list nat) (h h' : list node) :
  visited_along v P h h' -> edges_inv self h -> edges_inv self h'.
Proof.
  intros Hva He i n' Hn' Hc.
  destruct (visited_along_back v P h h' Hva i n' Hn') as (n & Hn & Hcase).
  assert (Hid : state n' = state n /\ player_to_move n' = player_to_move n
                /\ actions n' = actions n
                /\ children_nodes n' = children_nodes n).
  { destruct Hcase as [[_ ->]|[_ ->]]; done. }
  destruct Hid as (E1 & E2 & E3 & E4). rewrite E1, E2, E3, E4 in *.
  destruct (He i n Hn Hc) as [Ha Hall]. split; [done|].
  eapply Forall2_impl; [exact Hall|].
  intros a c (cn & Hcn & Hedge). simpl.
  rewrite (visited_along_fwd v P h h' Hva c cn Hcn).
  eexists. split; [done|].
  eapply edge_of_same; [..|exact Hedge]; try done;
    by destruct (decide _).
Qed.

Lemma expanded_edges (h : list node) (j : nat) (ndj : node)
    (news : list node) (acts : list Z) :
  tree_inv h -> edges_inv self h ->
  h !! j = Some ndj -> children_nodes ndj = [] ->
  get_possible_actions (TwoPlayerGame := game self)
    (player_to_move ndj) (state ndj) = Ok acts ->
  Forall (fresh_child j (player_to_move ndj)) news ->
  Forall2 (edge_of self ndj) acts news ->
  edges_inv self (expanded h j ndj news acts).
Proof.
  intros Hi He Hj Hleaf Ha Hfresh Hedges i n' Hn' Hc.
  pose proof (lookup_lt_Some _ _ _ Hj) as Hjlt.
  destruct (expanded_cases h j ndj news acts (player_to_move ndj) Hj Hfresh
              i n' Hn') as [[-> ->]|[[Hne Hn]|[Hge Hf]]].
  - simpl. split; [done|].
    apply Forall2_same_length_lookup. split.
    + rewrite length_seq. by apply Forall2_length in Hedges.
    + intros k a c Hka Hkc. apply lookup_seq in Hkc as [-> Hk].
      apply lookup_lt_is_Some_2 in Hk as [n Hkn].
      exists n. split.
      * unfold expanded. rewrite list_lookup_insert_ne by lia.
        rewrite lookup_app_r by lia.
        by replace (length h + k - length h) with k by lia.
      * eapply edge_of_same;
          [..|exact (Forall2_lookup_lr _ _ _ _ _ _ Hedges Hka Hkn)]; done.
  - destruct (He i n' Hn Hc) as [Hacts Hall]. split; [done|].
    eapply Forall2_impl; [exact Hall|].
    intros a c (cn & Hcn & Hedge). simpl.
    destruct (expanded_fwd h j ndj news acts Hj c cn Hcn)
      as (cn' & Hcn' & _ & _ & _ & _ & Hsame).
    exists cn'. split; [done|].
    destruct (decide (c = j)) as [->|Hcj].
    + rewrite (expanded_at h j ndj news acts Hj) in Hcn'.
      assert (cn = ndj) as -> by congruence.
      inversion Hcn'; subst cn'. eapply edge_of_same; [..|exact Hedge]; done.
    + by rewrite (Hsame Hcj).
  - destruct Hf as (_ & _ & Hcs & _). congruence.
Qed.

Lemma iteration_edges (fuel : nat) (pl : Z) (sims : nat)
    (w w' : world State) (r : node) :
  tree_inv (heap w) -> edges_inv self (heap w) ->
  heap w !! 0 = Some r -> player_to_move r = pl ->
  iteration self np_sqrt np_log float32 draw fuel pl sims w = Ok (tt, w') ->
  edges_inv self (heap w').
Proof.
  intros Hi He Hr Hpl H.
  destruct (iteration_decompose self np_sqrt np_log float32 draw fuel pl sims
              w w' r Hi Hr Hpl H)
    as (j & ndj & k1 & x & w2 & val & w3 & _ & Hj & Hleaf & _ & Hstep
        & Hi2 & Hx & _ & _ & Hva).
  apply (visited_along_edges _ _ _ _ Hva).
  destruct Hstep as [(Hterm & -> & ->)|(Hterm & news & acts & Ha & -> & Hlen
                                         & Hfresh & Hxin & Hedges)]; [done|].
  by apply expanded_edges.
Qed.

Lemma run_edges (fuel : nat) (s : State) (pl : Z) (N sims seed : nat)
    (w : world State) :
  run self np_sqrt np_log float32 draw fuel s pl N sims seed = Ok w ->
  edges_inv self (heap w).
Proof.
  unfold run. revert w. induction N as [|N IH]; intros w H.
  - simpl in H. inversion H; subst. apply edges_inv_init.
  - simpl in H. unfold bind in H.
    pose proof (iterations_spec self np_sqrt np_log float32 draw fuel pl sims
                  (mkWorld [new_MCTSNode s pl None false 0%Q] seed)
                  (new_MCTSNode s pl None false 0%Q)
                  (tree_inv_init s pl) eq_refl eq_refl N) as Hspec.
    destruct (iterations _ _ _ _ _ _ _ _ N _) as [[[] w1]|e] eqn:E; [|done].
    destruct Hspec as (Hi1 & _ & Hg1 & _).
    destruct (Hg1 0 _ eq_refl) as (r1 & Hr1 & _ & Hp1 & _).
    destruct (iteration _ _ _ _ _ _ _ _ w1) as [[[] w2]|e] eqn:E2; [|done].
    inversion H; subst w2.
    apply (iteration_edges fuel pl sims w1 w r1); try done.
    by apply IH.
Qed.

End EdgesRun.

(* --------------------------------------------------------------------- *)
(*  What every tree returned by run satisfies                             *)
(* --------------------------------------------------------------------- *)

Section TreeTheorems.
Local Open Scope mcts_scope.
Local Open Scope nat_scope.
Context {State : Type}.
Variable self : TwoPlayerMCTS State.
Variables np_sqrt np_log : Q -> Q.
Variable float32 : Q -> score.
Variable draw : nat -> nat.
Local Abbreviation node := (MCTSNode State).
Local Abbreviation run' := (run self np_sqrt np_log float32 draw).

(** X8: the arena that run returns is a tree: the children of a node are
    distinct, as many as its actions, have larger ids, point back to the
    node with their parent field and are to be moved by the other
    player; a node with a parent is listed among the children of that
    parent; and the root, id 0, is the only node without a parent. *)
Theorem run_returns_tree (fuel : nat) (s : State) (pl : Z)
    (N sims seed : nat) (w : world State) :
  run' fuel s pl N sims seed = Ok w ->
  forall i nd, heap w !! i = Some nd ->
    NoDup (children_nodes nd)
    /\ length (actions nd) = length (children_nodes nd)
    /\ (forall c, c ∈ children_nodes nd ->
          i < c
          /\ exists cn, heap w !! c = Some cn /\ parent cn = Some i
               /\ player_to_move cn = (1 - player_to_move nd)%Z)
    /\ (forall p, parent nd = Some p ->
          p < i /\ exists pn, heap w !! p = Some pn /\ i ∈ children_nodes pn)
    /\ (parent nd = None <-> i = 0).
Proof.
  intros H i nd Hn. pose proof (run_stats _ _ _ _ _ _ _ _ _ _ _ _ H) as Hs.
  apply run_spec in H as (Hi & _).
  split; [by apply (inv_nodup _ Hi i nd)|].
  split; [by apply (inv_actions _ Hi i nd)|].
  split; [|split].
  - intros c Hc.
    destruct (inv_children _ Hi i nd c Hn Hc) as (cn & Hcn & Hp).
    destruct (inv_parent _ Hi c cn i Hcn Hp) as (Hlt & _).
    split; [done|]. exists cn. split; [done|]. split; [done|].
    by apply (inv_player _ Hi c cn i nd).
  - intros p Hp.
    destruct (inv_parent _ Hi i nd p Hn Hp) as (Hlt & _).
    split; [done|]. by apply (st_listed _ Hs i nd p).
  - split.
    + by apply (inv_orphan _ Hi i nd).
    + intros ->. destruct (inv_root _ Hi) as (r & Hr & Hp & _). congruence.
Qed.

(** X9: in the tree that run returns, a node with children lists as its
    actions the legal actions of its state for its mover, in the order
    of the game, and the child at the position of an action holds the
    state that make_transition returns for it, is terminal when the
    transition says done, and stores the reward of a done transition
    and 0 otherwise. *)
Theorem run_edges_follow_game (fuel : nat) (s : State) (pl : Z)
    (N sims seed : nat) (w : world State) :
  run' fuel s pl N sims seed = Ok w ->
  forall i nd, heap w !! i = Some nd -> children_nodes nd <> [] ->
    get_possible_actions (TwoPlayerGame := game self)
      (player_to_move nd) (state nd) = Ok (actions nd)
    /\ forall k a c,
         actions nd !! k = Some a -> children_nodes nd !! k = Some c ->
         exists cn s' r d,
           heap w !! c = Some cn
           /\ make_transition (TwoPlayerGame := game self)
                (player_to_move nd) a (state nd) = Ok (s', r, d)
           /\ state cn = s' /\ terminal cn = d
           /\ terminal_reward cn = (if d then r else 0%Q).
Proof.
  intros H i nd Hn Hc.
  destruct (run_edges _ _ _ _ _ _ _ _ _ _ _ _ H i nd Hn Hc) as [Ha Hall].
  split; [done|]. intros k a c Hka Hkc.
  destruct (Forall2_lookup_lr _ _ _ _ _ _ Hall Hka Hkc)
    as (cn & Hcn & s' & r & d & Ht & Hst & Hd & Hr).
  exists cn, s', r, d. done.
Qed.

(** X10: in the tree that run returns, a node that was never visited has
    accumulated_value 0 and no children, and a node that is not terminal
    and has no children was visited at most once: a node is rolled out
    at most once, its next visit expands it. *)
Theorem run_unvisited_nodes (fuel : nat) (s : State) (pl : Z)
    (N sims seed : nat) (w : world State) :
  run' fuel s pl N sims seed = Ok w ->
  forall i nd, heap w !! i = Some nd ->
    (n_visits nd = 0 -> accumulated_value nd = 0%Q /\ children_nodes nd = [])
    /\ (terminal nd = false -> children_nodes nd = [] -> n_visits nd <= 1).
Proof.
  intros H i nd Hn. pose proof (run_stats _ _ _ _ _ _ _ _ _ _ _ _ H) as Hs.
  split.
  - intros Hz. split; [by apply (st_zero _ Hs i nd)|].
    destruct (children_nodes nd) as [|c cs] eqn:E; [done|].
    pose proof (st_expanded _ Hs i nd Hn). rewrite E in *.
    assert (0 < n_visits nd) by auto. lia.
  - intros Ht Hc. pose proof (st_sum _ Hs i nd Hn Ht) as Hsum.
    rewrite Hc in Hsum. simpl in Hsum. lia.
Qed.

(** X11: in the tree that run returns for the budget N, the n_visits of
    the children of the root add up to N, the n_visits of the root; and
    for every node that is not terminal, n_visits is the sum of the
    n_visits of its children, or that sum plus one. *)
Theorem run_visit_sums (fuel : nat) (s : State) (pl : Z)
    (N sims seed : nat) (w : world State) :
  run' fuel s pl N sims seed = Ok w ->
  (exists r, heap w !! 0 = Some r /\ n_visits r = N
             /\ sum_visits (heap w) (children_nodes r) = N)
  /\ forall i nd, heap w !! i = Some nd -> terminal nd = false ->
       n_visits nd = sum_visits (heap w) (children_nodes nd)
       \/ n_visits nd = sum_visits (heap w) (children_nodes nd) + 1.
Proof.
  intros H. pose proof (run_stats _ _ _ _ _ _ _ _ _ _ _ _ H) as Hs.
  apply run_spec in H as (Hi & Hv & _). split.
  - destruct (inv_root _ Hi) as (r & Hr & _).
    exists r. unfold visits in Hv. rewrite Hr in Hv.
    split; [done|]. split; [done|].
    by rewrite <- (st_root _ Hs r Hr).
  - intros i nd Hn Ht. pose proof (st_sum _ Hs i nd Hn Ht). lia.
Qed.

Lemma extends_refl (h : list node) : extends h h.
Proof.
  split; [done|]. intros j n Hn. exists n.
  split; [done|]. split; [apply same_identity_refl|done].
Qed.

Lemma extends_trans (h1 h2 h3 : list node) :
  extends h1 h2 -> extends h2 h3 -> extends h1 h3.
Proof.
  intros [L12 H12] [L23 H23]. split; [lia|]. intros j n Hn.
  destruct (H12 j n Hn) as (n2 & Hn2 & Hs2 & Hv2).
  destruct (H23 j n2 Hn2) as (n3 & Hn3 & Hs3 & Hv3).
  exists n3. split; [done|]. split; [by eapply same_identity_trans|lia].
Qed.

Lemma visited_along_extends (v : Q) (P : list nat) (h h' : list node) :
  visited_along v P h h' -> extends h h'.
Proof.
  intros Hva. split; [by destruct Hva as [-> _]|]. intros j n Hn.
  rewrite (visited_along_fwd v P h h' Hva j n Hn).
  eexists. split; [done|].
  destruct (decide _); simpl; (split; [repeat split; done|lia]).
Qed.

Lemma expansion_step_extends (h : list node) (j : nat) (ndj : node)
    (x : nat) (h2 : list node) :
  h !! j = Some ndj -> children_nodes ndj = [] ->
  expansion_step self h j ndj x h2 -> extends h h2.
Proof.
  intros Hj Hleaf [(_ & _ & ->)|(_ & news & acts & _ & -> & _)].
  { apply extends_refl. }
  split; [rewrite expanded_length; lia|]. intros i n Hn.
  destruct (expanded_grows h j ndj news acts Hj Hleaf i n Hn)
    as (n' & Hn' & Hid).
  destruct (expanded_fwd h j ndj news acts Hj i n Hn)
    as (n2 & Hn2 & _ & Hv & _).
  exists n'. split; [done|]. split; [done|].
  assert (n2 = n') as -> by congruence. lia.
Qed.

Lemma iteration_extends (fuel : nat) (pl : Z) (sims : nat)
    (w w' : world State) (r : node) :
  tree_inv (heap w) -> heap w !! 0 = Some r -> player_to_move r = pl ->
  iteration self np_sqrt np_log float32 draw fuel pl sims w = Ok (tt, w') ->
  extends (heap w) (heap w').
Proof.
  intros Hi Hr Hpl H.
  destruct (iteration_decompose self np_sqrt np_log float32 draw fuel pl sims
              w w' r Hi Hr Hpl H)
    as (j & ndj & k1 & x & w2 & val & w3 & _ & Hj & Hleaf & _ & Hstep
        & _ & _ & _ & _ & Hva).
  eapply extends_trans.
  - by eapply expansion_step_extends.
  - by eapply visited_along_extends.
Qed.

(** X12: a search with a larger budget continues the search with the
    smaller one: if run returns for the budget N + k, it returns for the
    budget N with the same seed, and the larger tree contains every
    node of the smaller one under the same id, with the same state,
    mover, parent, terminal flag and terminal reward, with n_visits not
    smaller, and with the same children and actions once it has any. *)
Theorem run_continues_smaller_budget (fuel : nat) (s : State) (pl : Z)
    (N k sims seed : nat) (w' : world State) :
  run' fuel s pl (N + k) sims seed = Ok w' ->
  exists w, run' fuel s pl N sims seed = Ok w
            /\ extends (heap w) (heap w').
Proof.
  revert w'. induction k as [|k IH]; intros w' H.
  - rewrite Nat.add_0_r in H. exists w'. split; [done|apply extends_refl].
  - rewrite Nat.add_succ_r in H. unfold run in H. simpl in H.
    unfold bind in H.
    pose proof (iterations_spec self np_sqrt np_log float32 draw fuel pl sims
                  (mkWorld [new_MCTSNode s pl None false 0%Q] seed)
                  (new_MCTSNode s pl None false 0%Q)
                  (tree_inv_init s pl) eq_refl eq_refl (N + k)) as Hspec.
    destruct (iterations _ _ _ _ _ _ _ _ (N + k) _) as [[[] w1]|e] eqn:E;
      [|done].
    destruct Hspec as (Hi1 & _ & Hg1 & _).
    destruct (Hg1 0 _ eq_refl) as (r1 & Hr1 & _ & Hp1 & _).
    destruct (iteration _ _ _ _ _ _ _ _ w1) as [[[] w2]|e] eqn:E2; [|done].
    inversion H; subst w2.
    destruct (IH w1) as (w0 & Hw0 & Hext).
    { unfold run. by rewrite E. }
    exists w0. split; [done|].
    eapply extends_trans; [exact Hext|].
    by apply (iteration_extends fuel pl sims w1 w' r1).
Qed.

End TreeTheorems.

(* --------------------------------------------------------------------- *)
(*  Selection visits every child once before any child twice              *)
(* --------------------------------------------------------------------- *)

Section SelectionOrder.
Local Open Scope mcts_scope.
Local Open Scope nat_scope.
Context {State : Type}.
Variable self : TwoPlayerMCTS State.
Variables np_sqrt np_log : Q -> Q.
Variable float32 : Q -> score.
Variable draw : nat -> nat.
Local Abbreviation node := (MCTSNode State).
Local Abbreviation run' := (run self np_sqrt np_log float32 draw).
Local Abbreviation best' := (get_best_action self np_sqrt np_log float32 draw).
Local Abbreviation ucb := (ucb_score self np_sqrt np_log float32).

Lemma ucb_score_unvisited (N : nat) (k : node) :
  n_visits k = 0 -> ucb N k = NegInf.
Proof. intros Hz. unfold ucb_score. by rewrite Hz. Qed.

Lemma score_leb_NegInf (m : score) : score_leb m NegInf = true -> m = NegInf.
Proof. by destruct m. Qed.

Lemma score_eqb_NegInf (s : score) : score_eqb s NegInf = true -> s = NegInf.
Proof. by destruct s. Qed.

Lemma select_result (nd : node) (kids : list node) (w w' : world State)
    (idx : nat) :
  Forall2 (fun c k => heap w !! c = Some k) (children_nodes nd) kids ->
  select_child_node_ucb self np_sqrt np_log float32 draw nd w = Ok (idx, w') ->
  0 < n_visits nd
  /\ w' = mkWorld (heap w) (S (rng w))
  /\ exists m s,
       array_min (map (ucb (n_visits nd)) kids) = Ok m
       /\ map (ucb (n_visits nd)) kids !! idx = Some s
       /\ score_eqb s m = true.
Proof.
  intros Hk H. unfold select_child_node_ucb in H.
  destruct (Nat.leb_spec (n_visits nd) 0); [done|]. split; [done|].
  unfold bind in H.
  rewrite (fill_scores_spec self np_sqrt np_log float32 _ _ _ _ Hk) in H.
  unfold lift in H.
  destruct (array_min _) as [m|] eqn:Hm; [|done].
  unfold choice in H. simpl in H.
  destruct (where_eq _ m 0 !! _) as [y|] eqn:Hy; [|done].
  inversion H; subst. split; [done|].
  assert (Hin : idx ∈ where_eq (map (ucb (n_visits nd)) kids) m 0).
  { apply list_elem_of_lookup. eauto. }
  apply where_eq_elem in Hin as (j & s & -> & Hj & He).
  exists m, s. done.
Qed.

(* with a child without visits among the children, the selected child
   is one whose stored score is -inf *)
Lemma select_sentinel (nd : node) (kids : list node) (w w' : world State)
    (idx : nat) :
  Forall2 (fun c k => heap w !! c = Some k) (children_nodes nd) kids ->
  select_child_node_ucb self np_sqrt np_log float32 draw nd w = Ok (idx, w') ->
  w' = mkWorld (heap w) (S (rng w))
  /\ exists c k, children_nodes nd !! idx = Some c /\ heap w !! c = Some k
       /\ kids !! idx = Some k
       /\ ((exists k0, k0 ∈ kids /\ n_visits k0 = 0) ->
           ucb (n_visits nd) k = NegInf).
Proof.
  intros Hk H.
  destruct (select_result nd kids w w' idx Hk H)
    as (Hv & -> & m & s & Hm & Hs & He).
  split; [done|].
  rewrite list_lookup_fmap in Hs.
  destruct (kids !! idx) as [k|] eqn:Hkid; [|done].
  simpl in Hs. inversion Hs; subst s.
  destruct (Forall2_lookup_r _ _ _ _ _ Hk Hkid) as (c & Hc & Hck).
  exists c, k. split; [done|]. split; [done|]. split; [done|].
  intros (k0 & Hk0 & Hz).
  assert (Hne : map (ucb (n_visits nd)) kids <> []).
  { destruct kids; [done|discriminate]. }
  destruct (array_min_spec _ Hne) as (m' & Hm' & _ & Hlow).
  assert (m' = m) as -> by congruence.
  assert (Hneg : score_leb m NegInf = true).
  { apply Hlow. apply list_elem_of_fmap. exists k0. split; [|done].
    symmetry. by apply ucb_score_unvisited. }
  apply score_leb_NegInf in Hneg. subst m.
  by apply score_eqb_NegInf.
Qed.

(** X13: whatever select_child_node_ucb returns is an index into the
    children of the node, reached with one random draw and without a
    change of the tree. When some child has no visits, the selected
    child is one whose stored score is -inf: a child without visits, or
    a visited child whose score overflowed downwards in the float32
    array and so ties with the children without visits. When no visited
    child has the stored score -inf, the selected child has no
    visits. *)
Theorem select_child_node_ucb_prefers_unvisited (nd : node)
    (kids : list node) (w w' : world State) (idx : nat) :
  Forall2 (fun c k => heap w !! c = Some k) (children_nodes nd) kids ->
  select_child_node_ucb self np_sqrt np_log float32 draw nd w = Ok (idx, w') ->
  w' = mkWorld (heap w) (S (rng w))
  /\ (exists c k, children_nodes nd !! idx = Some c /\ heap w !! c = Some k
        /\ ((exists k0, k0 ∈ kids /\ n_visits k0 = 0) ->
            ucb (n_visits nd) k = NegInf
            /\ (n_visits k = 0
                \/ (n_visits k <> 0
                    /\ float32 (accumulated_value k / Qnat (n_visits k)
                                - exploration_coef self
                                  * np_sqrt (np_log (Qnat (n_visits nd))
                                             / Qnat (n_visits k)))%Q
                       = NegInf))
            /\ ((forall k', k' ∈ kids -> n_visits k' <> 0 ->
                   ucb (n_visits nd) k' <> NegInf) ->
                n_visits k = 0))).
Proof.
  intros Hk H.
  destruct (select_sentinel nd kids w w' idx Hk H)
    as (-> & c & k & Hc & Hck & Hkid & Hs).
  split; [done|]. exists c, k. split; [done|]. split; [done|].
  intros Hz. specialize (Hs Hz). split; [done|]. split.
  - unfold ucb_score in Hs.
    destruct (Nat.eqb_spec (n_visits k) 0) as [E|E]; [by left|].
    right. done.
  - intros Hno. destruct (Nat.eq_dec (n_visits k) 0) as [E|E]; [done|].
    destruct (Hno k); [|done|done].
    apply list_elem_of_lookup. eauto.
Qed.

Lemma select_unvisited (nd : node) (w w' : world State) (idx : nat) :
  (forall c, c ∈ children_nodes nd -> is_Some (heap w !! c)) ->
  (forall c k, c ∈ children_nodes nd -> heap w !! c = Some k ->
               n_visits k <> 0 -> ucb (n_visits nd) k <> NegInf) ->
  (exists c, c ∈ children_nodes nd /\ visits (heap w) c = 0) ->
  select_child_node_ucb self np_sqrt np_log float32 draw nd w = Ok (idx, w') ->
  heap w' = heap w
  /\ exists c, children_nodes nd !! idx = Some c /\ visits (heap w) c = 0.
Proof.
  intros Hin Hno (c0 & Hc0 & Hz) H.
  destruct (kids_exist _ _ Hin) as [kids Hk].
  destruct (select_sentinel nd kids w w' idx Hk H)
    as (-> & c & k & Hc & Hck & Hkid & Hs).
  split; [done|]. exists c. split; [done|]. unfold visits. rewrite Hck.
  apply list_elem_of_lookup in Hc0 as [i0 Hi0].
  destruct (Forall2_lookup_l _ _ _ _ _ Hk Hi0) as (k0 & Hk0 & Hck0).
  unfold visits in Hz. rewrite Hck0 in Hz.
  destruct (Nat.eq_dec (n_visits k) 0) as [E|E]; [done|].
  destruct (Hno c k); try done.
  - apply list_elem_of_lookup. eauto.
  - apply Hs. exists k0. split; [|done]. apply list_elem_of_lookup. eauto.
Qed.

(* from a root with an unvisited child the forward pass stops at an
   unvisited child of the root *)
Lemma descend_root_unvisited (pl : Z) (w w1 : world State) (r : node)
    (j : nat) (pl' : Z) :
  tree_inv (heap w) -> stats_inv (heap w) -> heap w !! 0 = Some r ->
  root_scores_above_sentinel self np_sqrt np_log float32 (heap w) ->
  (exists c, c ∈ children_nodes r /\ visits (heap w) c = 0) ->
  descend self np_sqrt np_log float32 draw (length (heap w)) 0 pl w
    = Ok ((j, pl'), w1) ->
  j ∈ children_nodes r /\ visits (heap w) j = 0.
Proof.
  intros Hi Hs Hr Hno Hz H.
  assert (Hin : forall c, c ∈ children_nodes r -> is_Some (heap w !! c)).
  { intros c Hc. destruct (inv_children _ Hi 0 r c Hr Hc) as (cn & -> & _).
    eauto. }
  destruct (length (heap w)) as [|g] eqn:Hlen.
  { apply lookup_lt_Some in Hr. lia. }
  cbn [descend] in H. unfold bind, get_node in H. rewrite Hr in H.
  destruct (children_nodes r) as [|c0 cs] eqn:Hcs.
  { destruct Hz as (c & Hc & _). by apply elem_of_nil in Hc. }
  simpl in H. rewrite <- Hcs in *.
  destruct (select_child_node_ucb _ _ _ _ _ r w) as [[idx w0]|e] eqn:Es;
    [|done].
  destruct (select_unvisited r w w0 idx Hin) as (Hw0 & c & Hc & Hvc);
    [|done|done|].
  { intros c k Hc Hk Hv. by apply (Hno r c k). }
  rewrite Hc in H.
  assert (Hcin : c ∈ children_nodes r) by (apply list_elem_of_lookup; eauto).
  destruct (inv_children _ Hi 0 r c Hr Hcin) as (cn & Hcn & Hpar).
  destruct (inv_parent _ Hi c cn 0 Hcn Hpar) as (Hlt & _).
  pose proof (lookup_lt_Some _ _ _ Hcn) as Hclt.
  destruct g as [|g]; [lia|].
  cbn [descend] in H. unfold bind, get_node in H. rewrite Hw0, Hcn in H.
  assert (Hleaf : children_nodes cn = []).
  { destruct (children_nodes cn) as [|c1 l] eqn:E; [done|].
    pose proof (st_expanded _ Hs c cn Hcn) as Hpos. rewrite E in Hpos.
    unfold visits in Hvc. rewrite Hcn in Hvc.
    assert (0 < n_visits cn) by auto. lia. }
  rewrite Hleaf in H. simpl in H. inversion H; subst. done.
Qed.

Lemma count_visited_grows (h h' : list node) (cs : list nat) :
  (forall c, visits h c <= visits h' c) ->
  count_visited h cs <= count_visited h' cs.
Proof.
  intros Hm. induction cs as [|c t IH]; simpl; [done|].
  specialize (Hm c).
  destruct (Nat.ltb_spec 0 (visits h c)), (Nat.ltb_spec 0 (visits h' c)); lia.
Qed.

Lemma count_visited_gains (h h' : list node) (cs : list nat) (c0 : nat) :
  (forall c, visits h c <= visits h' c) ->
  c0 ∈ cs -> visits h c0 = 0 -> 0 < visits h' c0 ->
  count_visited h cs < count_visited h' cs.
Proof.
  intros Hm. induction cs as [|c t IH]; intros Hin Hz Hp.
  { by apply elem_of_nil in Hin. }
  simpl. pose proof (count_visited_grows h h' t Hm) as Ht.
  apply elem_of_cons in Hin as [->|Hin].
  - destruct (Nat.ltb_spec 0 (visits h c)), (Nat.ltb_spec 0 (visits h' c)); lia.
  - specialize (IH Hin Hz Hp). specialize (Hm c).
    destruct (Nat.ltb_spec 0 (visits h c)), (Nat.ltb_spec 0 (visits h' c)); lia.
Qed.

Lemma count_visited_le_length (h : list node) (cs : list nat) :
  count_visited h cs <= length cs.
Proof.
  induction cs as [|c t IH]; simpl; [done|].
  destruct (0 <? visits h c); lia.
Qed.

Lemma extends_visits (h h' : list node) :
  extends h h' -> forall c, visits h c <= visits h' c.
Proof.
  intros [_ He] c. unfold visits.
  destruct (h !! c) as [n|] eqn:Hn; [|lia].
  by destruct (He c n Hn) as (n' & -> & _ & Hv).
Qed.

(* an iteration on a root with children visits one more child of the
   root as long as one is left without visits *)
Lemma iteration_visits_new_child (fuel : nat) (pl : Z) (sims : nat)
    (w w' : world State) (r : node) :
  tree_inv (heap w) -> stats_inv (heap w) ->
  root_scores_above_sentinel self np_sqrt np_log float32 (heap w) ->
  heap w !! 0 = Some r -> player_to_move r = pl ->
  iteration self np_sqrt np_log float32 draw fuel pl sims w = Ok (tt, w') ->
  Nat.min (S (count_visited (heap w) (children_nodes r)))
          (length (children_nodes r))
  <= count_visited (heap w') (children_nodes r).
Proof.
  intros Hi Hs Hno Hr Hpl H.
  pose proof (iteration_extends self np_sqrt np_log float32 draw fuel pl sims
                w w' r Hi Hr Hpl H) as Hext.
  pose proof (extends_visits _ _ Hext) as Hmono.
  destruct (iteration_decompose self np_sqrt np_log float32 draw fuel pl sims
              w w' r Hi Hr Hpl H)
    as (j & ndj & k1 & x & w2 & val & w3 & Hd & Hj & Hleaf & _ & Hstep
        & Hi2 & Hx & _ & _ & Hva).
  pose proof (count_visited_le_length (heap w) (children_nodes r)) as Hle.
  destruct (decide (count_visited (heap w) (children_nodes r)
                    = length (children_nodes r))) as [Hall|Hsome].
  { pose proof (count_visited_grows _ _ (children_nodes r) Hmono). lia. }
  assert (Hz : exists c, c ∈ children_nodes r /\ visits (heap w) c = 0).
  { apply count_visited_short. lia. }
  destruct (descend_root_unvisited pl w _ r j _ Hi Hs Hr Hno Hz Hd)
    as [Hjin Hjz].
  assert (Hgain : count_visited (heap w) (children_nodes r)
                  < count_visited (heap w') (children_nodes r)); [|lia].
  apply (count_visited_gains _ _ _ j); try done.
  (* j is on the path of the backpropagation *)
  assert (HjP : j ∈ path_to_root (heap w2) x).
  { pose proof (tree_inv_parents_below _ Hi2) as Hpb.
    assert (Hxh : x ∈ path_to_root (heap w2) x).
    { apply list_elem_of_lookup. exists 0. apply chain_head. lia. }
    destruct Hstep as [(_ & -> & _)|(_ & news & acts & _ & Hh2 & _ & Hfresh
                                     & Hxin & _)]; [done|].
    rewrite Hh2 in *.
    destruct (expanded_new (heap w) j ndj news acts (player_to_move ndj) Hj
                Hfresh x Hxin) as (ndx & Hndx & Hpx & _).
    by apply (chain_closed _ Hpb _ x x ndx). }
  assert (Hj2 : is_Some (heap w2 !! j)).
  { apply lookup_lt_is_Some_2.
    pose proof (expansion_step_extends self _ _ _ _ _ Hj Hleaf Hstep) as [Hl _].
    apply lookup_lt_Some in Hj. lia. }
  destruct Hj2 as [nj2 Hnj2].
  rewrite (visited_along_visits_in val _ (heap w2) (heap w') Hva j nj2 HjP Hnj2).
  lia.
Qed.

Lemma count_visited_pos (h : list node) (cs : list nat) (c : nat) :
  c ∈ cs -> 0 < visits h c -> 1 <= count_visited h cs.
Proof.
  induction cs as [|c' t IH]; intros Hin Hp.
  { by apply elem_of_nil in Hin. }
  simpl. apply elem_of_cons in Hin as [->|Hin].
  - destruct (Nat.ltb_spec 0 (visits h c')); lia.
  - specialize (IH Hin Hp). lia.
Qed.

(* the first iteration visits one child of the root *)
Lemma iteration_first_visit (fuel : nat) (pl : Z) (sims : nat)
    (w w' : world State) (r r' : node) :
  tree_inv (heap w) -> heap w !! 0 = Some r -> player_to_move r = pl ->
  children_nodes r = [] ->
  iteration self np_sqrt np_log float32 draw fuel pl sims w = Ok (tt, w') ->
  heap w' !! 0 = Some r' ->
  1 <= count_visited (heap w') (children_nodes r').
Proof.
  intros Hi Hr Hpl Hrleaf H Hr'.
  destruct (iteration_decompose self np_sqrt np_log float32 draw fuel pl sims
              w w' r Hi Hr Hpl H)
    as (j & ndj & k1 & x & w2 & val & w3 & Hd & Hj & Hleaf & _ & Hstep
        & Hi2 & Hx & _ & _ & Hva).
  assert (Hj0 : j = 0).
  { pose proof (descend_spec self np_sqrt np_log float32 draw
                  (length (heap w)) 0 pl w r Hi) as Hds.
    rewrite Hd in Hds. destruct Hds as (_ & Hj0 & _); [lia|done|done|].
    by apply Hj0. }
  subst j. assert (ndj = r) as -> by congruence.
  destruct (inv_root _ Hi) as (r0 & Hr0 & _ & Hterm).
  assert (r0 = r) as -> by congruence.
  destruct Hstep as [(Ht & _)|(_ & news & acts & _ & Hh2 & _ & Hfresh
                               & Hxin & _)]; [congruence|].
  rewrite Hh2 in *.
  pose proof (expanded_at (heap w) 0 r news acts Hr) as Hroot2.
  rewrite (visited_along_fwd val _ _ (heap w') Hva 0 _ Hroot2) in Hr'.
  assert (Hcs : children_nodes r' = seq (length (heap w)) (length news)).
  { inversion Hr'. by destruct (decide _). }
  rewrite Hcs. apply (count_visited_pos _ _ x); [done|].
  destruct (expanded_new (heap w) 0 r news acts (player_to_move r) Hr Hfresh
              x Hxin) as (ndx & Hndx & _).
  rewrite (visited_along_visits_in val _ _ (heap w') Hva x ndx); [lia| |done].
  apply list_elem_of_lookup. exists 0. apply chain_head. lia.
Qed.

Lemma iterations_visit_children (fuel : nat) (s : State) (pl : Z)
    (sims seed : nat) :
  forall N w r,
  (forall M wM, M < N ->
     iterations self np_sqrt np_log float32 draw fuel pl sims M
       (mkWorld [new_MCTSNode s pl None false 0%Q] seed) = Ok (tt, wM) ->
     root_scores_above_sentinel self np_sqrt np_log float32 (heap wM)) ->
  iterations self np_sqrt np_log float32 draw fuel pl sims N
    (mkWorld [new_MCTSNode s pl None false 0%Q] seed) = Ok (tt, w) ->
  heap w !! 0 = Some r ->
  Nat.min N (length (children_nodes r))
  <= count_visited (heap w) (children_nodes r).
Proof.
  induction N as [|N IH]; intros w r Hno H Hr; [simpl; lia|].
  simpl in H. unfold bind in H.
  pose proof (iterations_spec self np_sqrt np_log float32 draw fuel pl sims
                (mkWorld [new_MCTSNode s pl None false 0%Q] seed)
                (new_MCTSNode s pl None false 0%Q)
                (tree_inv_init s pl) eq_refl eq_refl N) as Hspec.
  destruct (iterations _ _ _ _ _ _ _ _ N _) as [[[] w1]|e] eqn:E; [|done].
  destruct Hspec as (Hi1 & _ & Hg1 & _ & Hroot1).
  destruct (Hg1 0 _ eq_refl) as (r1 & Hr1 & _ & Hp1 & _).
  simpl in Hp1.
  pose proof (iterations_stats self np_sqrt np_log float32 draw fuel pl sims
                (mkWorld [new_MCTSNode s pl None false 0%Q] seed)
                (new_MCTSNode s pl None false 0%Q)
                (tree_inv_init s pl) (stats_inv_init s pl) eq_refl eq_refl
                N w1 E) as Hs1.
  assert (Hit : iteration self np_sqrt np_log float32 draw fuel pl sims w1
                = Ok (tt, w)).
  { destruct (iteration _ _ _ _ _ _ _ _ w1) as [[[] w2]|e]; [|done].
    by inversion H. }
  destruct (children_nodes r1) as [|c0 cs] eqn:Hcs.
  - pose proof (iteration_first_visit fuel pl sims w1 w r1 r Hi1 Hr1 Hp1 Hcs
                  Hit Hr).
    destruct N as [|N]; [lia|]. exfalso.
    destruct Hroot1 as (acts & r1' & _ & Hne & Hr1' & Hacts); [lia|done|].
    assert (r1' = r1) as -> by congruence.
    pose proof (inv_actions _ Hi1 0 r1 Hr1) as Hl.
    rewrite Hcs, Hacts in Hl. by destruct acts.
  - pose proof (iteration_spec self np_sqrt np_log float32 draw fuel pl sims
                  w1 r1 Hi1 Hr1 Hp1) as Hspec2.
    rewrite Hit in Hspec2. destruct Hspec2 as (_ & _ & Hg2 & _).
    destruct (Hg2 0 r1 Hr1) as (r2 & Hr2 & _ & _ & _ & _ & _ & Hkeep).
    assert (r2 = r) as -> by congruence.
    destruct Hkeep as [Hsame _]; [by rewrite Hcs|].
    rewrite Hsame.
    pose proof (iteration_visits_new_child fuel pl sims w1 w r1 Hi1 Hs1
                  (Hno N w1 (Nat.lt_succ_diag_r N) E) Hr1 Hp1 Hit) as Hnew.
    assert (IH' : Nat.min N (length (children_nodes r1))
                  <= count_visited (heap w1) (children_nodes r1)).
    { apply IH; [|done|done]. intros M wM HM. apply Hno. lia. }
    lia.
Qed.

(* with a budget of at least the number of root actions, and no overflow
   of a stored score at the root, every root child is visited and the
   final choice succeeds *)
Lemma enough_budget_best_action (fuel : nat) (s : State) (pl : Z)
    (N sims seed : nat) (w : world State) (acts : list Z) :
  run' fuel s pl N sims seed = Ok w ->
  get_possible_actions (TwoPlayerGame := game self) pl s = Ok acts ->
  1 <= N -> length acts <= N ->
  (forall M wM, M < N -> run' fuel s pl M sims seed = Ok wM ->
     root_scores_above_sentinel self np_sqrt np_log float32 (heap wM)) ->
  exists r j a c n,
    heap w !! 0 = Some r /\ actions r = acts
    /\ (forall c', c' ∈ children_nodes r -> 0 < visits (heap w) c')
    /\ best' fuel s pl N sims seed = Ok a
    /\ acts !! j = Some a /\ children_nodes r !! j = Some c
    /\ heap w !! c = Some n
    /\ forall c' n', c' ∈ children_nodes r -> heap w !! c' = Some n' ->
         (accumulated_value n / Qnat (n_visits n)
          <= accumulated_value n' / Qnat (n_visits n'))%Q.
Proof.
  intros H Ha HN Hlen Hno. pose proof H as Hrun.
  apply run_spec in H as (Hi & Hv & _ & _ & Hroot).
  destruct Hroot as (acts' & r & Ha' & Hne & Hr & Hacts); [lia|].
  assert (acts' = acts) as -> by congruence.
  pose proof (inv_actions _ Hi 0 r Hr) as Hl. rewrite Hacts in Hl.
  assert (Hcount : length (children_nodes r)
                   <= count_visited (heap w) (children_nodes r)).
  { unfold run in Hrun.
    destruct (iterations _ _ _ _ _ _ _ _ N _) as [[[] w1]|e] eqn:E; [|done].
    inversion Hrun; subst w1.
    pose proof (iterations_visit_children fuel s pl sims seed N w r) as Hc.
    specialize (Hc ltac:(intros M wM HM EM; apply (Hno M wM HM);
                         unfold run; by rewrite EM) E Hr).
    lia. }
  assert (Hall : forall c', c' ∈ children_nodes r -> 0 < visits (heap w) c').
  { intros c' Hc'.
    destruct (Nat.eq_dec (visits (heap w) c') 0) as [Hz|Hz]; [|lia].
    exfalso. clear -Hcount Hc' Hz.
    induction (children_nodes r) as [|c t IH]; [by apply elem_of_nil in Hc'|].
    simpl in Hcount. pose proof (count_visited_le_length (heap w) t).
    apply elem_of_cons in Hc' as [->|Hc'].
    - rewrite Hz in Hcount. simpl in Hcount. lia.
    - apply IH; [|done]. destruct (0 <? visits (heap w) c); lia. }
  assert (Hcne : children_nodes r <> []).
  { intros E. rewrite E in Hl. by destruct acts. }
  destruct (get_best_action_all_visited self np_sqrt np_log float32 draw
              fuel s pl N sims seed w r Hrun Hr Hcne)
    as (j & a & c & n & Hb & Hja & Hjc & Hn & Hmin).
  { intros c' Hc'. specialize (Hall c' Hc'). lia. }
  exists r, j, a, c, n. rewrite <- Hacts. done.
Qed.

(** X14: when the search returns for a budget that is at least 1 and at
    least the number of legal actions at the root, and in the searches
    with the smaller budgets no score stored for a visited child of the
    root is -inf (the float32 store did not overflow downwards at the
    root), every child of the root was visited, and get_best_action
    returns an action instead of dividing by zero: an action of the root
    whose child has the least ratio accumulated_value / n_visits among
    the children of the root. *)
Theorem get_best_action_with_enough_budget (fuel : nat) (s : State) (pl : Z)
    (N sims seed : nat) (w : world State) (acts : list Z) :
  run' fuel s pl N sims seed = Ok w ->
  get_possible_actions (TwoPlayerGame := game self) pl s = Ok acts ->
  1 <= N -> length acts <= N ->
  (forall M wM, M < N -> run' fuel s pl M sims seed = Ok wM ->
     root_scores_above_sentinel self np_sqrt np_log float32 (heap wM)) ->
  exists r j a c n,
    heap w !! 0 = Some r /\ actions r = acts
    /\ (forall c', c' ∈ children_nodes r -> 0 < visits (heap w) c')
    /\ best' fuel s pl N sims seed = Ok a
    /\ acts !! j = Some a /\ children_nodes r !! j = Some c
    /\ heap w !! c = Some n
    /\ forall c' n', c' ∈ children_nodes r -> heap w !! c' = Some n' ->
         (accumulated_value n / Qnat (n_visits n)
          <= accumulated_value n' / Qnat (n_visits n'))%Q.
Proof.
  intros H Ha HN Hlen Hno.
  exact (enough_budget_best_action fuel s pl N sims seed w acts H Ha HN Hlen
           Hno).
Qed.

End SelectionOrder.

(* --------------------------------------------------------------------- *)
(*  The exceptions of the search                                          *)
(* --------------------------------------------------------------------- *)

Section SearchErrorFacts.
Local Open Scope mcts_scope.
Local Open Scope nat_scope.
Context {State : Type}.
Variable self : TwoPlayerMCTS State.
Variables np_sqrt np_log : Q -> Q.
Variable float32 : Q -> score.
Variable draw : nat -> nat.
Local Abbreviation node := (MCTSNode State).
Local Abbreviation ucb := (ucb_score self np_sqrt np_log float32).

(* selection at a visited node with children returns one of them *)
Lemma select_total (nd : node) (kids : list node) (w : world State) :
  0 < n_visits nd -> children_nodes nd <> [] ->
  Forall2 (fun c k => heap w !! c = Some k) (children_nodes nd) kids ->
  exists idx c,
    select_child_node_ucb self np_sqrt np_log float32 draw nd w
    = Ok (idx, mkWorld (heap w) (S (rng w)))
    /\ children_nodes nd !! idx = Some c.
Proof.
  intros Hv Hne Hk. unfold select_child_node_ucb.
  destruct (Nat.leb_spec (n_visits nd) 0); [lia|].
  unfold bind. rewrite (fill_scores_spec self np_sqrt np_log float32 _ _ _ _ Hk).
  unfold lift.
  assert (Hl : map (ucb (n_visits nd)) kids <> []).
  { destruct kids; [|done]. apply Forall2_length in Hk.
    destruct (children_nodes nd); done. }
  destruct (array_min_spec _ Hl) as (m & -> & Hin & _).
  apply list_elem_of_lookup in Hin as [j Hj].
  assert (Hw : j ∈ where_eq (map (ucb (n_visits nd)) kids) m 0).
  { apply where_eq_elem. exists j, m. split; [done|]. split; [done|].
    apply score_eqb_leb. split; apply score_leb_refl. }
  assert (Hne' : where_eq (map (ucb (n_visits nd)) kids) m 0 <> []).
  { intros E. rewrite E in Hw. by apply elem_of_nil in Hw. }
  destruct (choice_spec draw _ w Hne') as (idx & Hidx & ->).
  exists idx.
  assert (Hi : idx ∈ where_eq (map (ucb (n_visits nd)) kids) m 0).
  { apply list_elem_of_lookup. eauto. }
  apply where_eq_elem in Hi as (j' & s & -> & Hs & _). simpl.
  apply lookup_lt_Some in Hs. rewrite length_map in Hs.
  rewrite <- (Forall2_length _ _ _ Hk) in Hs.
  apply lookup_lt_is_Some_2 in Hs as [c Hc]. exists c. done.
Qed.

(* the forward pass always reaches a leaf of a tree that the search built *)
Lemma descend_total :
  forall gas i pl (w : world State) nd,
  tree_inv (heap w) -> stats_inv (heap w) -> length (heap w) <= gas + i ->
  heap w !! i = Some nd ->
  exists j pl' w',
    descend self np_sqrt np_log float32 draw gas i pl w = Ok ((j, pl'), w').
Proof.
  induction gas as [|gas IH]; intros i pl w nd Hi Hs Hg Hnd.
  { apply lookup_lt_Some in Hnd. lia. }
  simpl. unfold bind, get_node. rewrite Hnd.
  destruct (children_nodes nd) as [|c0 cs] eqn:Hcs; simpl; [by eauto|].
  destruct (kids_exist (heap w) (children_nodes nd)) as [kids Hk].
  { intros c Hc. destruct (inv_children _ Hi i nd c Hnd Hc) as (cn & -> & _).
    eauto. }
  destruct (select_total nd kids w) as (idx & c & -> & Hc); [| |done|].
  { apply (st_expanded _ Hs i nd Hnd). by rewrite Hcs. }
  { by rewrite Hcs. }
  rewrite Hcs in Hc. rewrite Hc.
  assert (Hin : c ∈ children_nodes nd).
  { rewrite Hcs. apply list_elem_of_lookup. eauto. }
  destruct (inv_children _ Hi i nd c Hnd Hin) as (cn & Hcn & Hpar).
  destruct (inv_parent _ Hi c cn i Hcn Hpar) as (Hlt & _).
  apply (IH c _ (mkWorld (heap w) (S (rng w))) cn); simpl; try done. lia.
Qed.









End SearchErrorFacts.


(* --------------------------------------------------------------------- *)
(*  The search on the example game                                        *)
(* --------------------------------------------------------------------- *)

Section TicTacToeSearch.
Import TicTacToeSpec TicTacToeRules.
Local Abbreviation board := TicTacToe.board.
Local Abbreviation well_formed := TicTacToe.well_formed.
Local Open Scope mcts_scope.
Variable c : Q.
Variables np_sqrt np_log : Q -> Q.
Variable float32 : Q -> score.
Variable draw : nat -> nat.
Local Abbreviation self := (mkEngine TicTacToe_game c).
Local Abbreviation node := (MCTSNode board).

Lemma Qnat_succ (n : nat) : (Qnat (n + 1) == Qnat n + 1)%Q.
Proof.
  unfold Qnat. rewrite Nat2Z.inj_add, inject_Z_plus. reflexivity.
Qed.

Lemma average_bounds (z : Z) (n : nat) :
  (1 <= n)%nat -> - Z.of_nat n <= z <= Z.of_nat n ->
  (-1 <= inject_Z z / Qnat n <= 1)%Q.
Proof.
  intros Hn Hz.
  assert (Hpos : (0 < Qnat n)%Q).
  { unfold Qnat. rewrite <- (Zlt_Qlt 0). lia. }
  split.
  - apply Qle_shift_div_l; [done|]. unfold Qnat.
    rewrite <- (inject_Z_mult (-1)), <- Zle_Qle. lia.
  - apply Qle_shift_div_r; [done|]. unfold Qnat.
    rewrite <- (inject_Z_mult 1), <- Zle_Qle. lia.
Qed.

Lemma empty_cells_length (b : board) : (length (empty_cells b) <= 9)%nat.
Proof. unfold empty_cells. apply (filter_length_le _ all_cells). Qed.

Lemma ttt_inv_init (b : board) (pl : Z) :
  well_formed b -> pl = 0 \/ pl = 1 -> empty_cells b <> [] ->
  ttt_inv [new_MCTSNode b pl None false 0%Q].
Proof.
  intros Hw Hp Hne [|i] nd Hn; [|done]. inversion Hn; subst.
  unfold ttt_node_ok. simpl.
  split; [done|]. split; [done|]. split; [done|]. by split.
Qed.

Lemma visit_ok (v : Q) (nd : node) :
  (-1 <= v <= 1)%Q -> ttt_node_ok nd -> ttt_node_ok (visit v nd).
Proof.
  intros [Hv1 Hv2] (Hw & Hp & He & Hr & Ha1 & Ha2).
  unfold ttt_node_ok, visit. simpl.
  split; [done|]. split; [done|]. split; [done|]. split; [done|].
  rewrite Qnat_succ.
  destruct (player_to_move nd =? 0); split; lra.
Qed.

Lemma visited_along_ttt (v : Q) (P : list nat) (h h' : list node) :
  (-1 <= v <= 1)%Q -> visited_along v P h h' -> ttt_inv h -> ttt_inv h'.
Proof.
  intros Hv Hva Hi i n' Hn'.
  destruct (visited_along_back v P h h' Hva i n' Hn')
    as (n & Hn & [[_ ->]|[_ ->]]).
  - apply visit_ok; [done|]. by apply (Hi i).
  - by apply (Hi i).
Qed.

Lemma ttt_edge_ok (nd n : node) (a : Z) (j : nat) :
  ttt_node_ok nd -> edge_of self nd a n ->
  fresh_child j (player_to_move nd) n -> ttt_node_ok n.
Proof.
  intros (Hw & Hp & _) (s' & r & d & Ht & Hs & Hd & Hr)
    (_ & Hv & _ & Hacc & Hpl & _).
  change (make_transition (TwoPlayerGame := game self)
            (player_to_move nd) a (state nd))
    with (rbind (TicTacToe.make_transition (player_to_move nd) a (state nd))
            (fun '(ns, r, d) => Ok (ns, inject_Z r, d))) in Ht.
  destruct (TicTacToe.make_transition (player_to_move nd) a (state nd))
    as [[[ns rz] dz]|] eqn:E; [|done].
  simpl in Ht. injection Ht as E1 E2 E3.
  destruct (make_transition_ok_legal _ _ _ _ _ _ Hw E) as [Ha Hta].
  rewrite (make_transition_legal _ _ _ Hw Ha Hta) in E.
  injection E as <- <- <-.
  unfold ttt_node_ok. rewrite Hs, Hd, Hr, Hv, Hacc, Hpl, <- E1, <- E2, <- E3.
  split; [by apply place_well_formed|].
  split; [unfold change_player_idx; lia|]. split.
  - intros Hf. apply orb_false_iff in Hf as [_ Hf].
    intros E'. apply full_no_empty in E'. congruence.
  - split.
    + destruct (wins _ _); simpl.
      * by destruct (player_to_move nd =? 0); split.
      * by destruct (full _); split.
    + unfold Qnat. simpl. by split.
Qed.

Lemma expansion_step_ttt (h h2 : list node) (j x : nat) (ndj : node) :
  ttt_inv h -> h !! j = Some ndj ->
  expansion_step self h j ndj x h2 -> ttt_inv h2.
Proof.
  intros Hi Hj [(_ & _ & ->)|(_ & news & acts & _ & -> & Hlen & Hfresh
                               & _ & Hedges)]; [done|].
  intros i n' Hn'. pose proof (Hi j ndj Hj) as Hok.
  destruct (decide (i = j)) as [->|Hne].
  - rewrite (expanded_at h j ndj news acts Hj) in Hn'. inversion Hn'; subst.
    exact Hok.
  - unfold expanded in Hn'. rewrite list_lookup_insert_ne in Hn' by done.
    apply lookup_app_Some in Hn' as [Hn'|[Hge Hn']]; [by apply (Hi i)|].
    destruct (Forall2_lookup_r _ _ _ _ _ Hedges Hn') as (a & _ & Hedge).
    apply (ttt_edge_ok ndj n' a j Hok Hedge).
    eapply Forall_lookup_1; eauto.
Qed.

Lemma ttt_make_children_total (i : nat) (b : board) (pl : Z) :
  well_formed b ->
  forall todo cs acts (w : world board),
  (forall a, a ∈ todo -> a ∈ empty_cells b) ->
  exists r w', make_children self i b pl todo cs acts w = Ok (r, w').
Proof.
  intros Hw. induction todo as [|a todo IH]; intros cs acts w Hall.
  - by eexists _, _.
  - cbn [make_children]. unfold bind, lift.
    change (make_transition (TwoPlayerGame := game self) pl a b)
      with (rbind (TicTacToe.make_transition pl a b)
              (fun '(ns, r, d) => Ok (ns, inject_Z r, d))).
    destruct (proj1 (empty_cells_elem b a) (Hall a (list_elem_of_here _ _)))
      as [Ha Hta].
    rewrite (make_transition_legal pl a b Hw Ha Hta). simpl.
    apply IH. intros a' Ha'. by apply Hall, list_elem_of_further.
Qed.

Lemma ttt_expansion_total (j : nat) (pl : Z) (w : world board) (ndj : node) :
  heap w !! j = Some ndj -> ttt_node_ok ndj ->
  exists x w', expansion self draw j pl w = Ok (x, w').
Proof.
  intros Hj (Hw & _ & He & _). unfold expansion, bind, get_node. rewrite Hj.
  destruct (terminal ndj); simpl; [by eauto|].
  unfold expand, bind, lift.
  change (get_possible_actions (TwoPlayerGame := game self) pl (state ndj))
    with (TicTacToe.get_possible_actions pl (state ndj)).
  rewrite (get_possible_actions_empty_cells pl _ Hw).
  destruct (ttt_make_children_total j (state ndj) pl Hw
              (empty_cells (state ndj)) [] [] w) as ([cs acts] & w1 & Hm);
    [done|].
  rewrite Hm. destruct w as [h k].
  apply make_children_spec in Hm as (news & -> & Hr & Hlen & _).
  inversion Hr; subst. simpl.
  destruct (choice_spec draw (seq (length h) (length news))
              (mkWorld (<[j := mkNode (state ndj) (player_to_move ndj)
                                  (accumulated_value ndj) (n_visits ndj)
                                  (empty_cells (state ndj))
                                  (seq (length h) (length news))
                                  (parent ndj) (terminal ndj)
                                  (terminal_reward ndj)]> (h ++ news)) k))
    as (x & _ & Hch).
  { intros E. apply (f_equal length) in E. rewrite length_seq in E.
    simpl in E. specialize (He eq_refl).
    destruct (empty_cells (state ndj)); [done|]. simpl in Hlen. lia. }
  eexists _, _. exact Hch.
Qed.

Lemma expansion_steps (j x : nat) (w w2 : world board) (ndj : node) :
  heap w !! j = Some ndj ->
  expansion self draw j (player_to_move ndj) w = Ok (x, w2) ->
  expansion_step self (heap w) j ndj x (heap w2).
Proof.
  intros Hj H. unfold expansion, bind, get_node in H. rewrite Hj in H.
  destruct (terminal ndj) eqn:Ht; simpl in H.
  - inversion H; subst. by left.
  - destruct w as [h k].
    by apply (expand_step self draw) in H as [H _].
Qed.

Lemma ttt_evaluation_total (fuel x sims : nat) (w : world board) (nd : node) :
  heap w !! x = Some nd -> ttt_node_ok nd ->
  (9 <= fuel)%nat -> (1 <= sims)%nat ->
  exists val w',
    evaluation self draw fuel x sims w = Ok (val, w')
    /\ (-1 <= val <= 1)%Q.
Proof.
  intros Hx (Hw & Hp & He & Hr & _) Hf Hs.
  unfold evaluation, bind, get_node. rewrite Hx.
  destruct (terminal nd); simpl; [by eauto|].
  unfold rollout, bind.
  pose proof (empty_cells_length (state nd)) as Hl.
  destruct (ttt_simulations_total c draw fuel nd Hw Hp (He eq_refl)
              ltac:(lia) sims 0 w) as (z & w' & Hsim & Hz & _).
  change (inject_Z 0) with 0%Q in Hsim. rewrite Hsim.
  unfold lift, py_div. destruct (Nat.eqb_spec sims 0); [lia|].
  eexists _, _. split; [done|]. apply average_bounds; [done|lia].
Qed.

Lemma ttt_iteration (fuel : nat) (pl : Z) (sims : nat) (w : world board)
    (r : node) :
  tree_inv (heap w) -> stats_inv (heap w) -> ttt_inv (heap w) ->
  heap w !! 0%nat = Some r -> player_to_move r = pl ->
  (9 <= fuel)%nat -> (1 <= sims)%nat ->
  exists w',
    iteration self np_sqrt np_log float32 draw fuel pl sims w = Ok (tt, w')
    /\ ttt_inv (heap w').
Proof.
  intros Hi Hs Ht Hr Hpl Hf Hsims. unfold iteration, bind, heap_size.
  destruct (descend_total self np_sqrt np_log float32 draw
              (length (heap w)) 0 pl w r Hi Hs) as (j & pl' & w1 & Hd);
    [lia|done|].
  pose proof (descend_spec self np_sqrt np_log float32 draw
                (length (heap w)) 0 pl w r Hi) as Hds.
  rewrite Hd in Hds. rewrite Hd.
  destruct Hds as (Hw1 & _ & ndj & Hj & Hleaf & Hplj);
    [lia|done|done|].
  rewrite <- Hw1 in Hj.
  destruct (ttt_expansion_total j pl' w1 ndj Hj) as (x & w2 & Ee).
  { apply (Ht j). by rewrite <- Hw1. }
  rewrite Ee.
  pose proof (expansion_spec self draw j pl' w1 ndj) as He.
  rewrite Hw1 in He, Hj. specialize (He Hi Hj Hleaf Hplj).
  rewrite Ee in He.
  destruct He as (Hi2 & Hx & _).
  assert (Ht2 : ttt_inv (heap w2)).
  { apply (expansion_step_ttt (heap w) (heap w2) j x ndj Ht Hj).
    rewrite <- Hw1. apply expansion_steps; [by rewrite Hw1|].
    by rewrite Hplj. }
  destruct (lookup_lt_is_Some_2 _ _ Hx) as [ndx Hndx].
  destruct (ttt_evaluation_total fuel x sims w2 ndx Hndx (Ht2 x ndx Hndx)
              Hf Hsims) as (val & w3 & Ev & Hval).
  pose proof (evaluation_keeps_heap self draw fuel x sims w2
                (lookup_lt_is_Some_2 _ _ Hx)) as Hev.
  rewrite Ev in Hev. rewrite Ev.
  destruct w3 as [h3 k3]. simpl in Hev. subst h3. simpl.
  destruct (backprop_spec val k3 (length (heap w2)) (heap w2) x)
    as (h4 & Hb & Hva); [by apply tree_inv_parents_below|done|done|].
  rewrite Hb. eexists. split; [done|]. simpl.
  by apply (visited_along_ttt val (chain (heap w2) (length (heap w2)) x)
              (heap w2) h4).
Qed.

Lemma ttt_iterations (fuel : nat) (b : board) (pl : Z) (sims seed : nat) :
  well_formed b -> pl = 0 \/ pl = 1 -> empty_cells b <> [] ->
  (9 <= fuel)%nat -> (1 <= sims)%nat ->
  forall N, exists w,
    iterations self np_sqrt np_log float32 draw fuel pl sims N
      (mkWorld [new_MCTSNode b pl None false 0%Q] seed) = Ok (tt, w)
    /\ ttt_inv (heap w).
Proof.
  intros Hw Hp Hne Hf Hs. induction N as [|N IH].
  - eexists. split; [done|]. by apply ttt_inv_init.
  - destruct IH as (w1 & E & Ht1). simpl. unfold bind.
    pose proof (iterations_spec self np_sqrt np_log float32 draw fuel pl sims
                  (mkWorld [new_MCTSNode b pl None false 0%Q] seed)
                  (new_MCTSNode b pl None false 0%Q)
                  (tree_inv_init b pl) eq_refl eq_refl N) as Hspec.
    rewrite E in Hspec. destruct Hspec as (Hi1 & _ & Hg1 & _).
    destruct (Hg1 0%nat _ eq_refl) as (r1 & Hr1 & _ & Hp1 & _).
    simpl in Hp1.
    pose proof (iterations_stats self np_sqrt np_log float32 draw fuel pl
                  sims (mkWorld [new_MCTSNode b pl None false 0%Q] seed)
                  (new_MCTSNode b pl None false 0%Q)
                  (tree_inv_init b pl) (stats_inv_init b pl) eq_refl eq_refl
                  N w1 E) as Hs1.
    rewrite E.
    by apply (ttt_iteration fuel pl sims w1 r1).
Qed.


(* on the example game the mean value of a visited node is at least -1,
   so a store that keeps such scores above -inf does so at the root *)
Lemma ttt_root_scores_above_sentinel (fuel : nat) (b : board) (pl : Z)
    (N M sims seed : nat) (wM : world board) :
  well_formed b -> pl = 0 \/ pl = 1 -> empty_cells b <> [] ->
  (9 <= fuel)%nat -> (1 <= sims)%nat ->
  (forall N' n a, (1 <= n)%nat -> (n <= N')%nat -> (N' < N)%nat ->
     (-1 <= a)%Q ->
     float32 (a - c * np_sqrt (np_log (Qnat N') / Qnat n))%Q <> NegInf) ->
  (M < N)%nat ->
  run self np_sqrt np_log float32 draw fuel b pl M sims seed = Ok wM ->
  root_scores_above_sentinel self np_sqrt np_log float32 (heap wM).
Proof.
  intros Hw Hp Hne Hf Hs Hno HM Hrun r c0 k Hr Hc Hk Hv.
  destruct (ttt_iterations fuel b pl sims seed Hw Hp Hne Hf Hs M)
    as (w & E & Ht).
  assert (w = wM) as ->.
  { unfold run in Hrun. rewrite E in Hrun. by inversion Hrun. }
  apply run_spec in Hrun as (Hi & Hvis & _).
  unfold visits in Hvis. rewrite Hr in Hvis.
  destruct (inv_children _ Hi 0%nat r c0 Hr Hc) as (cn & Hcn & Hpar).
  assert (cn = k) as -> by congruence.
  destruct (inv_parent _ Hi c0 k 0%nat Hk Hpar) as (_ & pn & Hpn & Hle).
  assert (pn = r) as -> by congruence.
  destruct (Ht c0 k Hk) as (_ & _ & _ & _ & Hlow & _).
  unfold ucb_score. destruct (Nat.eqb_spec (n_visits k) 0); [done|]. simpl.
  apply Hno; [lia|done|lia|].
  apply Qle_shift_div_l.
  - unfold Qnat. rewrite <- (Zlt_Qlt 0). lia.
  - lra.
Qed.


End TicTacToeSearch.

(* --------------------------------------------------------------------- *)
(*  The picture of a board                                                *)
(* --------------------------------------------------------------------- *)

Section PictureFacts.
Import TicTacToe.

Lemma markers_valid (v : Z) :
  0 <= v <= 2 -> exists ch, markers v = Some (String ch EmptyString).
Proof.
  intros Hv. assert (v = 0 \/ v = 1 \/ v = 2) as [->|[->| ->]] by lia;
    by eexists.
Qed.

Lemma markers_None (v : Z) : markers v = None <-> ~ 0 <= v <= 2.
Proof.
  unfold markers.
  destruct (Z.eqb_spec v 0), (Z.eqb_spec v 1), (Z.eqb_spec v 2);
    split; try done; lia.
Qed.

Lemma row_markers_error (row : list Z) (k : Z) :
  row_markers row = inr k -> k ∈ row /\ ~ 0 <= k <= 2.
Proof.
  induction row as [|v row IH]; [done|]. simpl.
  destruct (markers v) as [m|] eqn:E.
  - destruct (row_markers row) as [ms|k']; [done|].
    intros [= ->]. destruct IH as [H1 H2]; [done|].
    split; [by apply list_elem_of_further|done].
  - intros [= ->]. split; [apply list_elem_of_here|by apply markers_None].
Qed.

Lemma row_markers_ok (row : list Z) :
  Forall (fun v => 0 <= v <= 2) row ->
  exists ms, row_markers row = inl ms /\ length ms = length row.
Proof.
  induction 1 as [|v row Hv _ IH]; [by exists []|].
  simpl. destruct (markers_valid v Hv) as [ch ->].
  destruct IH as (ms & -> & Hl). eexists. split; [done|]. simpl. by rewrite Hl.
Qed.

Lemma board_rows_error (state : list (list Z)) :
  forall rows k,
  board_rows state rows = inr k ->
  exists row, row ∈ state /\ k ∈ row /\ ~ 0 <= k <= 2.
Proof.
  induction state as [|row state IH]; intros rows k H; [done|].
  simpl in H. destruct (row_markers row) as [ms|k'] eqn:E.
  - apply IH in H as (row' & H1 & H2). exists row'.
    split; [by apply list_elem_of_further|done].
  - injection H as ->. apply row_markers_error in E.
    exists row. split; [apply list_elem_of_here|done].
Qed.

Lemma board_rows_ok (state : list (list Z)) :
  Forall (Forall (fun v => 0 <= v <= 2)) state ->
  forall rows, exists rows', board_rows state rows = inl rows'.
Proof.
  induction 1 as [|row state Hrow _ IH]; intros rows; [by eexists|].
  simpl. destruct (row_markers_ok row Hrow) as (ms & -> & _). apply IH.
Qed.

(** X18: ascii_tictactoe_board raises KeyError exactly when some cell of
    the state is not 0, 1 or 2, and the key of the error is such a cell
    of the state; a state with only 0, 1 and 2 in its rows, of whatever
    shape, is rendered as a string. *)
Theorem ascii_tictactoe_board_key_error (state : list (list Z)) :
  ((exists k, ascii_tictactoe_board state = KeyError k)
   <-> exists row v, row ∈ state /\ v ∈ row /\ ~ 0 <= v <= 2)
  /\ (forall k, ascii_tictactoe_board state = KeyError k ->
        ~ 0 <= k <= 2 /\ exists row, row ∈ state /\ k ∈ row)
  /\ ((forall row v, row ∈ state -> v ∈ row -> 0 <= v <= 2) ->
      exists s, ascii_tictactoe_board state = Text s).
Proof.
  assert (Herr : forall k, ascii_tictactoe_board state = KeyError k ->
            ~ 0 <= k <= 2 /\ exists row, row ∈ state /\ k ∈ row).
  { intros k H. unfold ascii_tictactoe_board in H.
    destruct (board_rows state []) as [rows|k'] eqn:E; [done|].
    injection H as ->. apply board_rows_error in E as (row & H1 & H2 & H3).
    eauto. }
  assert (Hok : (forall row v, row ∈ state -> v ∈ row -> 0 <= v <= 2) ->
            exists s, ascii_tictactoe_board state = Text s).
  { intros Hall. unfold ascii_tictactoe_board.
    destruct (board_rows_ok state) with (rows := @nil string) as [rows ->].
    - apply Forall_forall. intros row Hrow. apply Forall_forall.
      intros v Hv. by apply (Hall row v).
    - eauto. }
  split; [|by split]. split.
  - intros [k H]. destruct (Herr k H) as (Hk & row & H1 & H2). eauto.
  - intros (row & v & Hrow & Hv & Hbad).
    destruct (ascii_tictactoe_board state) as [s|k] eqn:E; [|by eauto].
    exfalso.
    (* a valid rendering means every cell is a key *)
    unfold ascii_tictactoe_board in E.
    destruct (board_rows state []) as [rows|k'] eqn:Er; [|done].
    clear E Herr Hok. revert Er. generalize (@nil string).
    induction state as [|row' state IH]; intros rows0 Er.
    { by apply elem_of_nil in Hrow. }
    simpl in Er. destruct (row_markers row') as [ms|] eqn:Em; [|done].
    apply elem_of_cons in Hrow as [->|Hrow].
    + clear IH Er. revert ms Em.
      induction row' as [|v' row' IH']; intros ms Em.
      { by apply elem_of_nil in Hv. }
      simpl in Em. destruct (markers v') as [m|] eqn:Ev; [|done].
      destruct (row_markers row') as [ms'|]; [|done].
      apply elem_of_cons in Hv as [->|Hv].
      * apply markers_None in Hbad. congruence.
      * by apply (IH' Hv ms').
    + by apply (IH Hrow _ Er).
Qed.

(** X19: on a 3x3 board with cells 0, 1 and 2 ascii_tictactoe_board
    returns a string of 17 characters, three lines of five, from which
    the board can be read back: the character at position
    6 * row + 2 * col is the marker of the cell at (row, col), that is
    '.' for 0, 'X' for 1 and 'O' for 2. *)
Theorem ascii_tictactoe_board_reads_back (b : board) :
  well_formed b ->
  (forall row col v, cell b row col = Ok v -> 0 <= v <= 2) ->
  exists s,
    ascii_tictactoe_board b = Text s
    /\ String.length s = 17%nat
    /\ forall row col v,
         (row < 3)%nat -> (col < 3)%nat -> cell b row col = Ok v ->
         exists ch, String.get (6 * row + 2 * col) s = Some ch
                    /\ markers v = Some (String ch EmptyString).
Proof.
  intros Hw Hv.
  destruct (TicTacToeRules.well_formed_inv b Hw)
    as (c0 & c1 & c2 & c3 & c4 & c5 & c6 & c7 & c8 & ->).
  destruct (markers_valid c0 (Hv 0 0 c0 eq_refl))%nat as [h0 E0].
  destruct (markers_valid c1 (Hv 0 1 c1 eq_refl))%nat as [h1 E1].
  destruct (markers_valid c2 (Hv 0 2 c2 eq_refl))%nat as [h2 E2].
  destruct (markers_valid c3 (Hv 1 0 c3 eq_refl))%nat as [h3 E3].
  destruct (markers_valid c4 (Hv 1 1 c4 eq_refl))%nat as [h4 E4].
  destruct (markers_valid c5 (Hv 1 2 c5 eq_refl))%nat as [h5 E5].
  destruct (markers_valid c6 (Hv 2 0 c6 eq_refl))%nat as [h6 E6].
  destruct (markers_valid c7 (Hv 2 1 c7 eq_refl))%nat as [h7 E7].
  destruct (markers_valid c8 (Hv 2 2 c8 eq_refl))%nat as [h8 E8].
  unfold ascii_tictactoe_board. simpl.
  rewrite E0, E1, E2, E3, E4, E5, E6, E7, E8. simpl.
  eexists. split; [done|]. split; [done|].
  intros row col v Hr Hc Hcell.
  destruct row as [|[|[|row]]]; [| | |lia];
    (destruct col as [|[|[|col]]]; [| | |lia]);
    simpl in Hcell; injection Hcell as <-; eexists; (split; [done|done]).
Qed.

End PictureFacts.

(* --------------------------------------------------------------------- *)
(*  The value of the root                                                 *)
(* --------------------------------------------------------------------- *)

Section RootValue.
Local Open Scope mcts_scope.
Local Open Scope nat_scope.
Context {State : Type}.
Variable self : TwoPlayerMCTS State.
Variables np_sqrt np_log : Q -> Q.
Variable float32 : Q -> score.
Variable draw : nat -> nat.
Local Abbreviation node := (MCTSNode State).










End RootValue.

(* --------------------------------------------------------------------- *)
(*  The example game with one playout per rollout                         *)
(* --------------------------------------------------------------------- *)

Section TicTacToeValues.
Import TicTacToeSpec TicTacToeRules.
Local Abbreviation board := TicTacToe.board.
Local Abbreviation well_formed := TicTacToe.well_formed.
Local Open Scope mcts_scope.
Variable c : Q.
Variables np_sqrt np_log : Q -> Q.
Variable float32 : Q -> score.
Variable draw : nat -> nat.
Local Abbreviation self := (mkEngine TicTacToe_game c).
Local Abbreviation node := (MCTSNode board).









End TicTacToeValues.

(* --------------------------------------------------------------------- *)
(*  A search without simulations                                          *)
(* --------------------------------------------------------------------- *)

Section ZeroSimulations.
Local Open Scope mcts_scope.
Local Open Scope nat_scope.
Context {State : Type}.
Variable self : TwoPlayerMCTS State.
Variables np_sqrt np_log : Q -> Q.
Variable float32 : Q -> score.
Variable draw : nat -> nat.
Local Abbreviation node := (MCTSNode State).

Lemma make_children_total (i : nat) (s : State) (pl : Z) :
  forall todo cs acts (w : world State),
  (forall a, a ∈ todo ->
     exists s' r d,
       make_transition (TwoPlayerGame := game self) pl a s = Ok (s', r, d)) ->
  exists r w', make_children self i s pl todo cs acts w = Ok (r, w').
Proof.
  induction todo as [|a todo IH]; intros cs acts w Hall.
  - by eexists _, _.
  - cbn [make_children]. unfold bind, lift.
    destruct (Hall a (list_elem_of_here _ _)) as (s' & r & d & ->). simpl.
    apply IH. intros a' Ha'. by apply Hall, list_elem_of_further.
Qed.

(* the first iteration without simulations, when no move ends the game *)
Lemma first_iteration_zero_simulations (fuel : nat) (s : State) (pl : Z)
    (seed : nat) (acts : list Z) :
  get_possible_actions (TwoPlayerGame := game self) pl s = Ok acts ->
  acts <> [] ->
  (forall a, a ∈ acts ->
     exists s' r,
       make_transition (TwoPlayerGame := game self) pl a s
       = Ok (s', r, false)) ->
  iteration self np_sqrt np_log float32 draw fuel pl 0
    (mkWorld [new_MCTSNode s pl None false 0%Q] seed)
  = Raise ZeroDivisionError.
Proof.
  intros Ha Hne Hall. unfold iteration, bind, heap_size. simpl.
  set (root := new_MCTSNode s pl None false 0%Q).
  destruct (expansion self draw 0 pl (mkWorld [root] seed))
    as [[x w2]|e] eqn:Ee.
  - pose proof Ee as Hstep.
    unfold expansion, bind, get_node in Hstep. simpl in Hstep.
    apply (expand_step self draw 0 root [root] seed x w2) in Hstep
      as [Hstep _]; [|done].
    destruct Hstep as [(Ht & _)|(_ & news & acts' & Ha' & Hh2 & Hlen & _
                                  & Hx & Hedges)]; [done|].
    simpl in Ha'. assert (acts' = acts) as -> by congruence.
    apply elem_of_seq in Hx. simpl in Hx.
    assert (Hxn : x - 1 < length news) by lia.
    apply lookup_lt_is_Some_2 in Hxn as [nx Hnx].
    destruct (Forall2_lookup_r _ _ _ _ _ Hedges Hnx)
      as (a & Hka & s' & r & d & Ht & _ & Hd & _).
    destruct (Hall a) as (s'' & r' & Ht').
    { apply list_elem_of_lookup. eauto. }
    simpl in Ht. rewrite Ht' in Ht. injection Ht as _ _ <-.
    unfold evaluation, bind, get_node. rewrite Hh2.
    assert (Hlook : expanded [root] 0 root news acts !! x = Some nx).
    { unfold expanded. rewrite list_lookup_insert_ne by lia.
      rewrite lookup_app_r by (simpl; lia). done. }
    rewrite Hlook, Hd. done.
  - exfalso. unfold expansion, bind, get_node in Ee. simpl in Ee.
    unfold expand, bind, lift in Ee. simpl in Ee. rewrite Ha in Ee.
    destruct (make_children_total 0 s pl acts [] [] (mkWorld [root] seed))
      as ([cs acts'] & w1 & Hm).
    { intros a Hin. destruct (Hall a Hin) as (s' & r & Ht). eauto. }
    rewrite Hm in Ee.
    apply make_children_spec in Hm as (news & -> & Hr & Hlen & _).
    inversion Hr; subst. simpl in Ee.
    unfold choice in Ee. simpl in Ee.
    destruct (seq 1 (length news) !! _) as [y|] eqn:Hy; [done|].
    apply lookup_ge_None in Hy. rewrite length_seq in Hy.
    assert (draw seed mod length news < length news).
    { apply Nat.mod_upper_bound. rewrite Hlen. by destruct acts. }
    lia.
Qed.

(** X21: with n_rollout_simulations = 0 and a budget of at least 1, run
    raises ZeroDivisionError whenever the root state has legal actions
    and none of them ends the game: the first iteration expands the
    root, picks a child that is not terminal and divides the total
    reward by the number of simulations. *)
Theorem run_zero_simulations_raises (fuel : nat) (s : State) (pl : Z)
    (N seed : nat) (acts : list Z) :
  get_possible_actions (TwoPlayerGame := game self) pl s = Ok acts ->
  acts <> [] ->
  (forall a, a ∈ acts ->
     exists s' r,
       make_transition (TwoPlayerGame := game self) pl a s
       = Ok (s', r, false)) ->
  1 <= N ->
  run self np_sqrt np_log float32 draw fuel s pl N 0 seed
  = Raise ZeroDivisionError.
Proof.
  intros Ha Hne Hall HN. unfold run.
  assert (H : iterations self np_sqrt np_log float32 draw fuel pl 0 N
                (mkWorld [new_MCTSNode s pl None false 0%Q] seed)
              = Raise ZeroDivisionError).
  { destruct N as [|N]; [lia|]. clear HN. induction N as [|N IH].
    - simpl. unfold bind, ret.
      by apply first_iteration_zero_simulations with (acts := acts).
    - cbn [iterations]. unfold bind. cbn [iterations] in IH.
      unfold bind in IH. by rewrite IH. }
  by rewrite H.
Qed.

End ZeroSimulations.

(* --------------------------------------------------------------------- *)
(*  The float32 store                                                     *)
(* --------------------------------------------------------------------- *)

Lemma round_half_even_le (x : Q) : (inject_Z (round_half_even x) <= x + 1)%Q.
Proof.
  unfold round_half_even. pose proof (Qfloor_le x) as Hf.
  assert (H1 : (inject_Z (Qfloor x + 1) <= x + 1)%Q).
  { rewrite inject_Z_plus. change (inject_Z 1) with 1%Q. lra. }
  destruct (x - inject_Z (Qfloor x) ?= 1 # 2)%Q; [|lra|done].
  destruct (Z.even _); [lra|done].
Qed.

Lemma binade_le (a : Q) :
  (0 < a)%Q -> (a <= inject_Z (2 ^ 127))%Q -> binade a <= 127.
Proof.
  intros Hpos Hle.
  assert (He0 : Z.log2 (Qnum a) - Z.log2 (Zpos (Qden a)) <= 127).
  { unfold Qle in Hle. cbn [Qnum Qden inject_Z] in Hle.
    rewrite Z.mul_1_r in Hle.
    apply Z.log2_le_mono in Hle.
    rewrite (Z.mul_comm (2 ^ 127)), Z.log2_mul_pow2 in Hle by lia. lia. }
  unfold binade. destruct (Qle_bool _ _); lia.
Qed.

(* a value of at least -2^127 is not stored as -inf *)
Lemma float32_nearest_above_sentinel (q : Q) :
  (- inject_Z (2 ^ 127) <= q)%Q -> float32_nearest q <> NegInf.
Proof.
  intros Hq. unfold float32_nearest.
  destruct (Qeq_bool q 0) eqn:E0; [done|]. cbv zeta.
  destruct (Qle_bool 0 q) eqn:Eq0.
  { by destruct (Qle_bool (pow2 128) _). }
  destruct (Qle_bool (pow2 128) _) eqn:E; [|done]. exfalso.
  apply Qle_bool_iff in E.
  assert (Hneg : (q < 0)%Q).
  { apply Qnot_le_lt. intros H. apply Qle_bool_iff in H. congruence. }
  assert (Ha : (Qabs q == - q)%Q) by (apply Qabs_neg; lra).
  set (a := Qabs q) in *.
  assert (Hapos : (0 < a)%Q) by lra.
  assert (Hale : (a <= inject_Z (2 ^ 127))%Q) by lra.
  pose proof (binade_le a Hapos Hale) as Hb.
  set (e := Z.max (binade a) (-126)) in *.
  assert (He : e <= 127) by lia.
  set (ulp := pow2 (e - 23)) in *.
  assert (Hulp0 : (0 < ulp)%Q) by (apply Qpower_0_lt; lra).
  assert (Hulp : (ulp <= pow2 104)%Q).
  { apply Qpower_le_compat_l; [lia|lra]. }
  pose proof (round_half_even_le (a / ulp)) as Hr.
  assert (Hm : (inject_Z (round_half_even (a / ulp)) * ulp <= a + ulp)%Q).
  { assert (Heq : (a + ulp == (a / ulp + 1) * ulp)%Q) by (field; lra).
    rewrite Heq. apply Qmult_le_compat_r; lra. }
  assert (H104 : (pow2 104 == inject_Z (2 ^ 104))%Q) by reflexivity.
  assert (H128 : (pow2 128 == inject_Z (2 ^ 128))%Q) by reflexivity.
  rewrite H128 in E. rewrite H104 in Hulp.
  assert (Hc : (inject_Z (2 ^ 127) + inject_Z (2 ^ 104) < inject_Z (2 ^ 128))%Q)
    by reflexivity.
  lra.
Qed.

(* with the stand-ins for np.sqrt and np.log, the coefficient 1 and at
   most eight visits, the IEEE store keeps the score of a mean value of
   at least -1 finite *)
Lemma small_scores_above_sentinel (N' n : nat) (a : Q) :
  (1 <= n)%nat -> (n <= N')%nat -> (N' < 9)%nat -> (-1 <= a)%Q ->
  float32_nearest (a - 1 * sqrt_approx (log_approx (Qnat N') / Qnat n))%Q
  <> NegInf.
Proof.
  intros H1 H2 H3 Ha.
  assert (Hs : (sqrt_approx (log_approx (Qnat N') / Qnat n) <= 2)%Q).
  { do 9 (destruct N' as [|N'];
          [do 9 (destruct n as [|n];
                 [try lia; vm_compute; discriminate|]); lia|]).
    lia. }
  apply float32_nearest_above_sentinel.
  assert (Hc : (3 <= inject_Z (2 ^ 127))%Q) by (vm_compute; discriminate).
  lra.
Qed.

(* --------------------------------------------------------------------- *)
(*  The further theorems at concrete inputs                               *)
(* --------------------------------------------------------------------- *)

Lemma get_possible_actions_lists_empty_cells_witness :
  exists acts,
    TicTacToe.get_possible_actions 0 endgame_board = Ok acts
    /\ NoDup acts /\ StronglySorted Z.lt acts.
Proof.
  destruct (TicTacToeRules.get_possible_actions_lists_empty_cells 0
              endgame_board) as (acts & Ha & _ & Hn & Hs).
  - split; [reflexivity|]. repeat constructor.
  - exists acts. split; [exact Ha|]. split; [exact Hn|exact Hs].
Defined.

Lemma make_transition_accepts_listed_actions_witness :
  8 ∈ [8]
  <-> exists ns r d, TicTacToe.make_transition 0 8 endgame_board = Ok (ns, r, d).
Proof.
  apply (TicTacToeRules.make_transition_accepts_listed_actions 0 0 8
           endgame_board [8]).
  - split; [reflexivity|]. repeat constructor.
  - reflexivity.
Defined.

Lemma make_transition_writes_row_object_witness :
  exists nb,
    TicTacToeObjects.view midgame_moved [3; 4; 5]%nat = Ok nb
    /\ NoDup [3; 4; 5]%nat
    /\ TicTacToe.make_transition 1 5 midgame_board = Ok (nb, 0, false)
    /\ TicTacToe.target nb 5 = Ok (1 + 1).
Proof.
  destruct (TicTacToeObjectFacts.make_transition_writes_row_object 1 5
              midgame_board midgame_moved [0; 1; 2]%nat [3; 4; 5]%nat
              midgame_board 0 false)
    as (_ & _ & _ & nb & Hv & _ & _ & Hd).
  - reflexivity.
  - split; [reflexivity|]. repeat constructor.
  - reflexivity.
  - destruct Hd as (Hn & Hm & Ht & _).
    + repeat (constructor; [rewrite ?elem_of_cons, elem_of_nil; lia|]).
      constructor.
    + exists nb. split; [exact Hv|]. split; [exact Hn|].
      split; [exact Hm|exact Ht].
Defined.

Lemma check_victory_detects_lines_witness :
  TicTacToe._check_victory top_row_board 1 = Ok true
  <-> exists line, line ∈ TicTacToeSpec.lines
        /\ forall rc, rc ∈ line
             -> TicTacToe.cell top_row_board (fst rc) (snd rc) = Ok 1.
Proof.
  apply (proj2 (TicTacToeRules.check_victory_detects_lines top_row_board 1
                  ltac:(split; [reflexivity|repeat constructor]))).
Defined.

Lemma make_transition_outcome_witness :
  true = (TicTacToeSpec.wins [[1; 2; 1]; [1; 2; 2]; [2; 1; 1]] 1
          || TicTacToeSpec.full [[1; 2; 1]; [1; 2; 2]; [2; 1; 1]])
  /\ 0 = (if TicTacToeSpec.wins [[1; 2; 1]; [1; 2; 2]; [2; 1; 1]] 1
          then 1 else 0).
Proof.
  destruct (TicTacToeRules.make_transition_outcome 0 8 endgame_board
              [[1; 2; 1]; [1; 2; 2]; [2; 1; 1]] 0 true)
    as (_ & H1 & H2 & _).
  - split; [reflexivity|]. repeat constructor.
  - reflexivity.
  - split; [exact H1|exact H2].
Defined.

Lemma make_transition_removes_written_actions_witness :
  exists nb,
    TicTacToeObjects.view midgame_moved [3; 4; 5]%nat = Ok nb
    /\ TicTacToe.get_possible_actions (change_player_idx 1) nb
       = Ok (List.filter (fun a' => negb (a' =? 5)) [2; 3; 5; 6; 7; 8]).
Proof.
  destruct (TicTacToeObjectFacts.make_transition_removes_written_actions
              1 1 5 midgame_board midgame_moved [0; 1; 2]%nat [3; 4; 5]%nat
              midgame_board 0 false [2; 3; 5; 6; 7; 8])
    as (nb & Hv & Ha & Hd).
  - reflexivity.
  - split; [reflexivity|]. repeat constructor.
  - lia.
  - reflexivity.
  - reflexivity.
  - destruct Hd as [He _].
    + repeat (constructor; [rewrite ?elem_of_cons, elem_of_nil; lia|]).
      constructor.
    + exists nb. split; [exact Hv|]. rewrite <- He. exact Ha.
Defined.

Lemma ttt_rollout_returns_witness :
  exists z w',
    rollout ttt_engine lcg 9
      (new_MCTSNode TicTacToe.get_initial_state 0 None false 0%Q) 2
      (mkWorld [new_MCTSNode TicTacToe.get_initial_state 0 None false 0%Q] 0)
    = Ok ((inject_Z z / Qnat 2)%Q, w')
    /\ (-1 <= inject_Z z / Qnat 2 <= 1)%Q.
Proof.
  destruct (ttt_rollout_returns 1%Q lcg 9 2
              (new_MCTSNode TicTacToe.get_initial_state 0 None false 0%Q)
              (mkWorld [new_MCTSNode TicTacToe.get_initial_state 0 None
                          false 0%Q] 0))
    as (z & w' & H1 & _ & H2 & _).
  - split; [reflexivity|]. repeat constructor.
  - left. reflexivity.
  - vm_compute. discriminate.
  - vm_compute. lia.
  - lia.
  - exists z, w'. split; [exact H1|exact H2].
Defined.

Lemma run_returns_tree_witness :
  NoDup (children_nodes example_root)
  /\ length (actions example_root) = length (children_nodes example_root).
Proof.
  destruct (run_returns_tree ttt_engine sqrt_approx log_approx float32_exact lcg
              20 TicTacToe.get_initial_state 0 3 2 0 example_world)
    with (i := 0%nat) (nd := example_root) as (H1 & H2 & _).
  - vm_compute. reflexivity.
  - vm_compute. reflexivity.
  - split; [exact H1|exact H2].
Defined.

Lemma run_edges_follow_game_witness :
  get_possible_actions (TwoPlayerGame := TicTacToe_game)
    (player_to_move example_root) (state example_root)
  = Ok (actions example_root).
Proof.
  apply (proj1 (run_edges_follow_game ttt_engine sqrt_approx log_approx
                  float32_exact
                  lcg 20 TicTacToe.get_initial_state 0 3 2 0 example_world
                  ltac:(vm_compute; reflexivity) 0%nat example_root
                  ltac:(vm_compute; reflexivity)
                  ltac:(vm_compute; discriminate))).
Defined.

Lemma run_visit_sums_witness :
  exists r, heap example_world !! 0%nat = Some r /\ n_visits r = 3%nat
            /\ sum_visits (heap example_world) (children_nodes r) = 3%nat.
Proof.
  apply (proj1 (run_visit_sums ttt_engine sqrt_approx log_approx float32_exact
                  lcg 20 TicTacToe.get_initial_state 0 3 2 0 example_world
                  ltac:(vm_compute; reflexivity))).
Defined.

Lemma run_continues_smaller_budget_witness :
  exists w, ttt_run 20 TicTacToe.get_initial_state 0 1 2 0 = Ok w
            /\ extends (heap w) (heap example_world).
Proof.
  apply (run_continues_smaller_budget ttt_engine sqrt_approx log_approx
           float32_exact
           lcg 20 TicTacToe.get_initial_state 0 1 2 2 0 example_world).
  vm_compute. reflexivity.
Defined.





Lemma ascii_tictactoe_board_reads_back_witness :
  exists s, ascii_tictactoe_board endgame_board = Text s
            /\ String.length s = 17%nat.
Proof.
  destruct (ascii_tictactoe_board_reads_back endgame_board)
    as (s & H1 & H2 & _).
  - split; [reflexivity|]. repeat constructor.
  - intros [|[|[|row]]] [|[|[|col]]] v H; vm_compute in H;
      try discriminate; injection H as <-; lia.
  - exists s. split; [exact H1|exact H2].
Defined.

Lemma run_zero_simulations_raises_witness :
  ttt_run 20 TicTacToe.get_initial_state 0 1 0 0 = Raise ZeroDivisionError.
Proof.
  apply (run_zero_simulations_raises ttt_engine sqrt_approx log_approx
           float32_exact
           lcg 20 TicTacToe.get_initial_state 0 1 0
           [0; 1; 2; 3; 4; 5; 6; 7; 8]).
  - reflexivity.
  - discriminate.
  - intros a Ha.
    repeat (apply elem_of_cons in Ha as [->|Ha];
            [eexists _, _; vm_compute; reflexivity|]).
    by apply elem_of_nil in Ha.
  - lia.
Defined.

Lemma run_unvisited_nodes_witness :
  exists nd, heap example_world !! 1%nat = Some nd
             /\ accumulated_value nd = 0%Q /\ children_nodes nd = [].
Proof.
  pose (nd := default example_root (example_tree !! 1%nat)).
  assert (E : ttt_run 20 TicTacToe.get_initial_state 0 3 2 0
              = Ok example_world) by (vm_compute; reflexivity).
  assert (Hn : heap example_world !! 1%nat = Some nd)
    by (vm_compute; reflexivity).
  exists nd. split; [exact Hn|].
  apply (proj1 (run_unvisited_nodes ttt_engine sqrt_approx log_approx
                  float32_exact
                  lcg 20 TicTacToe.get_initial_state 0 3 2 0 example_world
                  E 1%nat nd Hn)).
  vm_compute. reflexivity.
Defined.

Lemma select_child_node_ucb_prefers_unvisited_witness :
  exists idx c k,
    select_child_node_ucb ttt_engine sqrt_approx log_approx float32_exact lcg
      example_root (mkWorld example_tree 0)
    = Ok (idx, mkWorld example_tree 1)
    /\ children_nodes example_root !! idx = Some c
    /\ example_tree !! c = Some k /\ n_visits k = 0%nat.
Proof.
  destruct (select_child_node_ucb_prefers_unvisited ttt_engine sqrt_approx
              log_approx float32_exact lcg example_root example_kids
              (mkWorld example_tree 0) (mkWorld example_tree 1) 5%nat)
    as (_ & c & k & Hc & Hk & Hz).
  - vm_compute. repeat constructor.
  - vm_compute. reflexivity.
  - exists 5%nat, c, k. split; [vm_compute; reflexivity|].
    split; [exact Hc|]. split; [exact Hk|].
    destruct Hz as (_ & _ & Hz).
    + exists (default example_root (example_kids !! 0%nat)). split.
      * apply list_elem_of_lookup. exists 0%nat. vm_compute. reflexivity.
      * vm_compute. reflexivity.
    + apply Hz. intros k' _ Hv. unfold ucb_score, float32_exact.
      destruct (Nat.eqb_spec (n_visits k') 0); [contradiction|discriminate].
Defined.

Lemma get_best_action_with_enough_budget_witness :
  exists a,
    get_best_action ttt_engine sqrt_approx log_approx float32_nearest lcg 20
      two_left_board 1 4 2 0 = Ok a
    /\ a ∈ [6; 8].
Proof.
  destruct (get_best_action_with_enough_budget ttt_engine sqrt_approx
              log_approx float32_nearest lcg 20 two_left_board 1 4 2 0
              (match run ttt_engine sqrt_approx log_approx float32_nearest
                       lcg 20 two_left_board 1 4 2 0 with
               | Ok w => w
               | Raise _ => mkWorld [] 0
               end) [6; 8])
    as (r & j & a & c & n & _ & _ & _ & Hb & Hja & _).
  - vm_compute. reflexivity.
  - reflexivity.
  - lia.
  - simpl. lia.
  - intros M wM HM Hrun.
    apply (ttt_root_scores_above_sentinel 1%Q sqrt_approx log_approx
             float32_nearest lcg 20 two_left_board 1 4 M 2 0 wM).
    + split; [reflexivity|]. repeat constructor.
    + right. reflexivity.
    + vm_compute. discriminate.
    + lia.
    + lia.
    + intros N' n a Hn HnN HN Ha.
      apply small_scores_above_sentinel; [exact Hn|exact HnN|lia|exact Ha].
    + exact HM.
    + exact Hrun.
  - exists a. split; [exact Hb|]. apply list_elem_of_lookup. exists j. exact Hja.
Defined.

(* with the coefficient 1e39 the scores of the visited children of the
   root overflow; the third iteration of this search selects a visited
   child, the first child of the root is never visited, and a budget
   equal to the number of legal actions ends in the division by zero *)
Example overflow_budget_three_raises :
  TicTacToe.get_possible_actions 1 overflow_board = Ok [6; 7; 8]
  /\ get_best_action overflow_engine sqrt_approx log_approx float32_nearest
       lcg 20 overflow_board 1 3 1 3 = Raise ZeroDivisionError.
Proof. split; vm_compute; reflexivity. Qed.
